(** * ocrmonday: invoice field parser, decode cascade, PDF adapter and job queue

    A shallow embedding of the parts of [src/index.js] and
    [src/controllers/fileController.js] that the specification talks about,
    followed by the properties established for them.

    Conventions of the embedding:
    - a JavaScript string is the list of its UTF-16 code units ([str]);
    - [null]/[undefined] is [None]; a thrown exception is an explicit
      [None]/[Throws] result of the function that can raise it;
    - a JavaScript number obtained from [parseFloat] is the exact decimal it
      denotes (type [number]); binary64 rounding of the digits is not
      modelled, only its two visible effects: underflow to zero and overflow
      to [Infinity];
    - the event loop is a transition system: every step is the code that
      runs between two suspension points ([await]). *)

From Stdlib Require Import String Ascii.
From Stdlib Require Import List Sorted Permutation NArith ZArith QArith Qabs Bool Lia.
Import ListNotations.

Local Open Scope N_scope.

(* ------------------------------------------------------------------ *)
(** ** JavaScript strings *)

Module Js.

(** A code unit, and a string. *)
Abbreviation char := N (only parsing).
Abbreviation str := (list N) (only parsing).

(** An ASCII literal of the source as a list of code units. *)
Definition lit (s : string) : str := map N_of_ascii (list_ascii_of_string s).

Definition str_eqb (a b : str) : bool :=
  (Nat.eqb (length a) (length b)) && forallb (fun p => fst p =? snd p) (combine a b).

(** Code units used by the source that are not ASCII. *)
Definition EURO : char := 8364.      (* U+20AC *)
Definition POUND : char := 163.      (* U+00A3 *)

(** [WhiteSpace] and [LineTerminator] of ECMAScript: the set removed by
    [String.prototype.trim], skipped by [parseFloat] and matched by [\s]. *)
Definition white_space_chars : list char :=
  [9; 10; 11; 12; 13; 32; 160; 5760;
   8192; 8193; 8194; 8195; 8196; 8197; 8198; 8199; 8200; 8201; 8202;
   8232; 8233; 8239; 8287; 12288; 65279].

Definition is_space (c : char) : bool := existsb (N.eqb c) white_space_chars.

Definition is_line_terminator (c : char) : bool :=
  (c =? 10) || (c =? 13) || (c =? 8232) || (c =? 8233).

Definition is_digit (c : char) : bool := (48 <=? c) && (c <=? 57).

Fixpoint drop_while (p : char -> bool) (s : str) : str :=
  match s with
  | [] => []
  | c :: t => if p c then drop_while p t else s
  end.

Fixpoint span (p : char -> bool) (s : str) : str * str :=
  match s with
  | [] => ([], [])
  | c :: t => if p c then let (a, b) := span p t in (c :: a, b) else ([], s)
  end.

Definition trimStart (s : str) : str := drop_while is_space s.
Definition trimEnd (s : str) : str := rev (drop_while is_space (rev s)).
(** [s.trim()] *)
Definition trim (s : str) : str := trimEnd (trimStart s).

(** [s.split(d)] for a one-character separator: never the empty array. *)
Fixpoint split (d : char) (s : str) : list str :=
  match s with
  | [] => [[]]
  | c :: t =>
      if c =? d then [] :: split d t
      else match split d t with
           | h :: r => (c :: h) :: r
           | [] => [[c]]
           end
  end.

(** [s.includes(c)] for a one-character needle. *)
Definition includes (c : char) (s : str) : bool := existsb (N.eqb c) s.

(** [s.lastIndexOf(c)]: the index of the last occurrence, or -1. *)
Fixpoint lastIndexOf_from (c : char) (s : str) (i : Z) (found : Z) : Z :=
  match s with
  | [] => found
  | d :: t => lastIndexOf_from c t (i + 1)%Z (if d =? c then i else found)
  end.
Definition lastIndexOf (c : char) (s : str) : Z := lastIndexOf_from c s 0%Z (-1)%Z.

(** [s.replace(a, b)] with string (non-regex) one-character arguments:
    only the first occurrence is replaced. *)
Fixpoint replace_first (a b : char) (s : str) : str :=
  match s with
  | [] => []
  | c :: t => if c =? a then b :: t else c :: replace_first a b t
  end.

(** [s.replace(/c/g, '')] for a single literal character [c]. *)
Definition remove_all (c : char) (s : str) : str :=
  filter (fun d => negb (d =? c)) s.

(** [s.replace(/\s+/g, ' ')]: every maximal run of white space becomes one
    space. [in_run] tells that the previous character was white space. *)
Fixpoint collapse_spaces (in_run : bool) (s : str) : str :=
  match s with
  | [] => []
  | c :: t =>
      if is_space c
      then (if in_run then collapse_spaces true t else 32 :: collapse_spaces true t)
      else c :: collapse_spaces false t
  end.

(** [s.substring(a, b)] for [0 <= a <= b]. *)
Definition substring (a b : nat) (s : str) : str := firstn (b - a) (skipn a s).

(** Upper-casing of one code unit, as the regular-expression [Canonicalize]
    of ECMAScript (non-unicode mode) uses it.  The table is exact on
    U+0000..U+00FF.  Above U+00FF it is the identity: no code unit above
    U+00FF upper-cases into a character denoted by a pattern of this program
    other than to itself, so membership in the program's character classes is
    not affected. *)
Definition upper (c : char) : char :=
  if (97 <=? c) && (c <=? 122) then c - 32
  else if (224 <=? c) && (c <=? 254) && negb (c =? 247) then c - 32
  else if c =? 255 then 376
  else if c =? 181 then 924
  else c.

(** [s.toUpperCase()], used by the source only on matches of its currency
    pattern, whose characters are ASCII, U+20AC or U+00A3. *)
Definition toUpperCase (s : str) : str := map upper s.

(** Truthiness of a string value: the empty string is falsy. *)
Definition truthy (s : str) : bool := match s with [] => false | _ => true end.

End Js.

(* ------------------------------------------------------------------ *)
(** ** JavaScript numbers produced by [parseFloat] *)

Module Num.
Import Js.

(** The value of a number: [Finite q] stands for the binary64 number nearest
    to the rational [q]. *)
Inductive number :=
| NaN
| Infinity (negative : bool)
| Finite (q : Q).

(** Half of the smallest subnormal, 2^-1075: a decimal of at most this
    magnitude rounds to zero. *)
Definition underflow_bound : Q := Qmake 1 (2 ^ 1075).
(** 2^1024 - 2^970: a decimal of at least this magnitude rounds to
    [Infinity]. *)
Definition overflow_bound : Q := inject_Z (2 ^ 1024 - 2 ^ 970).

Definition Qleb (a b : Q) : bool := (Qnum a * QDen b <=? Qnum b * QDen a)%Z.
Definition Qltb (a b : Q) : bool := (Qnum a * QDen b <? Qnum b * QDen a)%Z.

(** Rounding of an exact decimal to a number: only the class (zero, finite,
    infinite) is decided; a finite value keeps its exact decimal. *)
Definition round (q : Q) : number :=
  if Qleb (Qabs q) underflow_bound then Finite 0%Q
  else if Qleb overflow_bound (Qabs q) then Infinity (Qltb q 0%Q)
  else Finite (Qred q).

Definition isNaN (x : number) : bool :=
  match x with NaN => true | _ => false end.

(** [x > 0] *)
Definition gt_zero (x : number) : bool :=
  match x with
  | NaN => false
  | Infinity negative => negb negative
  | Finite q => Qltb 0%Q q
  end.

(** Truthiness of a number: [NaN] and zero are falsy. *)
Definition truthy_number (x : number) : bool :=
  match x with
  | NaN => false
  | Infinity _ => true
  | Finite q => negb (Qnum q =? 0)%Z
  end.

Definition digit_value (c : char) : Z := Z.of_N (c - 48).

(** The natural number written by a string of decimal digits. *)
Definition digits_value (ds : str) : Z :=
  fold_left (fun acc c => (10 * acc + digit_value c)%Z) ds 0%Z.

Fixpoint starts_with (p s : str) : bool :=
  match p, s with
  | [], _ => true
  | a :: p', b :: s' => (a =? b) && starts_with p' s'
  | _ :: _, [] => false
  end.

(** [ExponentPart] at the head of [s], if there is a complete one. *)
Definition exponent (s : str) : Z :=
  match s with
  | c :: t =>
      if (c =? 101) || (c =? 69) then            (* e, E *)
        let '(neg, t') :=
          match t with
          | d :: u => if d =? 45 then (true, u)         (* - *)
                      else if d =? 43 then (false, u)   (* + *)
                      else (false, t)
          | [] => (false, t)
          end in
        let (ds, _) := span is_digit t' in
        match ds with
        | [] => 0%Z
        | _ => if neg then (- digits_value ds)%Z else digits_value ds
        end
      else 0%Z
  | [] => 0%Z
  end.

(** [parseFloat(s)]: leading white space is skipped and the longest prefix
    that is a [StrDecimalLiteral] is read; [NaN] when there is none. *)
Definition parseFloat (s : str) : number :=
  let s0 := trimStart s in
  let '(neg, s1) :=
    match s0 with
    | c :: t => if c =? 45 then (true, t)
                else if c =? 43 then (false, t)
                else (false, s0)
    | [] => (false, s0)
    end in
  if starts_with (lit "Infinity") s1 then Infinity neg
  else
    let (ip, r1) := span is_digit s1 in
    let (fp, r2) :=
      match r1 with
      | c :: t => if c =? 46 then span is_digit t else ([], r1)
      | [] => ([], r1)
      end in
    match ip ++ fp with
    | [] => NaN
    | ds =>
        let m := inject_Z (digits_value ds) in
        let e := (exponent r2 - Z.of_nat (length fp))%Z in
        let v := (m * Qpower (inject_Z 10) e)%Q in
        round (if neg then Qopp v else v)
    end.

(** The decimal written [ip.fp], for two strings of digits. *)
Definition decimal (ip fp : str) : Q :=
  (inject_Z (digits_value (ip ++ fp))
   * Qpower (inject_Z 10) (0 - Z.of_nat (length fp)))%Q.

End Num.

(* ------------------------------------------------------------------ *)
(** ** Regular expressions (the backtracking matcher of ECMAScript) *)

Module RegExp.
Import Js.

(** Members of a character class. *)
Inductive citem :=
| CRange (lo hi : char)     (* a-b; a single character c is CRange c c *)
| CSpace                    (* \s *)
| CDigit.                   (* \d *)

(** Pattern syntax.  [x+] is [Seq x (Star g x)], [x?] is [Alt x Eps],
    [x{n}] is [x] repeated, [x{n,m}] and [x{n,}] accordingly: see the
    constructors below the matcher. *)
Inductive re :=
| Eps
| Cls (items : list citem)
| Seq (a b : re)
| Alt (a b : re)
| Star (greedy : bool) (a : re)
| Grp (n : nat) (a : re)          (* the n-th capturing group *)
| Bol                             (* ^ *)
| Eol                             (* $ *)
| Ahead (a : re).                 (* (?=a) *)

Record flags := { ignoreCase : bool; multiline : bool }.

Record regexp := { body : re; fl : flags }.

(** Matcher state: the code unit before the current position (if any), the
    input from the current position on, and the captures so far, most recent
    first. *)
Record mstate := {
  m_prev : option char;
  m_rest : str;
  m_caps : list (nat * str)
}.

Fixpoint chars_from (lo : char) (n : nat) : list char :=
  match n with
  | O => []
  | S k => lo :: chars_from (lo + 1) k
  end.

Definition item_chars (i : citem) : list char :=
  match i with
  | CRange lo hi => chars_from lo (N.to_nat (hi + 1 - lo))
  | CSpace => white_space_chars
  | CDigit => chars_from 48 10
  end.

Definition canonicalize (f : flags) (c : char) : char :=
  if ignoreCase f then upper c else c.

(** [CharacterSetMatcher]: the class matches [c] when one of its members
    canonicalizes to the canonicalization of [c]. *)
Definition class_matches (f : flags) (items : list citem) (c : char) : bool :=
  existsb (fun d => canonicalize f d =? canonicalize f c)
          (flat_map item_chars items).

(** [RepeatMatcher] with minimum 0 and no maximum.  An iteration that
    consumes nothing is rejected, so every iteration shortens the remaining
    input and [fuel], the length of the remaining input, is never short.
    None of the program's patterns has a capturing group under a quantifier,
    so the reset of captures at each iteration is not represented. *)
Fixpoint star_loop (step : mstate -> list mstate) (greedy : bool)
         (fuel : nat) (st : mstate) : list mstate :=
  match fuel with
  | O => [st]
  | S f =>
      let more :=
        flat_map (fun st' =>
                    if Nat.ltb (length (m_rest st')) (length (m_rest st))
                    then star_loop step greedy f st'
                    else [])
                 (step st) in
      if greedy then more ++ [st] else st :: more
  end.

(** All the ways [r] can match at [st], in the order in which the
    backtracking matcher explores them: the head is the match it returns. *)
Fixpoint rmatch (f : flags) (r : re) (st : mstate) : list mstate :=
  match r with
  | Eps => [st]
  | Cls items =>
      match m_rest st with
      | c :: t =>
          if class_matches f items c
          then [ {| m_prev := Some c; m_rest := t; m_caps := m_caps st |} ]
          else []
      | [] => []
      end
  | Seq a b => flat_map (rmatch f b) (rmatch f a st)
  | Alt a b => rmatch f a st ++ rmatch f b st
  | Star greedy a => star_loop (rmatch f a) greedy (length (m_rest st)) st
  | Grp n a =>
      map (fun st' =>
             {| m_prev := m_prev st';
                m_rest := m_rest st';
                m_caps := (n, firstn (length (m_rest st) - length (m_rest st'))
                                     (m_rest st)) :: m_caps st' |})
          (rmatch f a st)
  | Bol =>
      match m_prev st with
      | None => [st]
      | Some c => if multiline f && is_line_terminator c then [st] else []
      end
  | Eol =>
      match m_rest st with
      | [] => [st]
      | c :: _ => if multiline f && is_line_terminator c then [st] else []
      end
  | Ahead a =>
      match rmatch f a st with
      | [] => []
      | st' :: _ =>
          [ {| m_prev := m_prev st; m_rest := m_rest st; m_caps := m_caps st' |} ]
      end
  end.

(** The search of [RegExpBuiltinExec] for a non-global pattern: the first
    start index at which the pattern matches. *)
Fixpoint search (f : flags) (r : re) (prev : option char) (s : str)
  : option (list (nat * str)) :=
  match rmatch f r {| m_prev := prev; m_rest := s; m_caps := [] |} with
  | st' :: _ => Some (m_caps st')
  | [] =>
      match s with
      | [] => None
      | c :: t => search f r (Some c) t
      end
  end.

(** [s.match(p)] for a non-global [p]: [None] is [null], otherwise the
    captures. *)
Definition exec (p : regexp) (s : str) : option (list (nat * str)) :=
  search (fl p) (body p) None s.

(** [m[n]] on a successful match [m]: [None] is [undefined]. *)
Fixpoint group (n : nat) (caps : list (nat * str)) : option str :=
  match caps with
  | [] => None
  | (k, v) :: t => if Nat.eqb k n then Some v else group n t
  end.

(** *** Pattern constructors *)

Definition chr (c : char) : re := Cls [CRange c c].
Definition one (s : string) : re :=           (* [abc] from the literal "abc" *)
  Cls (map (fun c => CRange c c) (lit s)).
Fixpoint seq_of (l : list re) : re :=
  match l with
  | [] => Eps
  | [r] => r
  | r :: t => Seq r (seq_of t)
  end.
Fixpoint alt_of (l : list re) : re :=
  match l with
  | [] => Eps
  | [r] => r
  | r :: t => Alt r (alt_of t)
  end.
Definition txt (s : string) : re := seq_of (map chr (lit s)).
Definition star (r : re) : re := Star true r.
Definition plus (r : re) : re := Seq r (Star true r).
Definition plus_lazy (r : re) : re := Seq r (Star false r).
Definition opt (r : re) : re := Alt r Eps.
Fixpoint rep (n : nat) (r : re) : re :=       (* r{n} *)
  match n with
  | O => Eps
  | 1%nat => r
  | S k => Seq r (rep k r)
  end.
Fixpoint upto (n : nat) (r : re) : re :=      (* r{0,n} *)
  match n with
  | O => Eps
  | S k => Alt (Seq r (upto k r)) Eps
  end.
Definition space : re := Cls [CSpace].
Definition digit : re := Cls [CDigit].

(** [binds n r]: every way of matching [r] goes through the capturing group
    [n], so that [m[n]] is defined on every match. *)
Fixpoint binds (n : nat) (r : re) : bool :=
  match r with
  | Grp k a => Nat.eqb k n || binds n a
  | Seq a b => binds n a || binds n b
  | Alt a b => binds n a && binds n b
  | Ahead a => binds n a
  | _ => false
  end.

(** The pattern binds its first group: [m[1]] is a string on every match. *)
Definition binds_first (p : regexp) : Prop := binds 1 (body p) = true.

(** Group [n] is set in a matcher state. *)
Definition bound (n : nat) (st : mstate) : Prop := group n (m_caps st) <> None.

Definition flags_none := {| ignoreCase := false; multiline := false |}.
Definition flags_i := {| ignoreCase := true; multiline := false |}.
Definition flags_m := {| ignoreCase := false; multiline := true |}.
Definition flags_im := {| ignoreCase := true; multiline := true |}.

End RegExp.

(* ------------------------------------------------------------------ *)
(** ** Field Parser: [parseInvoiceData] and [parseQRCodeData] *)

Module FieldParser.
Import Js Num RegExp.

(** A code unit from an ASCII character literal. *)
Definition ch (a : ascii) : char := N_of_ascii a.

(** The outcome of code that can raise: [TypeError] is what reading a
    property of [undefined] raises. *)
Inductive outcome (A : Type) :=
| Ok (a : A)
| TypeError.
Arguments Ok {A} a.
Arguments TypeError {A}.

Definition bind {A B} (x : outcome A) (k : A -> outcome B) : outcome B :=
  match x with
  | Ok a => k a
  | TypeError => TypeError
  end.

Notation "x <- e ;; k" := (bind e (fun x => k))
  (at level 61, e at next level, right associativity).

(** Use of a possibly [undefined] capture as the receiver of a method. *)
Definition receiver {A} (o : option A) : outcome A :=
  match o with
  | Some a => Ok a
  | None => TypeError
  end.

(** A possibly [undefined] capture inside a template literal. *)
Definition interpolate (o : option str) : str :=
  match o with
  | Some s => s
  | None => lit "undefined"
  end.

(** The record built by both parsers.  [parseInvoiceData] has no
    [customerNIF] key: it is [None] there. *)
Record invoiceData := {
  totalValue : option number;
  currency : option str;
  invoiceNumber : option str;
  invoiceDate : option str;
  supplierName : option str;
  customerNIF : option str
}.

(** *** The patterns of [parseInvoiceData] *)

Definition space_colon : re := Cls [CSpace; CRange 58 58].          (* [\s:] *)
Definition digit_dot : re := Cls [CDigit; CRange 46 46].            (* [\d.] *)
Definition digit_comma : re := Cls [CDigit; CRange 44 44].          (* [\d,] *)
Definition dot_or_comma : re := Cls [CRange 46 46; CRange 44 44].   (* [.,] *)
(** [[\$€£R\$]] *)
Definition currency_sign : re :=
  Cls [CRange 36 36; CRange EURO EURO; CRange POUND POUND; CRange 82 82; CRange 36 36].
(** [[\d.]+,\d{2}] *)
Definition comma_amount : re := seq_of [plus digit_dot; chr 44; rep 2 digit].
(** [[\d,]+\.?\d{0,2}] *)
Definition us_amount : re := seq_of [plus digit_comma; opt (chr 46); upto 2 digit].

Definition totalPatterns : list regexp :=
  [ (* /(?:total|total\s*incidencias|valor\s*total|total\s*a\s*pagar)[\s:]*(?:eur|€|usd|\$|gbp|£)\s*([\d.]+,\d{2})/i *)
    {| body := seq_of
         [ alt_of [ txt "total";
                    seq_of [txt "total"; star space; txt "incidencias"];
                    seq_of [txt "valor"; star space; txt "total"];
                    seq_of [txt "total"; star space; txt "a"; star space; txt "pagar"] ];
           star space_colon;
           alt_of [txt "eur"; chr EURO; txt "usd"; chr 36; txt "gbp"; chr POUND];
           star space;
           Grp 1 comma_amount ];
       fl := flags_i |};
    (* /(?:eur|€|usd|\$|gbp|£|r\$)\s*([\d.]+,\d{2})/i *)
    {| body := seq_of
         [ alt_of [txt "eur"; chr EURO; txt "usd"; chr 36; txt "gbp"; chr POUND; txt "r$"];
           star space;
           Grp 1 comma_amount ];
       fl := flags_i |};
    (* /(?:total|total\s*a\s*pagar|valor\s*total|montante)[\s:]*(\d+[.,]\d{2})/i *)
    {| body := seq_of
         [ alt_of [ txt "total";
                    seq_of [txt "total"; star space; txt "a"; star space; txt "pagar"];
                    seq_of [txt "valor"; star space; txt "total"];
                    txt "montante" ];
           star space_colon;
           Grp 1 (seq_of [plus digit; dot_or_comma; rep 2 digit]) ];
       fl := flags_i |};
    (* /(?:a\s*pagar|pagar)[\s:]*(?:eur|€)?\s*([\d.]+,\d{2})/i *)
    {| body := seq_of
         [ alt_of [seq_of [txt "a"; star space; txt "pagar"]; txt "pagar"];
           star space_colon;
           opt (alt_of [txt "eur"; chr EURO]);
           star space;
           Grp 1 comma_amount ];
       fl := flags_i |};
    (* /(?:total\s*amount\s*due|amount\s*due|balance\s*due|final\s*total)[\s:]*[\$€£R\$]?\s*([\d,]+\.?\d{0,2})/i *)
    {| body := seq_of
         [ alt_of [ seq_of [txt "total"; star space; txt "amount"; star space; txt "due"];
                    seq_of [txt "amount"; star space; txt "due"];
                    seq_of [txt "balance"; star space; txt "due"];
                    seq_of [txt "final"; star space; txt "total"] ];
           star space_colon;
           opt currency_sign;
           star space;
           Grp 1 us_amount ];
       fl := flags_i |};
    (* /(?:grand\s*total)[\s:]*[\$€£R\$]?\s*([\d,]+\.?\d{0,2})/i *)
    {| body := seq_of
         [ seq_of [txt "grand"; star space; txt "total"];
           star space_colon;
           opt currency_sign;
           star space;
           Grp 1 us_amount ];
       fl := flags_i |};
    (* /(?:total|valor\s*total|total\s*geral)[\s:]*R\$?\s*([\d.]+,\d{2})/i *)
    {| body := seq_of
         [ alt_of [ txt "total";
                    seq_of [txt "valor"; star space; txt "total"];
                    seq_of [txt "total"; star space; txt "geral"] ];
           star space_colon;
           txt "R";
           opt (chr 36);
           star space;
           Grp 1 comma_amount ];
       fl := flags_i |};
    (* /([\d.]+,\d{2})\s*(?:USD|EUR|BRL|GBP|Eur|€)/i *)
    {| body := seq_of
         [ Grp 1 comma_amount;
           star space;
           alt_of [txt "USD"; txt "EUR"; txt "BRL"; txt "GBP"; txt "Eur"; chr EURO] ];
       fl := flags_i |};
    (* /([\d,]+\.\d{2})\s*(?:USD|EUR|BRL|GBP)/i *)
    {| body := seq_of
         [ Grp 1 (seq_of [plus digit_comma; chr 46; rep 2 digit]);
           star space;
           alt_of [txt "USD"; txt "EUR"; txt "BRL"; txt "GBP"] ];
       fl := flags_i |};
    (* /(\d{1,6}[.,]\d{2})(?=\s*(?:€|eur|usd|\$|gbp|£)?\s*$)/i *)
    {| body := seq_of
         [ Grp 1 (seq_of [digit; upto 5 digit; dot_or_comma; rep 2 digit]);
           Ahead (seq_of
             [ star space;
               opt (alt_of [chr EURO; txt "eur"; txt "usd"; chr 36; txt "gbp"; chr POUND]);
               star space;
               Eol ]) ];
       fl := flags_i |} ].

(** [/(\$|USD|€|EUR|Eur|£|GBP|R\$|BRL)/i] *)
Definition currencyPattern : regexp :=
  {| body := Grp 1 (alt_of [ chr 36; txt "USD"; chr EURO; txt "EUR"; txt "Eur";
                             chr POUND; txt "GBP"; txt "R$"; txt "BRL" ]);
     fl := flags_i |}.

Definition currencyMap : list (str * str) :=
  [ ([36], lit "USD"); (lit "USD", lit "USD");
    ([EURO], lit "EUR"); (lit "EUR", lit "EUR"); (lit "Eur", lit "EUR");
    ([POUND], lit "GBP"); (lit "GBP", lit "GBP");
    (lit "R$", lit "BRL"); (lit "BRL", lit "BRL") ].

(** [obj[key]] on an object literal used as a map.  The keys looked up by
    the program are matches of [currencyPattern], none of which names an
    inherited property. *)
Fixpoint lookup (key : str) (m : list (str * str)) : option str :=
  match m with
  | [] => None
  | (k, v) :: t => if str_eqb k key then Some v else lookup key t
  end.

Definition upper_digit_dash : list citem :=                 (* [A-Z0-9\-] *)
  [CRange 65 90; CRange 48 57; CRange 45 45].
Definition upper_digit_slash_dash : list citem :=           (* [A-Z0-9\/\-] *)
  [CRange 65 90; CRange 48 57; CRange 47 47; CRange 45 45].
Definition colon_dash : re := Cls [CRange 58 58; CRange 45 45].   (* [:\-] *)

(** [/(FT[A]?|FR|FA)\s+([A-Z0-9\/\-]+)/i] *)
Definition seriesPattern : regexp :=
  {| body := seq_of
       [ Grp 1 (alt_of [Seq (txt "FT") (opt (one "A")); txt "FR"; txt "FA"]);
         plus space;
         Grp 2 (plus (Cls upper_digit_slash_dash)) ];
     fl := flags_i |}.

Definition invoiceNumberPatterns : list regexp :=
  [ seriesPattern;
    (* /(?:fatura-recibo|fatura)\s*n[:\-]?\s*([A-Z0-9\/\-]+)/i *)
    {| body := seq_of
         [ alt_of [txt "fatura-recibo"; txt "fatura"];
           star space; txt "n"; opt colon_dash; star space;
           Grp 1 (plus (Cls upper_digit_slash_dash)) ];
       fl := flags_i |};
    (* /invoice\s*number\s*[:\-]?\s*([A-Z0-9\-]+)/i *)
    {| body := seq_of
         [ txt "invoice"; star space; txt "number"; star space; opt colon_dash;
           star space; Grp 1 (plus (Cls upper_digit_dash)) ];
       fl := flags_i |};
    (* /invoice\s*#\s*[:\-]?\s*([A-Z0-9\-]+)/i *)
    {| body := seq_of
         [ txt "invoice"; star space; txt "#"; star space; opt colon_dash;
           star space; Grp 1 (plus (Cls upper_digit_dash)) ];
       fl := flags_i |};
    (* /invoice[:\-]\s*([A-Z0-9\-]+)/i *)
    {| body := seq_of
         [ txt "invoice"; colon_dash; star space; Grp 1 (plus (Cls upper_digit_dash)) ];
       fl := flags_i |};
    (* /nota\s*fiscal\s*[:\-]?\s*([A-Z0-9\-]+)/i *)
    {| body := seq_of
         [ txt "nota"; star space; txt "fiscal"; star space; opt colon_dash;
           star space; Grp 1 (plus (Cls upper_digit_dash)) ];
       fl := flags_i |};
    (* /#\s*([A-Z0-9\-]{5,})/ *)
    {| body := seq_of
         [ txt "#"; star space;
           Grp 1 (Seq (rep 5 (Cls upper_digit_dash)) (star (Cls upper_digit_dash))) ];
       fl := flags_none |};
    (* /INV[:\-\s]*([A-Z0-9\-]+)/i *)
    {| body := seq_of
         [ txt "INV"; star (Cls [CRange 58 58; CRange 45 45; CSpace]);
           Grp 1 (plus (Cls upper_digit_dash)) ];
       fl := flags_i |} ].

Definition name_first : re := Cls [CRange 65 90; CRange 192 255].   (* [A-ZÀ-ÿ] *)
(** [[A-Za-zÀ-ÿ\s&,.-]] *)
Definition name_char : re :=
  Cls [ CRange 65 90; CRange 97 122; CRange 192 255; CSpace;
        CRange 38 38; CRange 44 44; CRange 46 46; CRange 45 45 ].

Definition supplierPatterns : list regexp :=
  [ (* /^([A-ZÀ-ÿ][A-Za-zÀ-ÿ\s&,.-]+?)(?:\s+de:|NIF:|Urb\.|Rua|Av\.|Tel:|Email)/im *)
    {| body := seq_of
         [ Bol;
           Grp 1 (Seq name_first (plus_lazy name_char));
           alt_of [ Seq (plus space) (txt "de:"); txt "NIF:"; txt "Urb."; txt "Rua";
                    txt "Av."; txt "Tel:"; txt "Email" ] ];
       fl := flags_im |};
    (* /^([A-ZÀ-ÿ][A-Za-zÀ-ÿ\s&,.-]+?)$/m *)
    {| body := seq_of [Bol; Grp 1 (Seq name_first (plus_lazy name_char)); Eol];
       fl := flags_m |};
    (* /(?:de|from)[\s:]+([A-ZÀ-ÿ][A-Za-zÀ-ÿ\s&,.-]+)/i *)
    {| body := seq_of
         [ alt_of [txt "de"; txt "from"];
           plus space_colon;
           Grp 1 (Seq name_first (plus name_char)) ];
       fl := flags_i |} ].

(** [/(\d+[.,]\d{2})/] *)
Definition decimalPattern : regexp :=
  {| body := Grp 1 (seq_of [plus digit; dot_or_comma; rep 2 digit]);
     fl := flags_none |}.

(** *** [parseInvoiceData] *)

(** The normalisation of a matched amount: comma-decimal when the last comma
    comes after the last period, otherwise commas are thousands separators. *)
Definition normalizeAmount (value : str) : str :=
  if includes (ch ",") value
     && (lastIndexOf (ch ".") value <? lastIndexOf (ch ",") value)%Z
  then replace_first (ch ",") (ch ".") (remove_all (ch ".") value)
  else remove_all (ch ",") value.

(** The loop over [totalPatterns]: the first pattern whose match normalises
    to a number greater than zero decides; a match that does not is skipped. *)
Fixpoint extractTotal (patterns : list regexp) (cleanText : str)
  : outcome (option number) :=
  match patterns with
  | [] => Ok None
  | pattern :: rest =>
      match exec pattern cleanText with
      | None => extractTotal rest cleanText
      | Some m =>
          value <- receiver (group 1 m) ;;
          let numericValue := parseFloat (normalizeAmount value) in
          if negb (isNaN numericValue) && gt_zero numericValue
          then Ok (Some numericValue)
          else extractTotal rest cleanText
      end
  end.

Definition extractCurrency (cleanText : str) : outcome (option str) :=
  match exec currencyPattern cleanText with
  | None => Ok None
  | Some m =>
      match group 1 m with
      | Some key =>
          match lookup key currencyMap with
          | Some code => Ok (Some code)
          | None => Ok (Some (toUpperCase key))
          end
      | None => TypeError       (* currencyMap[undefined] is undefined *)
      end
  end.

(** The loop over [invoiceNumberPatterns]: the first pattern that matches
    decides, and the loop is left. *)
Fixpoint extractInvoiceNumber (patterns : list regexp) (cleanText : str)
  : outcome (option str) :=
  match patterns with
  | [] => Ok None
  | pattern :: rest =>
      match exec pattern cleanText with
      | None => extractInvoiceNumber rest cleanText
      | Some m =>
          match group 2 m with
          | Some (_ :: _) =>
              Ok (Some (trim (interpolate (group 1 m) ++ [ch " "]
                              ++ interpolate (group 2 m))))
          | _ =>
              first <- receiver (group 1 m) ;;
              Ok (Some (trim first))
          end
      end
  end.

(** [text.split('\n').filter(line => line.trim())] *)
Definition nonBlankLines (text : str) : list str :=
  filter (fun line => truthy (trim line)) (split 10 text).

Definition firstLineSupplier (text : str) : option str :=
  match nonBlankLines text with
  | [] => None
  | line :: _ =>
      let firstLine := trim line in
      if truthy firstLine
         && Nat.ltb 3 (length firstLine) && Nat.ltb (length firstLine) 100
      then Some firstLine
      else None
  end.

Fixpoint supplierFromPatterns (patterns : list regexp) (text : str) : option str :=
  match patterns with
  | [] => None
  | pattern :: rest =>
      match exec pattern text with
      | Some m =>
          match group 1 m with
          | Some (c :: s) => Some (trim (c :: s))
          | _ => supplierFromPatterns rest text
          end
      | None => supplierFromPatterns rest text
      end
  end.

Definition is_truthy_str (o : option str) : bool :=
  match o with
  | Some s => truthy s
  | None => false
  end.

Definition extractSupplier (text : str) : option str :=
  let fromLine := firstLineSupplier text in
  if is_truthy_str fromLine then fromLine
  else supplierFromPatterns supplierPatterns text.

Definition parseInvoiceData (text : str) : outcome invoiceData :=
  let cleanText := trim (collapse_spaces false text) in
  total <- extractTotal totalPatterns cleanText ;;
  cur <- extractCurrency cleanText ;;
  number <- extractInvoiceNumber invoiceNumberPatterns cleanText ;;
  Ok {| totalValue := total;
        currency := cur;
        invoiceNumber := number;
        invoiceDate := None;
        supplierName := extractSupplier text;
        customerNIF := None |}.

(** *** [parseQRCodeData] *)

Definition initialQR : invoiceData :=
  {| totalValue := None;
     currency := Some (lit "EUR");
     invoiceNumber := None;
     invoiceDate := None;
     supplierName := None;
     customerNIF := None |}.

Definition set_invoiceNumber (v : str) (d : invoiceData) : invoiceData :=
  {| totalValue := totalValue d; currency := currency d;
     invoiceNumber := Some v; invoiceDate := invoiceDate d;
     supplierName := supplierName d; customerNIF := customerNIF d |}.
Definition set_customerNIF (v : str) (d : invoiceData) : invoiceData :=
  {| totalValue := totalValue d; currency := currency d;
     invoiceNumber := invoiceNumber d; invoiceDate := invoiceDate d;
     supplierName := supplierName d; customerNIF := Some v |}.
Definition set_totalValue (v : number) (d : invoiceData) : invoiceData :=
  {| totalValue := Some v; currency := currency d;
     invoiceNumber := invoiceNumber d; invoiceDate := invoiceDate d;
     supplierName := supplierName d; customerNIF := customerNIF d |}.
Definition set_invoiceDate (v : str) (d : invoiceData) : invoiceData :=
  {| totalValue := totalValue d; currency := currency d;
     invoiceNumber := invoiceNumber d; invoiceDate := Some v;
     supplierName := supplierName d; customerNIF := customerNIF d |}.

(** [const [key, value] = field.split(':')]: the first two pieces. *)
Definition keyValue (field : str) : str * option str :=
  match split (ch ":") field with
  | key :: value :: _ => (key, Some value)
  | key :: [] => (key, None)
  | [] => ([], None)
  end.

(** The [case 'O'] branch. *)
Definition caseO (value : str) (d : invoiceData) : invoiceData :=
  let totalO := parseFloat (replace_first (ch ",") (ch ".") value) in
  if negb (isNaN totalO) && gt_zero totalO then set_totalValue totalO d else d.

(** The [case 'F'] branch. *)
Definition caseF (value : str) (d : invoiceData) : invoiceData :=
  if Nat.eqb (length value) 8
  then set_invoiceDate (substring 0 4 value ++ [ch "-"] ++ substring 4 6 value
                        ++ [ch "-"] ++ substring 6 8 value) d
  else d.

(** The callback of [fields.forEach]. *)
Definition handleField (d : invoiceData) (field : str) : invoiceData :=
  match keyValue field with
  | (_, None) => d
  | ([], _) => d
  | (_, Some []) => d
  | (key, Some value) =>
      let k := trim key in
      if str_eqb k (lit "G") then set_invoiceNumber (trim value) d
      else if str_eqb k (lit "A") then set_customerNIF (trim value) d
      else if str_eqb k (lit "O") then caseO value d
      else if str_eqb k (lit "F") then caseF value d
      else d
  end.

(** The key under which the callback files a segment, [None] when the
    callback returns at its first test. *)
Definition fieldKey (field : str) : option str :=
  match keyValue field with
  | (c :: key, Some (_ :: _)) => Some (trim (c :: key))
  | _ => None
  end.

(** No segment of the payload is filed under key [k]. *)
Definition noSegment (k : string) (qrData : str) : Prop :=
  forall f, In f (split (ch "*") qrData) -> fieldKey f <> Some (lit k).

Definition number_falsy (o : option number) : bool :=
  match o with
  | Some x => negb (truthy_number x)
  | None => true
  end.

(** The "simple parsing" applied when the loop found neither a total nor an
    invoice number. *)
Definition simpleParsing (qrData : str) (d : invoiceData) : outcome invoiceData :=
  let d1 :=
    match exec seriesPattern qrData with
    | Some m =>
        set_invoiceNumber (trim (interpolate (group 1 m) ++ [ch " "]
                                 ++ interpolate (group 2 m))) d
    | None => d
    end in
  match exec decimalPattern qrData with
  | Some m =>
      matched <- receiver (group 1 m) ;;
      let total := parseFloat (replace_first (ch ",") (ch ".") matched) in
      if negb (isNaN total) then Ok (set_totalValue total d1) else Ok d1
  | None => Ok d1
  end.

Definition parseQRCodeData (qrData : str) : outcome invoiceData :=
  let fields := split (ch "*") qrData in
  let d := fold_left handleField fields initialQR in
  if number_falsy (totalValue d) && negb (is_truthy_str (invoiceNumber d))
  then simpleParsing qrData d
  else Ok d.

End FieldParser.

(* ------------------------------------------------------------------ *)
(** ** Decode Cascade: [tryQRScan] and [scanQRCode] *)

Module Cascade.
Import Js.

(** The preprocessing strategies, by the names [scanQRCode] gives them;
    [scale px] is [`scale-${px}`]. *)
Inductive strategy :=
| original
| greyscale_contrast
| normalize_contrast
| invert
| brightness
| posterize
| blur
| normalize_only
| scale (px : N)
| posterize_aggressive
| bright_normalize
| dark_contrast
| posterize_first
| double_contrast
| invert_normalize.

Inductive engine :=
| jsQR                      (* inversionAttempts: 'attemptBoth' *)
| zxingHybrid               (* HybridBinarizer *)
| zxingGlobalHistogram.     (* GlobalHistogramBinarizer *)

(** What a decoder does on one preprocessed image: it raises, or it returns
    its text ([None] when it found nothing). *)
Inductive decoded :=
| Throws
| Returns (data : option str).

(** The image file and the decoders, as [scanQRCode] observes them.  Pixel
    transforms are not represented: the decoders are asked per strategy. *)
Record world := {
  (** width and height of the bitmap read first; [None] when that
      [Jimp.read] raises *)
  dimensions : option (N * N);
  (** [Jimp.read] and [processFn] inside [tryStrategy] complete *)
  prepared : strategy -> bool;
  (** [require('@zxing/library')] and [new RGBLuminanceSource] complete *)
  zxingReady : strategy -> bool;
  decode : strategy -> engine -> decoded
}.

Inductive event :=
| Prepare (s : strategy)                  (* tryStrategy entered *)
| Decode (s : strategy) (e : engine).     (* a decoder called *)

(** The text of a decoder result when it is truthy. *)
Definition found (d : decoded) : option str :=
  match d with
  | Returns (Some (c :: t)) => Some (c :: t)
  | _ => None
  end.

(** [tryQRScan(image)] on the image prepared by strategy [s]: the decoders
    called, and the result ([Throws] when jsQR raises; the ZXing attempts
    have handlers of their own). *)
Definition tryQRScan (w : world) (s : strategy) : list event * decoded :=
  match decode w s jsQR with
  | Throws => ([Decode s jsQR], Throws)
  | Returns r =>
      match found (Returns r) with
      | Some data => ([Decode s jsQR], Returns (Some data))
      | None =>
          if zxingReady w s then
            match found (decode w s zxingHybrid) with
            | Some data =>
                ([Decode s jsQR; Decode s zxingHybrid], Returns (Some data))
            | None =>
                match found (decode w s zxingGlobalHistogram) with
                | Some data =>
                    ([Decode s jsQR; Decode s zxingHybrid;
                      Decode s zxingGlobalHistogram], Returns (Some data))
                | None =>
                    ([Decode s jsQR; Decode s zxingHybrid;
                      Decode s zxingGlobalHistogram], Returns None)
                end
            end
          else ([Decode s jsQR], Returns None)
      end
  end.

(** The closure [tryStrategy(name, processFn)]: every failure inside it is
    swallowed and gives [null]. *)
Definition tryStrategy (w : world) (s : strategy) : list event * option str :=
  if prepared w s then
    let (tr, r) := tryQRScan w s in
    (Prepare s :: tr, found r)
  else ([Prepare s], None).

(** [code = await tryStrategy(..); if (code) return code; k] *)
Definition orElse (w : world) (s : strategy) (k : list event * option str)
  : list event * option str :=
  let (tr, code) := tryStrategy w s in
  match code with
  | Some c => (tr, Some c)
  | None => let (tr', r) := k in (tr ++ tr', r)
  end.

(** [for (const scale of scales) { code = await tryStrategy(`scale-${scale}`, ..); if (code) return code; }] *)
Fixpoint forScales (w : world) (scales : list N) (k : list event * option str)
  : list event * option str :=
  match scales with
  | [] => k
  | px :: rest => orElse w (scale px) (forScales w rest k)
  end.

Definition scanQRCode (w : world) : list event * option str :=
  match dimensions w with
  | None => ([], None)
  | Some (originalWidth, originalHeight) =>
      orElse w original (
      orElse w greyscale_contrast (
      orElse w normalize_contrast (
      orElse w invert (
      orElse w brightness (
      orElse w posterize (
      orElse w blur (
      orElse w normalize_only (
      let strategies10to15 :=
        orElse w posterize_aggressive (
        orElse w bright_normalize (
        orElse w dark_contrast (
        orElse w posterize_first (
        orElse w double_contrast (
        orElse w invert_normalize (
        ([], None))))))) in
      if (2000 <? originalWidth) || (2000 <? originalHeight)
      then forScales w [1600; 1200; 800] strategies10to15
      else strategies10to15))))))))
  end.

(** The strategies entered, in order. *)
Fixpoint strategiesTried (tr : list event) : list strategy :=
  match tr with
  | [] => []
  | Prepare s :: t => s :: strategiesTried t
  | Decode _ _ :: t => strategiesTried t
  end.

Definition strategy_eqb (a b : strategy) : bool :=
  match a, b with
  | original, original
  | greyscale_contrast, greyscale_contrast
  | normalize_contrast, normalize_contrast
  | invert, invert
  | brightness, brightness
  | posterize, posterize
  | blur, blur
  | normalize_only, normalize_only
  | posterize_aggressive, posterize_aggressive
  | bright_normalize, bright_normalize
  | dark_contrast, dark_contrast
  | posterize_first, posterize_first
  | double_contrast, double_contrast
  | invert_normalize, invert_normalize => true
  | scale p, scale q => p =? q
  | _, _ => false
  end.


(** The order of the strategies as a list: the eight first ones, the three
    downscale steps for an image wider or higher than 2000 pixels, the six
    last ones. *)
Definition plan (width height : N) : list strategy :=
  [original; greyscale_contrast; normalize_contrast; invert; brightness;
   posterize; blur; normalize_only]
  ++ (if (2000 <? width) || (2000 <? height)
      then [scale 1600; scale 1200; scale 800] else [])
  ++ [posterize_aggressive; bright_normalize; dark_contrast; posterize_first;
      double_contrast; invert_normalize].

(** "First success wins" over a list of strategies. *)
Fixpoint firstSuccess (w : world) (l : list strategy) : list event * option str :=
  match l with
  | [] => ([], None)
  | s :: t => orElse w s (firstSuccess w t)
  end.

(** No decoder called so far has found a payload. *)
Definition fruitless (w : world) (tr : list event) : Prop :=
  forall s e, In (Decode s e) tr -> found (decode w s e) = None.

(** The trace ends with the decoder call that found [code]; none before did. *)
Definition endsWithSuccess (w : world) (tr : list event) (code : str) : Prop :=
  exists before s e,
    tr = before ++ [Decode s e]
    /\ found (decode w s e) = Some code
    /\ fruitless w before.

(** An image of the given size on which no decoder finds anything. *)
Definition undecodable (width height : N) : world :=
  {| dimensions := Some (width, height);
     prepared := fun _ => true;
     zxingReady := fun _ => true;
     decode := fun _ _ => Returns None |}.

(** An image of the given size that only the second ZXing attempt reads,
    and only after strategy [s]. *)
Definition decodableOnlyBy (width height : N) (s : strategy) (data : str) : world :=
  {| dimensions := Some (width, height);
     prepared := fun _ => true;
     zxingReady := fun _ => true;
     decode := fun s' e =>
       match e with
       | zxingGlobalHistogram =>
           if strategy_eqb s' s then Returns (Some data) else Returns None
       | _ => Returns None
       end |}.

End Cascade.

(* ------------------------------------------------------------------ *)
(** ** Document Adapter: [extractFromPDF] *)

Module Pdf.
Import Js FieldParser.

(** The render scales, in the order of the source: 4.0, 3.5, 3.0, 2.5, 2.0. *)
Definition scales : list Q := [4; 7 # 2; 3; 5 # 2; 2]%Q.

(** The document as [extractFromPDF] observes it: whether the file, the
    document and page 1 load, and, per scale, the image the render produces
    ([None] when viewport, canvas, render or file write raises). *)
Record document := {
  pageLoads : bool;
  render : Q -> option Cascade.world
}.

Record extraction := {
  text : str;
  method : str;
  fields : invoiceData
}.

(** The keys [totalValue], [invoiceNumber], [supplierName], [customerNIF]
    are [null]; the record has no other invoice key. *)
Definition noFields : invoiceData :=
  {| totalValue := None; currency := None; invoiceNumber := None;
     invoiceDate := None; supplierName := None; customerNIF := None |}.

(** The body of [for (const scale of scales)]: [Some] is the [return] inside
    the loop; any exception of the body is caught there and the loop goes on. *)
Definition atScale (d : document) (scale : Q) : option extraction :=
  match render d scale with
  | None => None
  | Some image =>
      match snd (Cascade.scanQRCode image) with
      | Some (c :: t) =>
          match parseQRCodeData (c :: t) with
          | Ok invoiceData =>
              Some {| text := c :: t; method := lit "qr-code-pdf";
                      fields := invoiceData |}
          | TypeError => None
          end
      | _ => None
      end
  end.

(** The loop: the scales attempted and the value returned from inside it. *)
Fixpoint tryScales (d : document) (l : list Q) : list Q * option extraction :=
  match l with
  | [] => ([], None)
  | scale :: rest =>
      match atScale d scale with
      | Some r => ([scale], Some r)
      | None => let (tried, r) := tryScales d rest in (scale :: tried, r)
      end
  end.

Definition extractFromPDF (d : document) : list Q * extraction :=
  if pageLoads d then
    match tryScales d scales with
    | (tried, Some r) => (tried, r)
    | (tried, None) =>
        (tried, {| text := []; method := lit "qr-code-pdf-failed";
                   fields := noFields |})
    end
  else ([], {| text := []; method := lit "qr-code-pdf-error"; fields := noFields |}).

(** No payload comes out of scale [x]: the render raises, or the scan of
    the rendered image returns [null]. *)
Definition failsAt (d : document) (x : Q) : Prop :=
  render d x = None
  \/ exists image, render d x = Some image
                   /\ snd (Cascade.scanQRCode image) = None.

(** A document whose page renders at scale 2.0 only, to an image that only
    the last strategy and the last decoder read. *)
Definition decodableAtLowestScale (data : str) : document :=
  {| pageLoads := true;
     render := fun x =>
       if Qeq_bool x 2
       then Some (Cascade.decodableOnlyBy 1190 1684 Cascade.invert_normalize data)
       else None |}.

(** A document whose page renders at no scale above 3.0 and carries no code. *)
Definition withoutCode : document :=
  {| pageLoads := true;
     render := fun x =>
       if Qle_bool x 3 then Some (Cascade.undecodable 1785 2526) else None |}.

End Pdf.

(* ------------------------------------------------------------------ *)
(** ** Job Queue: [addToQueue], [startProcessors], [processQueue] *)

Module Queue.

Local Open Scope Z_scope.

Record job := { itemId : Z; boardId : Z }.

(** Where a worker (a call of [processQueue]) is suspended. *)
Inductive worker :=
| Extracting (j : job)      (* await processItemExtraction(itemId, boardId) *)
| Delaying (ms : Z).        (* await new Promise(resolve => setTimeout(resolve, ms)) *)

(** The two module variables, the suspended workers, and the jobs whose
    processing has ended ([true]: the SUCCESS branch, [false]: the FAILED
    branch).  The last two are not variables of the program. *)
Record state := {
  processingQueue : list job;
  activeProcessors : Z;
  workers : list worker;
  finished : list (job * bool)
}.

Definition initial : state :=
  {| processingQueue := []; activeProcessors := 0; workers := []; finished := [] |}.

(** What the event loop can run next. *)
Inductive event :=
| Enqueue (j : job)                   (* the webhook calls addToQueue *)
| Settled (i : nat) (resolved : bool) (* processItemExtraction of worker i ends *)
| TimerFired (i : nat)                (* the 500 ms timer of worker i fires *)
| Crashed (i : nat).                  (* worker i resumes and its loop raises *)

Fixpoint replaceNth {A} (i : nat) (x : A) (l : list A) : list A :=
  match l, i with
  | [], _ => []
  | _ :: t, O => x :: t
  | a :: t, S k => a :: replaceNth k x t
  end.

Fixpoint removeNth {A} (i : nat) (l : list A) : list A :=
  match l, i with
  | [], _ => []
  | _ :: t, O => t
  | a :: t, S k => a :: removeNth k t
  end.

Section Pool.

Variable MAX_CONCURRENT_PROCESSORS : Z.

(** [startProcessors()].  Each turn of its loop increments the counter and
    calls [processQueue()], which runs up to its first [await]: the queue is
    not empty, so it shifts the head job and suspends in
    [processItemExtraction].  The loop ends when the counter reaches the
    bound or the queue is empty. *)
Fixpoint startLoop (queue : list job) (active : Z) (ws : list worker)
         (done : list (job * bool)) : state :=
  match queue with
  | [] => {| processingQueue := []; activeProcessors := active;
             workers := ws; finished := done |}
  | j :: rest =>
      if active <? MAX_CONCURRENT_PROCESSORS
      then startLoop rest (active + 1) (ws ++ [Extracting j]) done
      else {| processingQueue := queue; activeProcessors := active;
              workers := ws; finished := done |}
  end.

Definition startProcessors (s : state) : state :=
  startLoop (processingQueue s) (activeProcessors s) (workers s) (finished s).

(** [addToQueue(itemId, boardId)] *)
Definition addToQueue (j : job) (s : state) : state :=
  startProcessors
    {| processingQueue := processingQueue s ++ [j];
       activeProcessors := activeProcessors s;
       workers := workers s;
       finished := finished s |}.

(** [activeProcessors--] *)
Definition decrement (s : state) : state :=
  {| processingQueue := processingQueue s;
     activeProcessors := activeProcessors s - 1;
     workers := workers s;
     finished := finished s |}.

(** The [finally] block of [processQueue]. *)
Definition finallyBlock (s : state) : state :=
  let s' := decrement s in
  if (0 <? Z.of_nat (length (processingQueue s')))
     && (activeProcessors s' <? MAX_CONCURRENT_PROCESSORS)
  then startProcessors s'
  else s'.

(** Worker [i] leaves [processQueue]: its continuation is gone and the
    [finally] block runs. *)
Definition workerExit (i : nat) (s : state) : state :=
  finallyBlock
    {| processingQueue := processingQueue s;
       activeProcessors := activeProcessors s;
       workers := removeNth i (workers s);
       finished := finished s |}.

(** The fixed delay between two jobs of a worker, in milliseconds. *)
Definition INTER_JOB_DELAY : Z := 500.

(** The inner [try]/[catch] around [processItemExtraction]: both branches log
    and fall through to the delay. *)
Definition jobSettled (i : nat) (j : job) (resolved : bool) (s : state) : state :=
  {| processingQueue := processingQueue s;
     activeProcessors := activeProcessors s;
     workers := replaceNth i (Delaying INTER_JOB_DELAY) (workers s);
     finished := finished s ++ [(j, resolved)] |}.

(** The test of [while (processingQueue.length > 0)] after the delay. *)
Definition loopTest (i : nat) (s : state) : state :=
  match processingQueue s with
  | j :: rest =>
      {| processingQueue := rest;
         activeProcessors := activeProcessors s;
         workers := replaceNth i (Extracting j) (workers s);
         finished := finished s |}
  | [] => workerExit i s
  end.

(** One turn of the event loop; [None] when the event cannot happen. *)
Definition step (e : event) (s : state) : option state :=
  match e with
  | Enqueue j => Some (addToQueue j s)
  | Settled i resolved =>
      match nth_error (workers s) i with
      | Some (Extracting j) => Some (jobSettled i j resolved s)
      | _ => None
      end
  | TimerFired i =>
      match nth_error (workers s) i with
      | Some (Delaying _) => Some (loopTest i s)
      | _ => None
      end
  | Crashed i =>
      match nth_error (workers s) i with
      | Some _ => Some (workerExit i s)
      | None => None
      end
  end.

Fixpoint run (es : list event) (s : state) : option state :=
  match es with
  | [] => Some s
  | e :: rest =>
      match step e s with
      | Some s' => run rest s'
      | None => None
      end
  end.

Inductive reachable : state -> Prop :=
| reach_initial : reachable initial
| reach_step e s s' : reachable s -> step e s = Some s' -> reachable s'.

(** The description of the worker exit in the specification: decrement, then
    call the replenishment routine whatever the counter was. *)
Definition exitThenReplenish (s : state) : state := startProcessors (decrement s).

(** The invariant of the stable states: the counter counts the suspended
    workers, it does not exceed the bound, and jobs wait only when the pool
    is full. *)
Definition pool_ok (s : state) : Prop :=
  activeProcessors s = Z.of_nat (length (workers s))
  /\ activeProcessors s <= MAX_CONCURRENT_PROCESSORS
  /\ (processingQueue s <> [] -> activeProcessors s = MAX_CONCURRENT_PROCESSORS).

End Pool.

(** *** The scenario of the specification: a bound of 2 and 5 jobs *)

Definition item (n : Z) : job := {| itemId := n; boardId := 1443407769 |}.

Definition burst : list event :=
  [Enqueue (item 1); Enqueue (item 2); Enqueue (item 3); Enqueue (item 4);
   Enqueue (item 5)].

(** After the burst: two workers, three jobs waiting. *)
Definition afterBurst : state :=
  {| processingQueue := [item 3; item 4; item 5];
     activeProcessors := 2;
     workers := [Extracting (item 1); Extracting (item 2)];
     finished := [] |}.

(** Item 1 fails, its worker goes on with item 3; the worker of item 2
    crashes and is replaced by a worker on item 4. *)
Definition incidents : list event :=
  [Settled 0 false; TimerFired 0; Crashed 1].

Definition afterIncidents : state :=
  {| processingQueue := [item 5];
     activeProcessors := 2;
     workers := [Extracting (item 3); Extracting (item 4)];
     finished := [(item 1, false)] |}.

(** All five jobs end, the pool drains. *)
Definition drain : list event :=
  [Settled 0 true; Settled 1 true; TimerFired 1; TimerFired 0;
   Settled 0 true; TimerFired 0].

Definition drained : state :=
  {| processingQueue := [];
     activeProcessors := 0;
     workers := [];
     finished := [(item 1, false); (item 3, true); (item 4, true);
                  (item 5, true)] |}.

End Queue.

(* ------------------------------------------------------------------ *)
(** ** Vocabulary for the further properties of the Field Parser *)

Module Segment.
Import Js.

(** What follows the value of a segment: nothing, or a second colon and the
    rest, which [field.split(':')] puts in a third piece that is not read. *)
Definition cutAtColon (tail : str) : Prop :=
  match tail with
  | [] => True
  | c :: _ => c = 58
  end.

End Segment.

Module Currency.
Import Js.

(** The alternatives of the currency pattern, as written in the source. *)
Definition currencyWords : list str :=
  [[36]; lit "USD"; [EURO]; lit "EUR"; lit "Eur"; [POUND]; lit "GBP";
   lit "R$"; lit "BRL"].

(** The values the currency of a free-text record can take. *)
Definition currencyCodes : list str :=
  [lit "USD"; lit "EUR"; lit "GBP"; lit "BRL"; lit "R$"].

End Currency.

Module CascadeCost.
Import Cascade.

(** The number of decoder calls in a trace. *)
Fixpoint decoderCalls (tr : list event) : nat :=
  match tr with
  | [] => O
  | Prepare _ :: t => decoderCalls t
  | Decode _ _ :: t => S (decoderCalls t)
  end.

End CascadeCost.

(* ------------------------------------------------------------------ *)
(** ** Vocabulary for the further properties of the Job Queue *)

Module Schedule.
Import Queue.

(** The jobs the webhook has enqueued, in order of arrival. *)
Fixpoint enqueued (es : list event) : list job :=
  match es with
  | [] => []
  | Enqueue j :: rest => j :: enqueued rest
  | _ :: rest => enqueued rest
  end.

(** The jobs whose [processItemExtraction] is running. *)
Fixpoint inFlight (ws : list worker) : list job :=
  match ws with
  | [] => []
  | Extracting j :: rest => j :: inFlight rest
  | Delaying _ :: rest => inFlight rest
  end.

(** Every job the system holds: ended, running, waiting. *)
Definition jobs (s : state) : list job :=
  map fst (finished s) ++ inFlight (workers s) ++ processingQueue s.

(** The events of the workers themselves, without a crash. *)
Definition quiet (e : event) : Prop :=
  match e with
  | Settled _ _ | TimerFired _ => True
  | Enqueue _ | Crashed _ => False
  end.

Definition crashFree (e : event) : Prop :=
  match e with
  | Crashed _ => False
  | _ => True
  end.

(** What is left to do: three units for a waiting job (dequeue, process,
    delay), two for a running job, one for a worker in its delay. *)
Fixpoint load (ws : list worker) : nat :=
  match ws with
  | [] => O
  | Extracting _ :: rest => 2 + load rest
  | Delaying _ :: rest => 1 + load rest
  end.

Definition weight (s : state) : nat :=
  3 * length (processingQueue s) + load (workers s).

End Schedule.

(* ------------------------------------------------------------------ *)
(** ** Monday.com client: [executeQuery], [mapDataToColumns], [getAssetUrl]
    (src/controllers/mondayController.js) *)

Module Monday.
Import Js Num FieldParser.

(** An error object: its [code] property ([None] when it has none) and its
    message. *)
Record apiError := { code : option str; message : str }.

(** What one [axiosInstance.post] gives: it raises, or it returns a response
    with its [data.errors] (the JSON text of it when truthy) and its
    [data.data].  A response without [data] makes the next line raise a
    [TypeError], an error without code: it is a [Raised] too. *)
Inductive posted (D : Type) :=
| Raised (e : apiError)
| Responded (errors : option str) (data : D).
Arguments Raised {D} e.
Arguments Responded {D} errors data.

Inductive effect :=
| Post (attempt : nat)        (* the attempt-th POST of the call *)
| Wait (ms : Z).              (* setTimeout(resolve, ms) *)

(** The [try] block: the data, or the error that reaches the [catch]. *)
Definition attemptResult {D} (p : posted D) : apiError + D :=
  match p with
  | Raised e => inl e
  | Responded (Some errors) _ => inl {| code := None; message := errors |}
  | Responded None data => inr data
  end.

(** [error.code === 'ECONNRESET' || error.code === 'ETIMEDOUT' ||
     error.code === 'ECONNABORTED'] *)
Definition connectionError (e : apiError) : bool :=
  match code e with
  | Some c => str_eqb c (lit "ECONNRESET") || str_eqb c (lit "ETIMEDOUT")
              || str_eqb c (lit "ECONNABORTED")
  | None => false
  end.

(** [executeQuery(query, variables, retries)].  [net] is what the network
    answers to each POST, [attempt] the number of POSTs already made.  The
    number of retries is a natural number: every call in the program leaves
    it at its default, 3. *)
Fixpoint executeQuery {D} (net : nat -> posted D) (attempt : nat) (retries : nat)
  : list effect * (apiError + D) :=
  match attemptResult (net attempt) with
  | inr data => ([Post attempt], inr data)
  | inl error =>
      match retries with
      | S fewer =>
          if connectionError error
          then let (tr, r) := executeQuery net (S attempt) fewer in
               (Post attempt :: Wait 1000 :: tr, r)
          else ([Post attempt], inl error)
      | O => ([Post attempt], inl error)
      end
  end.

Definition DEFAULT_RETRIES : nat := 3.

(** A value of a board column. *)
Inductive cell :=
| Numeric (x : number)
| Text (s : str).

(** [mapDataToColumns(extractedData)]: the object it builds, as the list of
    its keys and values in insertion order.  Of the extracted record only the
    four fields below are read. *)
Definition mapDataToColumns (d : invoiceData) : list (str * cell) :=
  (match totalValue d with
   | Some x => [(lit "numeric_mkwbrpmz", Numeric x)]
   | None => []
   end)
  ++ (match invoiceNumber d with
      | Some (c :: s) => [(lit "text_mkwb4nns", Text (c :: s))]
      | _ => []
      end)
  ++ (match supplierName d with
      | Some (c :: s) => [(lit "text_mkwbcyg3", Text (c :: s))]
      | _ => []
      end)
  ++ (match customerNIF d with
      | Some (c :: s) => [(lit "text_mkwbb9", Text (c :: s))]
      | _ => []
      end).

(** A cell that Monday.com can take: a number that is not [NaN], a text that
    is not empty. *)
Definition wellFormed (c : cell) : Prop :=
  match c with
  | Numeric x => isNaN x = false
  | Text s => s <> []
  end.

(** *** The cache of asset URLs *)

(** An entry of [assetUrlCache]: the [public_url] ([None] when the API gave
    [null]) and the time it was stored. *)
Record cached := { url : option str; timestamp : Z }.

(** The [Map]: one entry per key. *)
Definition cache := list (str * cached).

Fixpoint cacheGet (key : str) (c : cache) : option cached :=
  match c with
  | [] => None
  | (k, v) :: rest => if str_eqb k key then Some v else cacheGet key rest
  end.

Definition cacheSet (key : str) (v : cached) (c : cache) : cache :=
  (key, v) :: filter (fun kv => negb (str_eqb (fst kv) key)) c.

(** [60 * 60 * 1000] *)
Definition CACHE_TTL : Z := 60 * 60 * 1000.

(** [getAssetUrl(assetId)], [cacheKey] being [String(assetId)].  [now] is
    [Date.now()] at the cache test; [answer] is what [executeQuery] gives:
    an error, or [result.assets] ([None] when falsy, else the [public_url]
    of each asset); [stored] is [Date.now()] when the entry is written.
    Returns the cache, whether the API was queried, and the URL or the error
    thrown. *)
Definition getAssetUrl (c : cache) (cacheKey : str) (now : Z)
           (answer : apiError + option (list (option str))) (stored : Z)
  : cache * bool * (apiError + option str) :=
  let miss :=
    match answer with
    | inl e => (c, true, inl e)
    | inr (Some (publicUrl :: _)) =>
        (cacheSet cacheKey {| url := publicUrl; timestamp := stored |} c,
         true, inr publicUrl)
    | inr _ =>
        (c, true,
         inl {| code := None; message := lit "Asset " ++ cacheKey ++ lit " not found" |})
    end in
  match cacheGet cacheKey c with
  | Some entry =>
      if (now - timestamp entry <? CACHE_TTL)%Z
      then (c, false, inr (url entry))
      else miss
  | None => miss
  end.

End Monday.

Module MondayTrace.
Import Monday.

(** [k] connection errors, each followed by the one-second wait, then one
    last POST. *)
Fixpoint retryTrace (attempt k : nat) : list effect :=
  match k with
  | O => [Post attempt]
  | S k' => Post attempt :: Wait 1000 :: retryTrace (S attempt) k'
  end.

(** The attempt failed with one of the three connection errors. *)
Definition retriable {D} (p : posted D) : bool :=
  match attemptResult p with
  | inl e => connectionError e
  | inr _ => false
  end.

Fixpoint posts (tr : list effect) : nat :=
  match tr with
  | [] => O
  | Post _ :: t => S (posts t)
  | Wait _ :: t => posts t
  end.

Fixpoint waited (tr : list effect) : Z :=
  match tr with
  | [] => 0%Z
  | Post _ :: t => waited t
  | Wait ms :: t => (ms + waited t)%Z
  end.

End MondayTrace.

(* ------------------------------------------------------------------ *)
(** ** [extractData], [extractFromImage], [extractFromText]
    (src/controllers/fileController.js) *)

Module Extraction.
Import Js FieldParser.

(** Lower-casing of one code unit.  The table is exact on U+0000..U+00FF;
    above, it is the identity.  [extractData] only compares the lower-cased
    extension with its ASCII literals, and no text holding a code unit above
    U+00FF lower-cases to one of them (the two code units with ASCII in their
    lower case give U+0069 U+0307 and the letter k), so the comparisons are
    not affected. *)
Definition lower (c : char) : char :=
  if (65 <=? c) && (c <=? 90) then c + 32
  else if (192 <=? c) && (c <=? 222) && negb (c =? 215) then c + 32
  else c.

Definition toLowerCase (s : str) : str := map lower s.

(** An uploaded file as [extractData] sees it: the value of
    [path.extname(file.originalname)], and what the file at [file.path] is
    when read as a PDF, as an image, as UTF-8 text ([None] when
    [readFileSync] raises). *)
Record file := {
  extension : str;
  asPdf : Pdf.document;
  asImage : Cascade.world;
  asText : option str
}.

(** What [extractData] can throw. *)
Inductive failure :=
| UnsupportedFileType       (* new Error(`Unsupported file type: ...`) *)
| ReadError                 (* raised by fs.readFileSync *)
| ParserTypeError.          (* a TypeError out of a parser *)

(** The object returned: [method] is absent for a text file, [length] and
    [lines] are present for a text file only. *)
Record extracted := {
  text : str;
  method : option str;
  textLength : option nat;
  lines : option nat;
  fields : invoiceData
}.

Definition ofPdf (r : Pdf.extraction) : extracted :=
  {| text := Pdf.text r; method := Some (Pdf.method r);
     textLength := None; lines := None; fields := Pdf.fields r |}.

Definition extractFromImage (image : Cascade.world) : failure + extracted :=
  match snd (Cascade.scanQRCode image) with
  | Some (c :: t) =>
      match parseQRCodeData (c :: t) with
      | Ok invoiceData =>
          inr {| text := c :: t; method := Some (lit "qr-code");
                 textLength := None; lines := None; fields := invoiceData |}
      | TypeError => inl ParserTypeError
      end
  | _ =>
      inr {| text := []; method := Some (lit "qr-code");
             textLength := None; lines := None; fields := Pdf.noFields |}
  end.

Definition extractFromText (content : option str) : failure + extracted :=
  match content with
  | None => inl ReadError
  | Some t =>
      match parseInvoiceData t with
      | Ok invoiceData =>
          inr {| text := t; method := None;
                 textLength := Some (length t);
                 lines := Some (length (split 10 t));
                 fields := invoiceData |}
      | TypeError => inl ParserTypeError
      end
  end.

Definition imageExtensions : list str :=
  [lit ".png"; lit ".jpg"; lit ".jpeg"; lit ".gif"; lit ".bmp"].

Definition extractData (f : file) : failure + extracted :=
  let fileExtension := toLowerCase (extension f) in
  if str_eqb fileExtension (lit ".pdf")
  then inr (ofPdf (snd (Pdf.extractFromPDF (asPdf f))))
  else if existsb (str_eqb fileExtension) imageExtensions
  then extractFromImage (asImage f)
  else if str_eqb fileExtension (lit ".txt")
  then extractFromText (asText f)
  else inl UnsupportedFileType.

End Extraction.

(* ------------------------------------------------------------------ *)
(** ** [processItemExtraction] (src/index.js) *)

Module Item.
Import Js.

(** The [url] of a file reference: a text, or the number of an asset. *)
Inductive fileUrl :=
| UrlText (s : str)
| AssetId (n : Num.number).

(** An element of [itemData.files]: [url] is [None] when [null] or absent. *)
Record fileRef := { name : str; url : option fileUrl }.

(** [file.url] as a condition. *)
Definition truthyUrl (u : fileUrl) : bool :=
  match u with
  | UrlText s => truthy s
  | AssetId n => Num.truthy_number n
  end.

Inductive action :=
| GetItemFiles
| GetAssetUrl (assetId : Num.number)
| DownloadFile (downloadUrl : option str) (fileName : str)
| ExtractData (path : str) (originalname : str)
| UpdateMondayBoard (data : Extraction.extracted)
| Unlink (path : str).

Section Processing.

(** The errors, which the function rethrows as they are. *)
Variable E : Type.

(** What the function awaits and reads, for one item: the result of
    [getItemFiles] ([None] for [null] and for an object without [files]),
    of [getAssetUrl] (the URL can be [null]), of [downloadFile] (the path
    written), of [extractData], of [updateMondayBoard], and [fs.existsSync]
    in the [finally] block. *)
Record world := {
  itemFiles : E + option (list fileRef);
  assetUrl : Num.number -> E + option str;
  download : option str -> str -> E + str;
  extract : str -> str -> E + Extraction.extracted;
  update : Extraction.extracted -> E + unit;
  existsSync : str -> bool
}.

(** The [finally] block: [filePath] is [None] while it is [null]. *)
Definition cleanUp (w : world) (filePath : option str) : list action :=
  match filePath with
  | Some (c :: p) => if existsSync w (c :: p) then [Unlink (c :: p)] else []
  | _ => []
  end.

(** [processItemExtraction(itemId, boardId)]: what it does, and the error it
    rejects with ([None] when it resolves). *)
Definition processItemExtraction (w : world) : list action * option E :=
  match itemFiles w with
  | inl error => ([GetItemFiles] ++ cleanUp w None, Some error)
  | inr None | inr (Some []) => ([GetItemFiles] ++ cleanUp w None, None)
  | inr (Some (file :: _)) =>
      match url file with
      | None => ([GetItemFiles] ++ cleanUp w None, None)
      | Some u =>
          if negb (truthyUrl u) then ([GetItemFiles] ++ cleanUp w None, None) else
          let '(asked, downloadUrl) :=
            match u with
            | UrlText s => ([], inr (Some s))
            | AssetId n => ([GetAssetUrl n], assetUrl w n)
            end in
          match downloadUrl with
          | inl error => (GetItemFiles :: asked ++ cleanUp w None, Some error)
          | inr target =>
              let started := GetItemFiles :: asked ++ [DownloadFile target (name file)] in
              match download w target (name file) with
              | inl error => (started ++ cleanUp w None, Some error)
              | inr filePath =>
                  let extracting := started ++ [ExtractData filePath (name file)] in
                  match extract w filePath (name file) with
                  | inl error => (extracting ++ cleanUp w (Some filePath), Some error)
                  | inr extractedData =>
                      let updating := extracting ++ [UpdateMondayBoard extractedData] in
                      match update w extractedData with
                      | inl error => (updating ++ cleanUp w (Some filePath), Some error)
                      | inr _ => (updating ++ cleanUp w (Some filePath), None)
                      end
                  end
              end
          end
      end
  end.

(** [processAllBoardItems(boardId)], given the result of [getAllBoardItems]
    ([None] for a falsy value) with, for each item, the world its processing
    runs in: the actions taken per item processed, and the error rethrown. *)
Fixpoint processEach (items : list world) : list (list action) * option E :=
  match items with
  | [] => ([], None)
  | item :: rest =>
      match processItemExtraction item with
      | (actions, Some error) => ([actions], Some error)
      | (actions, None) =>
          let (later, result) := processEach rest in (actions :: later, result)
      end
  end.

Definition processAllBoardItems (items : E + option (list world))
  : list (list action) * option E :=
  match items with
  | inl error => ([], Some error)
  | inr None => ([], None)
  | inr (Some l) => processEach l
  end.

(** The file of the item was downloaded to [filePath]. *)
Definition downloadedTo (w : world) (filePath : str) : Prop :=
  exists file rest u target,
    itemFiles w = inr (Some (file :: rest))
    /\ url file = Some u
    /\ truthyUrl u = true
    /\ match u with
       | UrlText s => target = Some s
       | AssetId n => assetUrl w n = inr target
       end
    /\ download w target (name file) = inr filePath.

(** Nothing to process: no item data, no file, or a first file without a
    URL.  The function returns after [getItemFiles]. *)
Definition nothingToDo (w : world) : Prop :=
  itemFiles w = inr None
  \/ itemFiles w = inr (Some [])
  \/ exists file rest,
       itemFiles w = inr (Some (file :: rest))
       /\ match url file with
          | None => True
          | Some u => truthyUrl u = false
          end.

(** [error] is the rejection of one of the calls the function awaits. *)
Definition raisedBy (w : world) (error : E) : Prop :=
  itemFiles w = inl error
  \/ (exists n, assetUrl w n = inl error)
  \/ (exists target fileName, download w target fileName = inl error)
  \/ (exists path fileName, extract w path fileName = inl error)
  \/ (exists data, update w data = inl error).

End Processing.

Arguments itemFiles {E} _.
Arguments assetUrl {E} _ _.
Arguments download {E} _ _ _.
Arguments extract {E} _ _ _.
Arguments update {E} _ _.
Arguments existsSync {E} _ _.
Arguments cleanUp {E} _ _.
Arguments processItemExtraction {E} _.
Arguments processEach {E} _.
Arguments processAllBoardItems {E} _.
Arguments downloadedTo {E} _ _.
Arguments nothingToDo {E} _.
Arguments raisedBy {E} _ _.

(** An item with one attached image, given by an asset number; the download
    succeeds and the file is on disk afterwards. *)
Definition sampleFile : fileRef :=
  {| name := lit "invoice.png"; url := Some (AssetId (Num.Finite 42)) |}.

Definition sampleItem (extraction : str + Extraction.extracted)
  (updated : str + unit) : world str :=
  {| itemFiles := inr (Some [sampleFile]);
     assetUrl := fun _ => inr (Some (lit "https://files.example/invoice.png"));
     download := fun _ fileName => inr (lit "uploads/1-" ++ fileName);
     extract := fun _ _ => extraction;
     update := fun _ => updated;
     existsSync := fun _ => true |}.

Definition sampleData : Extraction.extracted :=
  {| Extraction.text := []; Extraction.method := Some (lit "qr-code");
     Extraction.textLength := None; Extraction.lines := None;
     Extraction.fields := Pdf.noFields |}.

End Item.

(* ------------------------------------------------------------------ *)
(** ** Outcomes of a render scale *)

Module PdfOutcome.
Import Js.

(** Scale [x] gives no payload: the render raises, or the scan of the
    rendered image returns [null] or the empty text. *)
Definition blankAt (d : Pdf.document) (x : Q) : Prop :=
  Pdf.render d x = None
  \/ exists image,
       Pdf.render d x = Some image
       /\ (snd (Cascade.scanQRCode image) = None
           \/ snd (Cascade.scanQRCode image) = Some []).

(** Scale [x] renders to an image in which the scan reads [payload]. *)
Definition readsAt (d : Pdf.document) (x : Q) (payload : str) : Prop :=
  exists image,
    Pdf.render d x = Some image
    /\ snd (Cascade.scanQRCode image) = Some payload.

End PdfOutcome.

(* ================================================================== *)
(** * Properties *)

(* ------------------------------------------------------------------ *)
(** ** Captures of the matcher *)

Section Captures.
Import Js RegExp.

Lemma star_loop_preserves (P : mstate -> Prop) (step : mstate -> list mstate)
      (greedy : bool) :
  (forall st st', In st' (step st) -> P st -> P st') ->
  forall fuel st st', In st' (star_loop step greedy fuel st) -> P st -> P st'.
Proof.
  intros Hstep fuel; induction fuel as [|fuel IH]; intros st st' Hin HP; simpl in Hin.
  - destruct Hin as [<-|[]]; exact HP.
  - assert (Hmore : forall x,
               In x (flat_map
                       (fun st1 => if Nat.ltb (length (m_rest st1)) (length (m_rest st))
                                   then star_loop step greedy fuel st1 else [])
                       (step st)) -> P x).
    { intros x Hx. apply in_flat_map in Hx. destruct Hx as [st1 [H1 H2]].
      destruct (Nat.ltb _ _); [|destruct H2].
      apply (IH st1 x H2). apply (Hstep st st1 H1 HP). }
    destruct greedy.
    + apply in_app_or in Hin. destruct Hin as [Hin|[<-|[]]]; auto.
    + destruct Hin as [<-|Hin]; auto.
Qed.

(** The fuel of [star_loop] is never short: any two amounts of fuel that
    cover the remaining input give the same matches. *)
Lemma star_loop_fuel (step : mstate -> list mstate) (greedy : bool) :
  forall f1 f2 st,
    (length (m_rest st) <= f1)%nat -> (length (m_rest st) <= f2)%nat ->
    star_loop step greedy f1 st = star_loop step greedy f2 st.
Proof.
  assert (Hnil : forall st l,
             length (m_rest st) = O ->
             flat_map (fun st' : mstate =>
                         if Nat.ltb (length (m_rest st')) (length (m_rest st))
                         then l st' else @nil mstate)
                      (step st) = []).
  { intros st l H. rewrite H. induction (step st) as [|x xs IH]; [reflexivity|].
    simpl. exact IH. }
  induction f1 as [|f1 IH]; intros [|f2] st H1 H2; simpl; try reflexivity.
  - rewrite Hnil by lia. destruct greedy; reflexivity.
  - rewrite Hnil by lia. destruct greedy; reflexivity.
  - assert (E : forall st',
               (if Nat.ltb (length (m_rest st')) (length (m_rest st))
                then star_loop step greedy f1 st' else [])
               = (if Nat.ltb (length (m_rest st')) (length (m_rest st))
                  then star_loop step greedy f2 st' else [])).
    { intros st'. destruct (Nat.ltb_spec (length (m_rest st')) (length (m_rest st)));
        [apply IH; lia | reflexivity]. }
    rewrite (flat_map_ext _ _ E). reflexivity.
Qed.

(** [Star] satisfies the equation of [RepeatMatcher]: one more iteration
    that consumes input, then the star again; or no iteration. *)
Lemma rmatch_star (f : flags) (greedy : bool) (a : re) (st : mstate) :
  rmatch f (Star greedy a) st =
  let more :=
    flat_map (fun st' =>
                if Nat.ltb (length (m_rest st')) (length (m_rest st))
                then rmatch f (Star greedy a) st' else [])
             (rmatch f a st) in
  if greedy then more ++ [st] else st :: more.
Proof.
  cbn [rmatch]. cbv zeta.
  rewrite (star_loop_fuel _ greedy (length (m_rest st)) (S (length (m_rest st))) st)
    by lia.
  cbn [star_loop].
  assert (E : forall st',
             (if Nat.ltb (length (m_rest st')) (length (m_rest st))
              then star_loop (rmatch f a) greedy (length (m_rest st)) st' else [])
             = (if Nat.ltb (length (m_rest st')) (length (m_rest st))
                then star_loop (rmatch f a) greedy (length (m_rest st')) st' else [])).
  { intros st'. destruct (Nat.ltb_spec (length (m_rest st')) (length (m_rest st)));
      [apply star_loop_fuel; lia | reflexivity]. }
  rewrite (flat_map_ext _ _ E). reflexivity.
Qed.

Lemma rmatch_keeps (f : flags) (n : nat) (r : re) :
  forall st st', In st' (rmatch f r st) -> bound n st -> bound n st'.
Proof.
  unfold bound.
  induction r as [|items|a IHa b IHb|a IHa b IHb|greedy a IHa|k a IHa| | |a IHa];
    intros st st' Hin Hb; simpl in Hin.
  - destruct Hin as [<-|[]]; exact Hb.
  - destruct (m_rest st) as [|c t]; [destruct Hin|].
    destruct (class_matches f items c); [|destruct Hin].
    destruct Hin as [<-|[]]; exact Hb.
  - apply in_flat_map in Hin. destruct Hin as [st1 [H1 H2]]. eauto.
  - apply in_app_or in Hin. destruct Hin; eauto.
  - revert Hin Hb.
    apply (star_loop_preserves (fun s => group n (m_caps s) <> None)). exact IHa.
  - apply in_map_iff in Hin. destruct Hin as [st1 [<- H1]]. simpl.
    destruct (Nat.eqb k n); [discriminate|]. eauto.
  - destruct (m_prev st) as [c|].
    + destruct (multiline f && is_line_terminator c); [|destruct Hin].
      destruct Hin as [<-|[]]; exact Hb.
    + destruct Hin as [<-|[]]; exact Hb.
  - destruct (m_rest st) as [|c t].
    + destruct Hin as [<-|[]]; exact Hb.
    + destruct (multiline f && is_line_terminator c); [|destruct Hin].
      destruct Hin as [<-|[]]; exact Hb.
  - destruct (rmatch f a st) as [|st1 l] eqn:E; [destruct Hin|].
    destruct Hin as [<-|[]]; simpl.
    apply (IHa st st1); [rewrite E; left; reflexivity | exact Hb].
Qed.

Lemma rmatch_binds (f : flags) (n : nat) (r : re) :
  binds n r = true ->
  forall st st', In st' (rmatch f r st) -> bound n st'.
Proof.
  unfold bound.
  induction r as [|items|a IHa b IHb|a IHa b IHb|greedy a IHa|k a IHa| | |a IHa];
    simpl; intros Hb st st' Hin; try discriminate.
  - apply in_flat_map in Hin. destruct Hin as [st1 [H1 H2]].
    apply orb_true_iff in Hb. destruct Hb as [Hb|Hb].
    + apply (rmatch_keeps f n b st1 st' H2). apply (IHa Hb st st1 H1).
    + apply (IHb Hb st1 st' H2).
  - apply andb_true_iff in Hb. destruct Hb as [Ha Hb'].
    apply in_app_or in Hin. destruct Hin; eauto.
  - apply in_map_iff in Hin. destruct Hin as [st1 [<- H1]]. simpl.
    destruct (Nat.eqb k n) eqn:E; [discriminate|].
    simpl in Hb. apply (IHa Hb st st1 H1).
  - destruct (rmatch f a st) as [|st1 l] eqn:E; [destruct Hin|].
    destruct Hin as [<-|[]]; simpl.
    apply (IHa Hb st st1). rewrite E; left; reflexivity.
Qed.

Lemma search_binds (f : flags) (n : nat) (r : re) :
  binds n r = true ->
  forall s prev caps, search f r prev s = Some caps -> group n caps <> None.
Proof.
  intros Hb s; induction s as [|c t IH]; intros prev caps; simpl.
  - destruct (rmatch f r _) as [|st' l] eqn:E; [discriminate|].
    intros [= <-]. eapply (rmatch_binds f n r Hb); rewrite E; left; reflexivity.
  - destruct (rmatch f r _) as [|st' l] eqn:E.
    + apply IH.
    + intros [= <-]. eapply (rmatch_binds f n r Hb); rewrite E; left; reflexivity.
Qed.

(** On a match of a pattern that binds group [n], [m[n]] is a string. *)
Lemma exec_binds (p : regexp) (n : nat) (s : str) (caps : list (nat * str)) :
  binds n (body p) = true -> exec p s = Some caps ->
  exists v, group n caps = Some v.
Proof.
  intros Hb He. pose proof (search_binds _ _ _ Hb _ _ _ He) as H.
  destruct (group n caps) as [v|]; [exists v; reflexivity | contradiction].
Qed.

End Captures.

(* ------------------------------------------------------------------ *)
(** ** Strings and numbers *)

Section StringFacts.
Import Js Num.

Lemma str_eqb_eq (a b : str) : str_eqb a b = true <-> a = b.
Proof.
  unfold str_eqb. revert b; induction a as [|x a IH]; intros [|y b]; simpl;
    try (split; [discriminate|discriminate]); [tauto|].
  rewrite andb_true_iff in *. specialize (IH b). simpl in IH.
  rewrite andb_true_iff in IH. rewrite andb_true_iff, N.eqb_eq.
  split.
  - intros [Hl [Hx Hf]]. f_equal; [exact Hx|]. apply IH. split; assumption.
  - intros [= -> ->]. destruct IH as [_ IH]. destruct (IH eq_refl) as [Hl Hf].
    repeat split; assumption.
Qed.

Lemma digit_cases (c : char) :
  is_digit c = true ->
  c = 48 \/ c = 49 \/ c = 50 \/ c = 51 \/ c = 52 \/ c = 53 \/ c = 54 \/ c = 55
  \/ c = 56 \/ c = 57.
Proof.
  unfold is_digit. rewrite andb_true_iff, !N.leb_le. lia.
Qed.

Ltac by_digit c H :=
  destruct (digit_cases c H) as [->|[->|[->|[->|[->|[->|[->|[->|[->| ->]]]]]]]]];
  reflexivity.

Lemma digit_not_space (c : char) : is_digit c = true -> is_space c = false.
Proof. intros H. by_digit c H. Qed.

Lemma digit_not_Infinity (c : char) (r : str) :
  is_digit c = true -> starts_with (lit "Infinity") (c :: r) = false.
Proof. intros H. by_digit c H. Qed.

Lemma digit_neqb (c d : char) :
  is_digit c = true -> is_digit d = false -> (c =? d) = false.
Proof.
  intros Hc Hd. apply N.eqb_neq. intros ->. rewrite Hc in Hd. discriminate.
Qed.

Lemma split_without (d : char) (s : str) :
  forallb (fun c => negb (c =? d)) s = true -> split d s = [s].
Proof.
  induction s as [|c t IH]; simpl; [reflexivity|].
  rewrite andb_true_iff. intros [Hc Ht].
  destruct (c =? d); [discriminate|]. rewrite (IH Ht). reflexivity.
Qed.

Lemma digits_without (d : char) (s : str) :
  is_digit d = false -> forallb is_digit s = true ->
  forallb (fun c => negb (c =? d)) s = true.
Proof.
  intros Hd. induction s as [|c t IH]; simpl; [reflexivity|].
  rewrite andb_true_iff. intros [Hc Ht].
  rewrite (digit_neqb c d Hc Hd), (IH Ht). reflexivity.
Qed.

Lemma replace_first_digits (a b : char) (ip rest : str) :
  is_digit a = false -> forallb is_digit ip = true ->
  replace_first a b (ip ++ a :: rest) = ip ++ b :: rest.
Proof.
  intros Ha. induction ip as [|c t IH]; simpl.
  - rewrite N.eqb_refl. reflexivity.
  - rewrite andb_true_iff. intros [Hc Ht].
    rewrite (digit_neqb c a Hc Ha), (IH Ht). reflexivity.
Qed.

Lemma span_digits (ip rest : str) :
  forallb is_digit ip = true ->
  match rest with [] => True | c :: _ => is_digit c = false end ->
  span is_digit (ip ++ rest) = (ip, rest).
Proof.
  intros Hip Hrest. induction ip as [|c t IH]; simpl.
  - destruct rest as [|c r]; [reflexivity|]. simpl. rewrite Hrest. reflexivity.
  - simpl in Hip. apply andb_true_iff in Hip. destruct Hip as [Hc Ht].
    rewrite Hc, (IH Ht). reflexivity.
Qed.

Lemma span_all_digits (ds : str) :
  forallb is_digit ds = true -> span is_digit ds = (ds, []).
Proof.
  intros H. pose proof (span_digits ds [] H I) as E.
  rewrite app_nil_r in E. exact E.
Qed.

(** [parseFloat] on [ip.fp] reads the whole decimal. *)
Lemma parseFloat_decimal (ip fp : str) :
  ip <> [] -> forallb is_digit ip = true -> forallb is_digit fp = true ->
  parseFloat (ip ++ 46 :: fp) = round (decimal ip fp).
Proof.
  intros Hne Hip Hfp. destruct ip as [|c ip]; [contradiction|]. clear Hne.
  pose proof Hip as Hip'. simpl in Hip'. apply andb_true_iff in Hip'.
  destruct Hip' as [Hc Hrest].
  unfold parseFloat, trimStart. cbn [app drop_while].
  rewrite (digit_not_space c Hc).
  rewrite (digit_neqb c 45 Hc eq_refl), (digit_neqb c 43 Hc eq_refl).
  rewrite (digit_not_Infinity c _ Hc).
  change (c :: ip ++ 46 :: fp) with ((c :: ip) ++ 46 :: fp).
  rewrite (span_digits (c :: ip) (46 :: fp) Hip eq_refl).
  cbn [N.eqb Pos.eqb].
  rewrite (span_all_digits fp Hfp).
  cbn [app exponent]. unfold decimal. cbn [app]. reflexivity.
Qed.

Lemma round_not_NaN (q : Q) : isNaN (round q) = false.
Proof.
  unfold round. destruct (Qleb _ _); [reflexivity|].
  destruct (Qleb _ _); reflexivity.
Qed.

Lemma gt_zero_truthy (x : number) : gt_zero x = true -> truthy_number x = true.
Proof.
  destruct x as [|neg|q]; simpl; try discriminate; [reflexivity|].
  unfold Qltb. simpl. rewrite Z.ltb_lt, negb_true_iff, Z.eqb_neq. lia.
Qed.

End StringFacts.

(* ------------------------------------------------------------------ *)
(** ** The Field Parser never raises *)

Section ParserFacts.
Import Js Num RegExp FieldParser.

Lemma totalPatterns_bind : Forall binds_first totalPatterns.
Proof. repeat constructor. Qed.

Lemma invoiceNumberPatterns_bind : Forall binds_first invoiceNumberPatterns.
Proof. repeat constructor. Qed.

Lemma extractTotal_ok (patterns : list regexp) (s : str) :
  Forall binds_first patterns -> exists r, extractTotal patterns s = Ok r.
Proof.
  induction 1 as [|p l Hp Hl IH]; simpl; [eexists; reflexivity|].
  destruct (exec p s) as [m|] eqn:E; [|exact IH].
  destruct (exec_binds p 1 s m Hp E) as [v ->]. simpl.
  destruct (negb _ && _); [eexists; reflexivity | exact IH].
Qed.

Lemma extractTotal_none (patterns : list regexp) (s : str) :
  (forall p, In p patterns -> exec p s = None) -> extractTotal patterns s = Ok None.
Proof.
  induction patterns as [|p l IH]; simpl; intros H; [reflexivity|].
  rewrite (H p (or_introl eq_refl)). apply IH. intros q Hq. apply H. right. exact Hq.
Qed.


Lemma extractCurrency_ok (s : str) : exists r, extractCurrency s = Ok r.
Proof.
  unfold extractCurrency. destruct (exec currencyPattern s) as [m|] eqn:E;
    [|eexists; reflexivity].
  destruct (exec_binds currencyPattern 1 s m eq_refl E) as [v ->].
  destruct (lookup v currencyMap); eexists; reflexivity.
Qed.

Lemma extractInvoiceNumber_ok (patterns : list regexp) (s : str) :
  Forall binds_first patterns -> exists r, extractInvoiceNumber patterns s = Ok r.
Proof.
  induction 1 as [|p l Hp Hl IH]; simpl; [eexists; reflexivity|].
  destruct (exec p s) as [m|] eqn:E; [|exact IH].
  destruct (exec_binds p 1 s m Hp E) as [v Hv].
  destruct (group 2 m) as [[|c t]|]; rewrite ?Hv; simpl; eexists; reflexivity.
Qed.

Lemma extractInvoiceNumber_none (patterns : list regexp) (s : str) :
  (forall p, In p patterns -> exec p s = None) ->
  extractInvoiceNumber patterns s = Ok None.
Proof.
  induction patterns as [|p l IH]; simpl; intros H; [reflexivity|].
  rewrite (H p (or_introl eq_refl)). apply IH. intros q Hq. apply H. right. exact Hq.
Qed.

Lemma supplierFromPatterns_none (patterns : list regexp) (s : str) :
  (forall p, In p patterns -> exec p s = None) ->
  supplierFromPatterns patterns s = None.
Proof.
  induction patterns as [|p l IH]; simpl; intros H; [reflexivity|].
  rewrite (H p (or_introl eq_refl)). apply IH. intros q Hq. apply H. right. exact Hq.
Qed.

(** [parseInvoiceData] returns a record on every text, and a field whose
    patterns do not match is [null]. *)
Lemma parseInvoiceData_total (text : str) :
  exists d, parseInvoiceData text = Ok d
    /\ ((forall p, In p totalPatterns ->
           exec p (trim (collapse_spaces false text)) = None) ->
        totalValue d = None)
    /\ (exec currencyPattern (trim (collapse_spaces false text)) = None ->
        currency d = None)
    /\ ((forall p, In p invoiceNumberPatterns ->
           exec p (trim (collapse_spaces false text)) = None) ->
        invoiceNumber d = None)
    /\ invoiceDate d = None
    /\ (firstLineSupplier text = None ->
        (forall p, In p supplierPatterns -> exec p text = None) ->
        supplierName d = None)
    /\ customerNIF d = None.
Proof.
  unfold parseInvoiceData.
  set (clean := trim (collapse_spaces false text)).
  destruct (extractTotal_ok totalPatterns clean totalPatterns_bind) as [t Ht].
  destruct (extractCurrency_ok clean) as [c Hc].
  destruct (extractInvoiceNumber_ok invoiceNumberPatterns clean
              invoiceNumberPatterns_bind) as [n Hn].
  rewrite Ht, Hc, Hn. cbn [bind]. eexists. split; [reflexivity|].
  cbn [totalValue currency invoiceNumber invoiceDate supplierName customerNIF].
  repeat split.
  - intros H. rewrite (extractTotal_none _ _ H) in Ht. congruence.
  - intros H. unfold extractCurrency in Hc. rewrite H in Hc. congruence.
  - intros H. rewrite (extractInvoiceNumber_none _ _ H) in Hn. congruence.
  - intros Hl Hp. unfold extractSupplier. rewrite Hl. cbn [is_truthy_str].
    apply supplierFromPatterns_none. exact Hp.
Qed.

(** *** The callback of [parseQRCodeData] *)

Ltac callback_cases f :=
  unfold handleField, fieldKey;
  destruct (keyValue f) as [[|c key] [[|v value]|]]; try reflexivity.

Lemma handleField_currency (d : invoiceData) (f : str) :
  currency (handleField d f) = currency d
  /\ supplierName (handleField d f) = supplierName d.
Proof.
  callback_cases f; try (split; reflexivity).
  destruct (str_eqb _ _); [split; reflexivity|].
  destruct (str_eqb _ _); [split; reflexivity|].
  destruct (str_eqb _ _).
  { unfold caseO. destruct (negb _ && _); split; reflexivity. }
  destruct (str_eqb _ _); [|split; reflexivity].
  unfold caseF. destruct (Nat.eqb _ _); split; reflexivity.
Qed.

Ltac other_key H :=
  match goal with
  | |- context [str_eqb ?k ?l] =>
      let E := fresh "E" in
      destruct (str_eqb k l) eqn:E;
      [ try reflexivity;
        try (apply str_eqb_eq in E; exfalso; apply H; rewrite E; reflexivity)
      | ]
  end.

Lemma handleField_totalValue (d : invoiceData) (f : str) :
  fieldKey f <> Some (lit "O") -> totalValue (handleField d f) = totalValue d.
Proof.
  callback_cases f. intros H. repeat other_key H; try reflexivity.
  unfold caseF. destruct (Nat.eqb _ _); reflexivity.
Qed.

Lemma handleField_invoiceDate (d : invoiceData) (f : str) :
  fieldKey f <> Some (lit "F") -> invoiceDate (handleField d f) = invoiceDate d.
Proof.
  callback_cases f. intros H. repeat other_key H; try reflexivity.
  unfold caseO. destruct (negb _ && _); reflexivity.
Qed.

Lemma handleField_invoiceNumber (d : invoiceData) (f : str) :
  fieldKey f <> Some (lit "G") -> invoiceNumber (handleField d f) = invoiceNumber d.
Proof.
  callback_cases f. intros H. repeat other_key H; try reflexivity.
  - unfold caseO. destruct (negb _ && _); reflexivity.
  - unfold caseF. destruct (Nat.eqb _ _); reflexivity.
Qed.

Lemma handleField_customerNIF (d : invoiceData) (f : str) :
  fieldKey f <> Some (lit "A") -> customerNIF (handleField d f) = customerNIF d.
Proof.
  callback_cases f. intros H. repeat other_key H; try reflexivity.
  - unfold caseO. destruct (negb _ && _); reflexivity.
  - unfold caseF. destruct (Nat.eqb _ _); reflexivity.
Qed.

(** The [case 'O'] branch changes the total only to a number greater than
    zero. *)
Lemma caseO_guard (value : str) (d : invoiceData) :
  totalValue (caseO value d) = totalValue d
  \/ exists x, totalValue (caseO value d) = Some x /\ gt_zero x = true
               /\ x = parseFloat (replace_first (ch ",") (ch ".") value).
Proof.
  unfold caseO. destruct (negb _ && _) eqn:E; [right|left; reflexivity].
  eexists. split; [reflexivity|]. apply andb_true_iff in E. tauto.
Qed.

End ParserFacts.

(* ------------------------------------------------------------------ *)
(** ** [parseQRCodeData]: what the loop and the simple parsing leave alone *)

Section QRFacts.
Import Js Num RegExp FieldParser.

Lemma simpleParsing_ok (qrData : str) (d : invoiceData) :
  exists d', simpleParsing qrData d = Ok d'
    /\ currency d' = currency d
    /\ invoiceDate d' = invoiceDate d
    /\ supplierName d' = supplierName d
    /\ customerNIF d' = customerNIF d
    /\ (exec seriesPattern qrData = None -> invoiceNumber d' = invoiceNumber d)
    /\ (exec decimalPattern qrData = None -> totalValue d' = totalValue d).
Proof.
  unfold simpleParsing.
  destruct (exec decimalPattern qrData) as [m|] eqn:E.
  - destruct (exec_binds decimalPattern 1 qrData m eq_refl E) as [v ->].
    cbn [receiver bind].
    destruct (negb _); eexists; (split; [reflexivity|]);
      destruct (exec seriesPattern qrData); cbn;
      repeat split; intros; try reflexivity; discriminate.
  - eexists; split; [reflexivity|].
    destruct (exec seriesPattern qrData); cbn;
      repeat split; intros; try reflexivity; discriminate.
Qed.

Lemma fold_handleField_preserved {X : Type} (get : invoiceData -> X)
      (P : str -> Prop) :
  (forall d f, P f -> get (handleField d f) = get d) ->
  forall l d, (forall f, In f l -> P f) ->
              get (fold_left handleField l d) = get d.
Proof.
  intros Hstep l; induction l as [|f l IH]; intros d Hall; simpl; [reflexivity|].
  rewrite IH by (intros g Hg; apply Hall; right; exact Hg).
  apply Hstep. apply Hall. left. reflexivity.
Qed.

(** When the callback sets a field to [x] on a segment and no later segment
    is filed under the same key [k], the loop leaves the field at [x]. *)
Lemma fold_handleField_last {X : Type} (get : invoiceData -> option X)
      (k seg : str) (x : X) :
  (forall d f, fieldKey f <> Some k -> get (handleField d f) = get d) ->
  (forall d, get (handleField d seg) = Some x) ->
  forall pre post d,
    (forall f, In f post -> fieldKey f <> Some k) ->
    get (fold_left handleField (pre ++ seg :: post) d) = Some x.
Proof.
  intros Hother Hseg pre post d Hpost. rewrite fold_left_app. cbn [fold_left].
  rewrite (fold_handleField_preserved get (fun g => fieldKey g <> Some k));
    [apply Hseg | exact Hother | exact Hpost].
Qed.

(** [parseQRCodeData] returns a record on every payload; the currency is
    always EUR, and a field with no segment (and no fallback match) is
    [null]. *)
Lemma parseQRCodeData_total (qrData : str) :
  exists d, parseQRCodeData qrData = Ok d
    /\ currency d = Some (lit "EUR")
    /\ supplierName d = None
    /\ (noSegment "O" qrData -> exec decimalPattern qrData = None ->
        totalValue d = None)
    /\ (noSegment "G" qrData -> exec seriesPattern qrData = None ->
        invoiceNumber d = None)
    /\ (noSegment "F" qrData -> invoiceDate d = None)
    /\ (noSegment "A" qrData -> customerNIF d = None).
Proof.
  unfold parseQRCodeData, noSegment.
  set (fields := split (ch "*") qrData).
  set (d0 := fold_left handleField fields initialQR).
  assert (Hc : currency d0 = Some (lit "EUR")).
  { unfold d0. rewrite (fold_handleField_preserved currency (fun _ => True));
      [reflexivity | intros; apply handleField_currency | trivial]. }
  assert (Hs : supplierName d0 = None).
  { unfold d0. rewrite (fold_handleField_preserved supplierName (fun _ => True));
      [reflexivity | intros; apply handleField_currency | trivial]. }
  assert (Ht : (forall f, In f fields -> fieldKey f <> Some (lit "O")) ->
               totalValue d0 = None).
  { intros H. unfold d0.
    rewrite (fold_handleField_preserved totalValue _ handleField_totalValue _ _ H).
    reflexivity. }
  assert (Hn : (forall f, In f fields -> fieldKey f <> Some (lit "G")) ->
               invoiceNumber d0 = None).
  { intros H. unfold d0.
    rewrite (fold_handleField_preserved invoiceNumber _ handleField_invoiceNumber _ _ H).
    reflexivity. }
  assert (Hd : (forall f, In f fields -> fieldKey f <> Some (lit "F")) ->
               invoiceDate d0 = None).
  { intros H. unfold d0.
    rewrite (fold_handleField_preserved invoiceDate _ handleField_invoiceDate _ _ H).
    reflexivity. }
  assert (Ha : (forall f, In f fields -> fieldKey f <> Some (lit "A")) ->
               customerNIF d0 = None).
  { intros H. unfold d0.
    rewrite (fold_handleField_preserved customerNIF _ handleField_customerNIF _ _ H).
    reflexivity. }
  clearbody d0.
  destruct (number_falsy (totalValue d0) && negb (is_truthy_str (invoiceNumber d0))).
  - destruct (simpleParsing_ok qrData d0) as [d' [E [H1 [H2 [H3 [H4 [H5 H6]]]]]]].
    exists d'. split; [exact E|].
    repeat split; try congruence.
    + intros A B. rewrite (H6 B). auto.
    + intros A B. rewrite (H5 B). auto.
    + intros A. rewrite H2. auto.
    + intros A. rewrite H4. auto.
  - exists d0. split; [reflexivity|]. repeat split; auto.
Qed.

End QRFacts.

(* ------------------------------------------------------------------ *)
(** ** Segments of a structured payload *)

Section Segments.
Import Js Num RegExp FieldParser.

Lemma keyValue_segment (k : char) (value : str) :
  k <> 58 -> forallb (fun c => negb (c =? 58)) value = true ->
  keyValue (k :: 58 :: value) = ([k], Some value).
Proof.
  intros Hk Hv. unfold keyValue. change (ch ":") with 58. cbn [split].
  rewrite (proj2 (N.eqb_neq k 58) Hk), N.eqb_refl, (split_without 58 value Hv).
  reflexivity.
Qed.

Lemma handleField_O (d : invoiceData) (value : str) :
  value <> [] -> forallb (fun c => negb (c =? 58)) value = true ->
  handleField d (lit "O:" ++ value) = caseO value d
  /\ fieldKey (lit "O:" ++ value) = Some (lit "O").
Proof.
  intros Hne Hv. unfold handleField, fieldKey.
  change (lit "O:" ++ value) with (79 :: 58 :: value).
  rewrite (keyValue_segment 79 value) by (try exact Hv; discriminate).
  destruct value as [|c v]; [contradiction|]. split; reflexivity.
Qed.

Lemma handleField_F (d : invoiceData) (value : str) :
  value <> [] -> forallb (fun c => negb (c =? 58)) value = true ->
  handleField d (lit "F:" ++ value) = caseF value d
  /\ fieldKey (lit "F:" ++ value) = Some (lit "F").
Proof.
  intros Hne Hv. unfold handleField, fieldKey.
  change (lit "F:" ++ value) with (70 :: 58 :: value).
  rewrite (keyValue_segment 70 value) by (try exact Hv; discriminate).
  destruct value as [|c v]; [contradiction|]. split; reflexivity.
Qed.

(** The [case 'O'] branch on a comma decimal. *)
Lemma caseO_decimal (d : invoiceData) (ip fp : str) :
  ip <> [] -> forallb is_digit ip = true -> forallb is_digit fp = true ->
  gt_zero (round (decimal ip fp)) = true ->
  totalValue (caseO (ip ++ ch "," :: fp) d) = Some (round (decimal ip fp)).
Proof.
  intros Hne Hip Hfp Hpos. unfold caseO.
  change (ch ",") with 44. change (ch ".") with 46.
  rewrite (replace_first_digits 44 46 ip fp eq_refl Hip).
  rewrite (parseFloat_decimal ip fp Hne Hip Hfp), round_not_NaN, Hpos.
  reflexivity.
Qed.

Lemma decimal_without_colon (ip fp : str) :
  forallb is_digit ip = true -> forallb is_digit fp = true ->
  forallb (fun c => negb (c =? 58)) (ip ++ ch "," :: fp) = true.
Proof.
  intros Hip Hfp. rewrite forallb_app. cbn [forallb].
  rewrite (digits_without 58 ip eq_refl Hip), (digits_without 58 fp eq_refl Hfp).
  reflexivity.
Qed.

(** The last comma after the last period: the test of [normalizeAmount],
    where an absent character has index -1. *)
Lemma lastIndexOf_from_spec (c : char) (s : str) :
  forall i found,
    (found < i)%Z ->
    (includes c s = false /\ lastIndexOf_from c s i found = found)
    \/ (includes c s = true /\ (i <= lastIndexOf_from c s i found)%Z).
Proof.
  induction s as [|d t IH]; intros i found Hlt; simpl; [left; split; reflexivity|].
  rewrite (N.eqb_sym c d).
  destruct (d =? c).
  - right. split; [reflexivity|].
    destruct (IH (i + 1)%Z i ltac:(lia)) as [[_ E]|[_ E]]; lia.
  - simpl. destruct (IH (i + 1)%Z found ltac:(lia)) as [[A E]|[A E]].
    + left. split; assumption.
    + right. split; [assumption|lia].
Qed.

Lemma lastIndexOf_includes (c : char) (s : str) :
  (includes c s = false /\ lastIndexOf c s = (-1)%Z)
  \/ (includes c s = true /\ (0 <= lastIndexOf c s)%Z).
Proof. apply lastIndexOf_from_spec. lia. Qed.

Lemma normalizeAmount_spec (value : str) :
  normalizeAmount value =
  if (lastIndexOf (ch ".") value <? lastIndexOf (ch ",") value)%Z
  then replace_first (ch ",") (ch ".") (remove_all (ch ".") value)
  else remove_all (ch ",") value.
Proof.
  unfold normalizeAmount.
  destruct (lastIndexOf_includes (ch ",") value) as [[-> E]|[-> E]]; [|reflexivity].
  destruct (lastIndexOf_includes (ch ".") value) as [[_ F]|[_ F]];
    cbn [andb]; destruct (Z.ltb_spec (lastIndexOf (ch ".") value)
                                     (lastIndexOf (ch ",") value));
    try reflexivity; lia.
Qed.

End Segments.

(* ------------------------------------------------------------------ *)
(** ** Field Parser: the properties of the specification *)

Section FieldParserClaims.
Import Js Num RegExp FieldParser.

(** C4.  On "Total: Eur 1.234,56" [parseInvoiceData] returns the total
    1234.56.  On "Total Amount Due: $1,234.56" it returns 1.23, not 1234.56:
    the second pattern (currency sign, then an amount with a decimal comma)
    matches "$1,23" before the fifth pattern, written for this very input,
    is tried; that fifth pattern alone reads 1234.56.  A matched value is
    read as comma-decimal exactly when its last comma comes after its last
    period. *)
Theorem C4_free_text_amounts :
  (exists d, parseInvoiceData (lit "Total: Eur 1.234,56") = Ok d
             /\ totalValue d = Some (Finite (30864 # 25)))
  /\ (exists d, parseInvoiceData (lit "Total Amount Due: $1,234.56") = Ok d
                /\ totalValue d = Some (Finite (123 # 100)))
  /\ extractTotal (firstn 1 (skipn 4 totalPatterns))
                  (lit "Total Amount Due: $1,234.56")
     = Ok (Some (Finite (30864 # 25)))
  /\ (forall value,
        normalizeAmount value =
        if (lastIndexOf (ch ".") value <? lastIndexOf (ch ",") value)%Z
        then replace_first (ch ",") (ch ".") (remove_all (ch ".") value)
        else remove_all (ch ",") value).
Proof.
  split; [|split; [|split]].
  - eexists. split; vm_compute; reflexivity.
  - eexists. split; vm_compute; reflexivity.
  - vm_compute. reflexivity.
  - exact normalizeAmount_spec.
Qed.

(** C7, the claim as stated fails: on the payload "O:0,00" the total
    returned is 0, which is not greater than zero (the [case 'O'] branch
    rejects it, the simple parsing then stores it). *)
Lemma C7_zero_total_is_returned :
  exists d, parseQRCodeData (lit "O:0,00") = Ok d
            /\ totalValue d = Some (Finite 0)
            /\ gt_zero (Finite 0) = false.
Proof. eexists. repeat split; vm_compute; reflexivity. Qed.

(** C7, as amended.  In a payload whose last segment filed under key O is
    a comma decimal [ip,fp] (in a structured payload: its only O segment)
    that reads as a number greater than zero, [parseQRCodeData] returns that
    number, the comma taken as the decimal point: O:55,20 gives 55.20, that
    is 276/5.  The [case 'O'] branch never stores a total that is not
    greater than zero. *)
Theorem C7_total_amount_segment (qrData : str) (pre post : list str) (ip fp : str) :
  ip <> [] -> forallb is_digit ip = true -> forallb is_digit fp = true ->
  split (ch "*") qrData = pre ++ (lit "O:" ++ ip ++ ch "," :: fp) :: post ->
  (forall f, In f post -> fieldKey f <> Some (lit "O")) ->
  gt_zero (round (decimal ip fp)) = true ->
  (exists d, parseQRCodeData qrData = Ok d
             /\ totalValue d = Some (round (decimal ip fp)))
  /\ (forall value d0,
        totalValue (caseO value d0) = totalValue d0
        \/ exists x, totalValue (caseO value d0) = Some x /\ gt_zero x = true
                     /\ x = parseFloat (replace_first (ch ",") (ch ".") value)).
Proof.
  intros Hne Hip Hfp Hsplit Hlast Hpos. split; [|exact caseO_guard].
  assert (Hcolon := decimal_without_colon ip fp Hip Hfp).
  assert (Hval : ip ++ ch "," :: fp <> []) by (destruct ip; [contradiction|discriminate]).
  unfold parseQRCodeData. rewrite Hsplit.
  assert (Ht : totalValue (fold_left handleField
                             (pre ++ (lit "O:" ++ ip ++ ch "," :: fp) :: post)
                             initialQR)
               = Some (round (decimal ip fp))).
  { apply (fold_handleField_last totalValue (lit "O")).
    - exact handleField_totalValue.
    - intros d. rewrite (proj1 (handleField_O d _ Hval Hcolon)).
      apply caseO_decimal; assumption.
    - exact Hlast. }
  rewrite Ht. cbn [number_falsy]. rewrite (gt_zero_truthy _ Hpos). cbn [negb andb].
  eexists. split; [reflexivity | exact Ht].
Qed.

Lemma C7_total_amount_segment_witness :
  exists d, parseQRCodeData (lit "A:500000000*O:55,20*F:20250929") = Ok d
            /\ totalValue d = Some (Finite (276 # 5)).
Proof.
  destruct (C7_total_amount_segment (lit "A:500000000*O:55,20*F:20250929")
              [lit "A:500000000"] [lit "F:20250929"] (lit "55") (lit "20"))
    as [[d [E T]] _].
  - discriminate.
  - reflexivity.
  - reflexivity.
  - vm_compute. reflexivity.
  - intros f [<-|[]]. vm_compute. discriminate.
  - vm_compute. reflexivity.
  - exists d. split; [exact E|]. rewrite T. vm_compute. reflexivity.
Defined.

(** C8.  In a payload whose last segment filed under key F is eight digits
    (in a structured payload: its only F segment), [parseQRCodeData] returns
    the date YYYY-MM-DD made of the first four, the next two and the last two
    characters of the value: F:20250929 gives 2025-09-29. *)
Theorem C8_date_segment (qrData : str) (pre post : list str)
        (y1 y2 y3 y4 m1 m2 d1 d2 : char) :
  forallb is_digit [y1; y2; y3; y4; m1; m2; d1; d2] = true ->
  split (ch "*") qrData
  = pre ++ (lit "F:" ++ [y1; y2; y3; y4; m1; m2; d1; d2]) :: post ->
  (forall f, In f post -> fieldKey f <> Some (lit "F")) ->
  exists d, parseQRCodeData qrData = Ok d
            /\ invoiceDate d
               = Some ([y1; y2; y3; y4] ++ lit "-" ++ [m1; m2] ++ lit "-" ++ [d1; d2]).
Proof.
  intros Hdig Hsplit Hlast.
  assert (Hcolon := digits_without 58 _ eq_refl Hdig).
  unfold parseQRCodeData. rewrite Hsplit.
  set (d0 := fold_left handleField _ initialQR).
  assert (Hd : invoiceDate d0
               = Some ([y1; y2; y3; y4] ++ lit "-" ++ [m1; m2] ++ lit "-" ++ [d1; d2])).
  { apply (fold_handleField_last invoiceDate (lit "F")).
    - exact handleField_invoiceDate.
    - intros d.
      assert (Hne : [y1; y2; y3; y4; m1; m2; d1; d2] <> []) by discriminate.
      rewrite (proj1 (handleField_F d _ Hne Hcolon)). reflexivity.
    - exact Hlast. }
  clearbody d0.
  destruct (number_falsy (totalValue d0) && negb (is_truthy_str (invoiceNumber d0))).
  - destruct (simpleParsing_ok qrData d0) as [d' [E [_ [H2 _]]]].
    exists d'. split; [exact E | rewrite H2; exact Hd].
  - exists d0. split; [reflexivity | exact Hd].
Qed.

Lemma C8_date_segment_witness :
  exists d, parseQRCodeData (lit "A:500000000*F:20250929*O:55,20") = Ok d
            /\ invoiceDate d = Some (lit "2025-09-29").
Proof.
  apply (C8_date_segment (lit "A:500000000*F:20250929*O:55,20")
           [lit "A:500000000"] [lit "O:55,20"] 50 48 50 53 48 57 50 57).
  - reflexivity.
  - vm_compute. reflexivity.
  - intros f [<-|[]]. vm_compute. discriminate.
Defined.

(** C10.  On every payload [parseQRCodeData] returns a record whose currency
    is EUR. *)
Theorem C10_currency_is_EUR (qrData : str) :
  exists d, parseQRCodeData qrData = Ok d /\ currency d = Some (lit "EUR").
Proof.
  destruct (parseQRCodeData_total qrData) as [d [E [H _]]].
  exists d. split; assumption.
Qed.

End FieldParserClaims.

(* ------------------------------------------------------------------ *)
(** ** Decode Cascade: order of the attempts and first success *)

Section CascadeFacts.
Import Js Cascade.

Variable w : world.

Lemma fruitless_app (a b : list event) :
  fruitless w a -> fruitless w b -> fruitless w (a ++ b).
Proof.
  intros Ha Hb s e Hin. apply in_app_or in Hin. destruct Hin; [apply Ha|apply Hb]; assumption.
Qed.

Lemma fruitless_cons_prepare (s : strategy) (tr : list event) :
  fruitless w tr -> fruitless w (Prepare s :: tr).
Proof. intros H s' e [Hin|Hin]; [discriminate | apply H; exact Hin]. Qed.

Ltac decide_fruitless :=
  let s' := fresh "s" in let e' := fresh "e" in let Hin := fresh "Hin" in
  intros s' e' Hin; simpl in Hin;
  repeat (destruct Hin as [Hin|Hin]; [injection Hin as <- <-; assumption|]);
  destruct Hin.

Lemma found_idem (d : decoded) (data : str) :
  found d = Some data -> found (Returns (Some data)) = Some data.
Proof.
  destruct d as [|[[|c t]|]]; simpl; try discriminate. intros [= <-]. reflexivity.
Qed.

Lemma tryQRScan_spec (s : strategy) :
  match found (snd (tryQRScan w s)) with
  | Some code => endsWithSuccess w (fst (tryQRScan w s)) code
  | None => fruitless w (fst (tryQRScan w s))
  end.
Proof.
  unfold tryQRScan.
  destruct (decode w s jsQR) as [|r] eqn:E1.
  { assert (H1 : found (decode w s jsQR) = None) by (rewrite E1; reflexivity).
    cbn [snd fst found]. decide_fruitless. }
  destruct (found (Returns r)) as [data|] eqn:F1.
  { cbn [snd fst]. rewrite (found_idem _ _ F1).
    exists [], s, jsQR. rewrite E1. repeat split; [exact F1|].
    intros ? ? []. }
  assert (H1 : found (decode w s jsQR) = None) by (rewrite E1; exact F1).
  destruct (zxingReady w s); [|cbn [snd fst found]; decide_fruitless].
  destruct (found (decode w s zxingHybrid)) as [data|] eqn:F2.
  { cbn [snd fst]. rewrite (found_idem _ _ F2).
    exists [Decode s jsQR], s, zxingHybrid.
    repeat split; [exact F2 | decide_fruitless]. }
  destruct (found (decode w s zxingGlobalHistogram)) as [data|] eqn:F3.
  { cbn [snd fst]. rewrite (found_idem _ _ F3).
    exists [Decode s jsQR; Decode s zxingHybrid], s, zxingGlobalHistogram.
    repeat split; [exact F3 | decide_fruitless]. }
  cbn [snd fst found]. decide_fruitless.
Qed.

(** [tryQRScan] records decoder calls only. *)
Lemma tryQRScan_no_prepare (s : strategy) :
  strategiesTried (fst (tryQRScan w s)) = [].
Proof.
  unfold tryQRScan.
  destruct (decode w s jsQR) as [|r]; [reflexivity|].
  destruct (found (Returns r)); [reflexivity|].
  destruct (zxingReady w s); [|reflexivity].
  destruct (found (decode w s zxingHybrid)); [reflexivity|].
  destruct (found (decode w s zxingGlobalHistogram)); reflexivity.
Qed.

Lemma tryStrategy_spec (s : strategy) :
  strategiesTried (fst (tryStrategy w s)) = [s]
  /\ match snd (tryStrategy w s) with
     | Some code => endsWithSuccess w (fst (tryStrategy w s)) code
     | None => fruitless w (fst (tryStrategy w s))
     end.
Proof.
  unfold tryStrategy. destruct (prepared w s).
  - pose proof (tryQRScan_spec s) as H.
    pose proof (tryQRScan_no_prepare s) as N.
    destruct (tryQRScan w s) as [tr r]. cbn [fst snd] in *. split.
    + simpl. rewrite N. reflexivity.
    + destruct (found r) as [code|].
      * destruct H as [before [s0 [e0 [-> [F B]]]]].
        exists (Prepare s :: before), s0, e0. repeat split; [exact F|].
        apply fruitless_cons_prepare. exact B.
      * apply fruitless_cons_prepare. exact H.
  - cbn [fst snd]. split; [reflexivity|]. intros s' e [Hin|[]]. discriminate.
Qed.

Lemma strategiesTried_app (a b : list event) :
  strategiesTried (a ++ b) = strategiesTried a ++ strategiesTried b.
Proof.
  induction a as [|[s|s e] a IH]; simpl; [reflexivity | rewrite IH; reflexivity | exact IH].
Qed.

Lemma orElse_unfold (s : strategy) (k : list event * option str) :
  orElse w s k =
  match snd (tryStrategy w s) with
  | Some c => (fst (tryStrategy w s), Some c)
  | None => (fst (tryStrategy w s) ++ fst k, snd k)
  end.
Proof.
  unfold orElse. destruct (tryStrategy w s) as [tr [c|]]; [reflexivity|].
  destruct k; reflexivity.
Qed.


(** The search stops at the first decoder call that finds a payload. *)
Lemma firstSuccess_result (l : list strategy) :
  match snd (firstSuccess w l) with
  | Some code => endsWithSuccess w (fst (firstSuccess w l)) code
  | None => fruitless w (fst (firstSuccess w l))
  end.
Proof.
  induction l as [|s l IH].
  - simpl. intros ? ? [].
  - cbn [firstSuccess]. rewrite orElse_unfold.
    destruct (tryStrategy_spec s) as [_ T].
    destruct (snd (tryStrategy w s)) as [c|]; cbn [fst snd]; [exact T|].
    destruct (snd (firstSuccess w l)) as [code|].
    + destruct IH as [before [s0 [e0 [E [F B]]]]].
      exists (fst (tryStrategy w s) ++ before), s0, e0.
      rewrite E, app_assoc. repeat split; [exact F|].
      apply fruitless_app; assumption.
    + apply fruitless_app; assumption.
Qed.

(** [scanQRCode] is "first success wins" over [plan]. *)
Lemma scanQRCode_plan (width height : N) :
  dimensions w = Some (width, height) ->
  scanQRCode w = firstSuccess w (plan width height).
Proof.
  intros H. unfold scanQRCode, plan. rewrite H.
  destruct ((2000 <? width) || (2000 <? height)); reflexivity.
Qed.


End CascadeFacts.




(* ------------------------------------------------------------------ *)
(** ** Document Adapter: the render scales *)

Section PdfFacts.
Import Js FieldParser Pdf.

Variable d : document.

Lemma scales_descending : StronglySorted (fun a b => (b < a)%Q) scales.
Proof.
  unfold scales.
  repeat (constructor; [|repeat (constructor; [unfold Qlt; simpl; lia|]); constructor]).
  constructor.
Qed.

Lemma failsAt_atScale (x : Q) : failsAt d x -> atScale d x = None.
Proof.
  unfold failsAt, atScale. intros [->|[image [-> ->]]]; reflexivity.
Qed.

Lemma tryScales_prefix (l : list Q) :
  exists n, fst (tryScales d l) = firstn n l.
Proof.
  induction l as [|x l [n IH]]; [exists O; reflexivity|]. simpl.
  destruct (atScale d x).
  - exists 1%nat. reflexivity.
  - destruct (tryScales d l) as [tried r]. exists (S n). simpl in *. rewrite IH.
    reflexivity.
Qed.

(** A failure at a scale does not end the loop: the next scale is tried. *)
Lemma tryScales_after_failures (l1 : list Q) (x : Q) (l2 : list Q) :
  Forall (fun y => atScale d y = None) l1 ->
  exists rest, fst (tryScales d (l1 ++ x :: l2)) = l1 ++ x :: rest.
Proof.
  induction 1 as [|y l1 Hy Hl [rest IH]]; simpl.
  - destruct (atScale d x); [exists []; reflexivity|].
    destruct (tryScales d l2) as [tried r]. exists tried. reflexivity.
  - rewrite Hy. destruct (tryScales d (l1 ++ x :: l2)) as [tried r].
    simpl in *. exists rest. rewrite IH. reflexivity.
Qed.

Lemma tryScales_exhausted (l : list Q) :
  Forall (fun y => atScale d y = None) l -> tryScales d l = (l, None).
Proof.
  induction 1 as [|y l Hy Hl IH]; simpl; [reflexivity|]. rewrite Hy, IH. reflexivity.
Qed.

Lemma Forall_failsAt (l : list Q) :
  Forall (failsAt d) l -> Forall (fun y => atScale d y = None) l.
Proof. apply Forall_impl. exact failsAt_atScale. Qed.

End PdfFacts.

Section PdfOutcomeFacts.
Import Js FieldParser Pdf PdfOutcome.

Variable d : document.

Lemma atScale_blank (x : Q) : atScale d x = None <-> blankAt d x.
Proof.
  unfold atScale, blankAt. split.
  - destruct (render d x) as [image|]; [|left; reflexivity].
    destruct (snd (Cascade.scanQRCode image)) as [[|c t]|] eqn:E.
    + intros _. right. exists image. split; [reflexivity|right; exact E].
    + destruct (parseQRCodeData_total (c :: t)) as [r [Er _]]. rewrite Er.
      discriminate.
    + intros _. right. exists image. split; [reflexivity|left; exact E].
  - intros [H|[image [H [E|E]]]]; rewrite H; [reflexivity| |]; rewrite E; reflexivity.
Qed.

Lemma atScale_reads (x : Q) (r : extraction) :
  atScale d x = Some r ->
  method r = lit "qr-code-pdf" /\ text r <> [] /\ readsAt d x (text r)
  /\ parseQRCodeData (text r) = Ok (fields r).
Proof.
  unfold atScale, readsAt.
  destruct (render d x) as [image|]; [|discriminate].
  destruct (snd (Cascade.scanQRCode image)) as [[|c t]|] eqn:E; try discriminate.
  destruct (parseQRCodeData (c :: t)) as [f|] eqn:Ef; [|discriminate].
  intros H. injection H as <-. cbn [method text fields].
  split; [reflexivity|]. split; [discriminate|].
  split; [exists image; split; [reflexivity|exact E]|exact Ef].
Qed.

Lemma reads_atScale (x : Q) (c : char) (t : str) :
  readsAt d x (c :: t) ->
  exists f, parseQRCodeData (c :: t) = Ok f
    /\ atScale d x = Some {| text := c :: t; method := lit "qr-code-pdf"; fields := f |}.
Proof.
  intros [image [H E]]. unfold atScale. rewrite H, E.
  destruct (parseQRCodeData_total (c :: t)) as [f [Ef _]]. rewrite Ef.
  exists f. split; reflexivity.
Qed.

Lemma tryScales_first (l1 : list Q) (x : Q) (l2 : list Q) (r : extraction) :
  Forall (fun y => atScale d y = None) l1 -> atScale d x = Some r ->
  tryScales d (l1 ++ x :: l2) = (l1 ++ [x], Some r).
Proof.
  intros H Hx. induction H as [|y l1 Hy Hl IH]; simpl.
  - rewrite Hx. reflexivity.
  - rewrite Hy, IH. reflexivity.
Qed.

Lemma tryScales_outcome (l : list Q) :
  match snd (tryScales d l) with
  | Some r => exists x, In x l /\ atScale d x = Some r
  | None => Forall (fun y => atScale d y = None) l
  end.
Proof.
  induction l as [|x l IH]; simpl; [constructor|].
  destruct (atScale d x) as [r|] eqn:E; simpl.
  - exists x. split; [left; reflexivity|exact E].
  - destruct (tryScales d l) as [tried [r|]]; simpl in *.
    + destruct IH as [y [Hy Ey]]. exists y. split; [right; exact Hy|exact Ey].
    + constructor; assumption.
Qed.

(** The loop as a whole: it stops at the first scale that gives a record,
    after scales that gave none, or goes through all of them. *)
Lemma tryScales_split (l : list Q) :
  match tryScales d l with
  | (tried, Some r) =>
      exists l1 x l2,
        l = l1 ++ x :: l2 /\ Forall (fun y => atScale d y = None) l1
        /\ atScale d x = Some r /\ tried = l1 ++ [x]
  | (tried, None) => Forall (fun y => atScale d y = None) l /\ tried = l
  end.
Proof.
  induction l as [|y l IH]; cbn [tryScales]; [split; [constructor|reflexivity]|].
  destruct (atScale d y) as [r|] eqn:E.
  - exists [], y, l. repeat split; [constructor|exact E].
  - destruct (tryScales d l) as [tried [r|]].
    + destruct IH as [l1 [x [l2 [Hl [Hb [Hx Ht]]]]]].
      exists (y :: l1), x, l2. subst l tried.
      repeat split; [constructor; assumption|exact Hx].
    + destruct IH as [Hb Ht]. subst tried.
      split; [constructor; assumption|reflexivity].
Qed.

Lemma Forall_blankAt (l : list Q) :
  Forall (fun y => atScale d y = None) l <-> Forall (blankAt d) l.
Proof.
  split; apply Forall_impl; intros y Hy; apply atScale_blank; exact Hy.
Qed.

End PdfOutcomeFacts.

(** C5.  When the file and page 1 load, [extractFromPDF] goes through the
    scales 4.0, 3.5, 3.0, 2.5, 2.0, a strictly descending list, in that
    order, and at each scale it renders the page and scans the image: every
    scale it has tried but the last gave nothing (the render raised, or the
    scan returned null or the empty text), and either the last one tried
    rendered to an image in which the scan read the payload returned, with
    method 'qr-code-pdf' and the fields parsed from it, or all five gave
    nothing and the result is the record of method 'qr-code-pdf-failed' with
    every invoice field [null]: a value, not an exception.  A failure at a
    scale (the render raises or the scan finds nothing) does not end the
    loop: when every scale before some scale fails, that scale is still
    tried, and when it reads a payload that payload is the result. *)
Theorem C5_pdf_scales (d : Pdf.document) :
  Pdf.pageLoads d = true ->
  Pdf.scales = [4; 7 # 2; 3; 5 # 2; 2]%Q
  /\ StronglySorted (fun a b => (b < a)%Q) Pdf.scales
  /\ (exists n, fst (Pdf.extractFromPDF d) = firstn n Pdf.scales)
  /\ (forall l1 x l2,
        Pdf.scales = l1 ++ x :: l2 -> Forall (Pdf.failsAt d) l1 ->
        exists rest, fst (Pdf.extractFromPDF d) = l1 ++ x :: rest)
  /\ (forall l1 x l2 c t,
        Pdf.scales = l1 ++ x :: l2 -> Forall (PdfOutcome.blankAt d) l1 ->
        PdfOutcome.readsAt d x (c :: t) ->
        exists f,
          FieldParser.parseQRCodeData (c :: t) = FieldParser.Ok f
          /\ Pdf.extractFromPDF d
             = (l1 ++ [x],
                {| Pdf.text := c :: t; Pdf.method := Js.lit "qr-code-pdf";
                   Pdf.fields := f |}))
  /\ ((exists l1 x l2,
         Pdf.scales = l1 ++ x :: l2
         /\ fst (Pdf.extractFromPDF d) = l1 ++ [x]
         /\ Forall (PdfOutcome.blankAt d) l1
         /\ PdfOutcome.readsAt d x (Pdf.text (snd (Pdf.extractFromPDF d)))
         /\ Pdf.text (snd (Pdf.extractFromPDF d)) <> []
         /\ Pdf.method (snd (Pdf.extractFromPDF d)) = Js.lit "qr-code-pdf"
         /\ FieldParser.parseQRCodeData (Pdf.text (snd (Pdf.extractFromPDF d)))
            = FieldParser.Ok (Pdf.fields (snd (Pdf.extractFromPDF d))))
      \/ (Forall (PdfOutcome.blankAt d) Pdf.scales
          /\ Pdf.extractFromPDF d
             = (Pdf.scales,
                {| Pdf.text := [];
                   Pdf.method := Js.lit "qr-code-pdf-failed";
                   Pdf.fields := Pdf.noFields |})))
  /\ (Forall (Pdf.failsAt d) Pdf.scales ->
      Pdf.extractFromPDF d
      = (Pdf.scales,
         {| Pdf.text := [];
            Pdf.method := Js.lit "qr-code-pdf-failed";
            Pdf.fields :=
              {| FieldParser.totalValue := None;
                 FieldParser.currency := None;
                 FieldParser.invoiceNumber := None;
                 FieldParser.invoiceDate := None;
                 FieldParser.supplierName := None;
                 FieldParser.customerNIF := None |} |})).
Proof.
  intros Hload. unfold Pdf.extractFromPDF. rewrite Hload.
  split; [reflexivity|]. split; [exact scales_descending|].
  split; [|split; [|split; [|split]]].
  - destruct (tryScales_prefix d Pdf.scales) as [n E].
    exists n. destruct (Pdf.tryScales d Pdf.scales) as [tried [r|]]; exact E.
  - intros l1 x l2 E Hfail. rewrite E.
    destruct (tryScales_after_failures d l1 x l2 (Forall_failsAt d l1 Hfail))
      as [rest R].
    exists rest. destruct (Pdf.tryScales d (l1 ++ x :: l2)) as [tried [r|]]; exact R.
  - intros l1 x l2 c t E Hblank Hreads.
    destruct (reads_atScale d x c t Hreads) as [f [Ef Ex]].
    exists f. split; [exact Ef|]. rewrite E.
    rewrite (tryScales_first d l1 x l2 _ (proj2 (Forall_blankAt d l1) Hblank) Ex).
    reflexivity.
  - pose proof (tryScales_split d Pdf.scales) as H.
    destruct (Pdf.tryScales d Pdf.scales) as [tried [r|]]; cbn [fst snd].
    + left. destruct H as [l1 [x [l2 [Hl [Hb [Hx Ht]]]]]].
      destruct (atScale_reads d x r Hx) as [Hm [Hne [Hr Hf]]].
      exists l1, x, l2. split; [exact Hl|]. split; [exact Ht|].
      split; [apply Forall_blankAt; exact Hb|].
      split; [exact Hr|]. split; [exact Hne|]. split; [exact Hm|exact Hf].
    + right. destruct H as [Hb Ht]. subst tried.
      split; [apply Forall_blankAt; exact Hb|reflexivity].
  - intros Hfail. rewrite (tryScales_exhausted d _ (Forall_failsAt d _ Hfail)).
    reflexivity.
Qed.

Lemma C5_pdf_scales_witness :
  exists f,
    FieldParser.parseQRCodeData (Js.lit "F:20250929*O:55,20") = FieldParser.Ok f
    /\ Pdf.extractFromPDF (Pdf.decodableAtLowestScale (Js.lit "F:20250929*O:55,20"))
       = ([4; 7 # 2; 3; 5 # 2]%Q ++ [2%Q],
          {| Pdf.text := Js.lit "F:20250929*O:55,20";
             Pdf.method := Js.lit "qr-code-pdf";
             Pdf.fields := f |}).
Proof.
  destruct (C5_pdf_scales (Pdf.decodableAtLowestScale (Js.lit "F:20250929*O:55,20"))
              eq_refl) as [_ [_ [_ [_ [H _]]]]].
  apply (H [4; 7 # 2; 3; 5 # 2]%Q 2%Q []).
  - reflexivity.
  - repeat constructor.
  - eexists. split; vm_compute; reflexivity.
Defined.

(** A page whose code is readable at the lowest scale only, and there only
    by the last strategy and the last decoder, is still read: the four
    renders that raise are passed over. *)
Example extractFromPDF_lowest_scale :
  let r := Pdf.extractFromPDF (Pdf.decodableAtLowestScale (Js.lit "F:20250929*O:55,20")) in
  fst r = Pdf.scales
  /\ Pdf.method (snd r) = Js.lit "qr-code-pdf"
  /\ FieldParser.totalValue (Pdf.fields (snd r)) = Some (Num.Finite (276 # 5))
  /\ FieldParser.invoiceDate (Pdf.fields (snd r)) = Some (Js.lit "2025-09-29").
Proof. vm_compute. repeat split; reflexivity. Qed.

(* ------------------------------------------------------------------ *)
(** ** Job Queue: the pool invariant *)

Section PoolFacts.
Import Queue.
Local Open Scope Z_scope.

Variable MAX : Z.

(** What [startProcessors] does: it moves the first [k] jobs of the queue
    into [k] new workers, and stops with an empty queue or a full pool. *)
Lemma startLoop_spec (queue : list job) :
  forall active ws done,
  exists k : nat,
    (k <= length queue)%nat
    /\ processingQueue (startLoop MAX queue active ws done) = skipn k queue
    /\ workers (startLoop MAX queue active ws done)
       = ws ++ map Extracting (firstn k queue)
    /\ activeProcessors (startLoop MAX queue active ws done) = active + Z.of_nat k
    /\ finished (startLoop MAX queue active ws done) = done
    /\ (skipn k queue = [] \/ MAX <= active + Z.of_nat k)
    /\ (active <= MAX -> active + Z.of_nat k <= MAX).
Proof.
  induction queue as [|j rest IH]; intros active ws done.
  - exists O. simpl. rewrite app_nil_r, Z.add_0_r. repeat split; auto.
  - simpl. destruct (Z.ltb_spec active MAX) as [Hlt|Hge].
    + destruct (IH (active + 1) (ws ++ [Extracting j]) done)
        as [k [Hk [Hq [Hw [Ha [Hf [Hstop Hbound]]]]]]].
      exists (S k). cbn [skipn firstn map length].
      rewrite Hq, Hw, Ha, Hf, <- app_assoc. cbn [app].
      repeat split; try lia; try reflexivity.
      destruct Hstop as [Hs|Hs]; [left; exact Hs | right; lia].
    + exists O. simpl. rewrite app_nil_r, Z.add_0_r. repeat split; auto; lia.
Qed.

Lemma startProcessors_ok (s : state) :
  activeProcessors s = Z.of_nat (length (workers s)) ->
  activeProcessors s <= MAX ->
  pool_ok MAX (startProcessors MAX s).
Proof.
  intros Hcount Hle. unfold startProcessors, pool_ok.
  destruct (startLoop_spec (processingQueue s) (activeProcessors s) (workers s)
              (finished s)) as [k [Hk [Hq [Hw [Ha [_ [Hstop Hbound]]]]]]].
  rewrite Hq, Hw, Ha. repeat split.
  - rewrite length_app, length_map, length_firstn, Nat.min_l by exact Hk. lia.
  - auto.
  - intros Hne. destruct Hstop as [Hs|Hs]; [contradiction|]. specialize (Hbound Hle). lia.
Qed.

Lemma length_replaceNth {A} (i : nat) (x : A) (l : list A) :
  length (replaceNth i x l) = length l.
Proof.
  revert i; induction l as [|a l IH]; intros [|i]; simpl; auto.
Qed.

Lemma length_removeNth {A} (i : nat) (l : list A) (x : A) :
  nth_error l i = Some x -> length l = S (length (removeNth i l)).
Proof.
  revert i; induction l as [|a l IH]; intros [|i]; simpl; try discriminate; auto.
Qed.

Lemma nth_replaceNth {A} (i : nat) (x y : A) (l : list A) :
  nth_error l i = Some y ->
  nth_error (replaceNth i x l) i = Some x
  /\ forall k, k <> i -> nth_error (replaceNth i x l) k = nth_error l k.
Proof.
  revert i; induction l as [|a l IH]; intros [|i]; simpl; try discriminate.
  - intros _. split; [reflexivity|]. intros [|k] Hk; [contradiction|reflexivity].
  - intros H. destruct (IH i H) as [H1 H2]. split; [exact H1|].
    intros [|k] Hk; [reflexivity|]. simpl. apply H2. congruence.
Qed.

Lemma queue_test (q : list job) :
  (0 <? Z.of_nat (length q)) = match q with [] => false | _ => true end.
Proof. destruct q; simpl; [reflexivity|]. apply Z.ltb_lt. lia. Qed.

(** The guarded call in the [finally] block does what the call without a
    guard does: the guard is the loop condition of [startProcessors]. *)
Lemma finallyBlock_unguarded (s : state) :
  finallyBlock MAX s = exitThenReplenish MAX s.
Proof.
  unfold finallyBlock, exitThenReplenish, startProcessors. rewrite queue_test.
  destruct s as [q a ws done]. cbn [decrement processingQueue activeProcessors
                                     workers finished].
  destruct q as [|j rest]; [reflexivity|]. cbn [andb].
  destruct (a - 1 <? MAX) eqn:E; [reflexivity|].
  cbn [startLoop]. rewrite E. reflexivity.
Qed.

Lemma workerExit_ok (i : nat) (s : state) (x : worker) :
  nth_error (workers s) i = Some x -> pool_ok MAX s -> pool_ok MAX (workerExit MAX i s).
Proof.
  intros Hnth [Hcount [Hle _]]. unfold workerExit.
  rewrite finallyBlock_unguarded. unfold exitThenReplenish.
  pose proof (length_removeNth i (workers s) x Hnth) as Hlen.
  apply startProcessors_ok; cbn [decrement activeProcessors workers]; lia.
Qed.

Lemma step_ok (e : event) (s s' : state) :
  pool_ok MAX s -> step MAX e s = Some s' -> pool_ok MAX s'.
Proof.
  intros Hok. pose proof Hok as [Hcount [Hle Hfull]].
  destruct e as [j|i resolved|i|i]; cbn [step].
  - intros [= <-]. unfold addToQueue. apply startProcessors_ok; assumption.
  - destruct (nth_error (workers s) i) as [[j|ms]|]; try discriminate.
    intros [= <-]. unfold pool_ok, jobSettled.
    cbn [activeProcessors workers processingQueue].
    rewrite length_replaceNth. auto.
  - destruct (nth_error (workers s) i) as [[j|ms]|] eqn:E; try discriminate.
    intros [= <-]. unfold loopTest.
    destruct (processingQueue s) as [|j rest] eqn:Q.
    + apply (workerExit_ok i s (Delaying ms) E Hok).
    + unfold pool_ok. cbn [activeProcessors workers processingQueue].
      rewrite length_replaceNth. repeat split; auto.
      intros _. apply Hfull. discriminate.
  - destruct (nth_error (workers s) i) as [x|] eqn:E; try discriminate.
    intros [= <-]. apply (workerExit_ok i s x E Hok).
Qed.

Lemma reachable_ok (s : state) : 0 <= MAX -> reachable MAX s -> pool_ok MAX s.
Proof.
  intros Hmax. induction 1 as [|e s s' Hr IH Hs].
  - unfold pool_ok. simpl. repeat split; auto. intros H; contradiction.
  - exact (step_ok e s s' IH Hs).
Qed.

Lemma run_reachable (es : list event) :
  forall s s', reachable MAX s -> run MAX es s = Some s' -> reachable MAX s'.
Proof.
  induction es as [|e es IH]; intros s s' Hr; simpl.
  - intros [= <-]. exact Hr.
  - destruct (step MAX e s) as [s1|] eqn:E; [|discriminate].
    apply IH. exact (reach_step MAX e s s1 Hr E).
Qed.

End PoolFacts.

(** The pool of the program, whose bound is 10. *)
Corollary pool_of_ten (s : Queue.state) :
  Queue.reachable 10 s ->
  (Queue.activeProcessors s <= 10)%Z
  /\ (Queue.processingQueue s <> [] -> Queue.activeProcessors s = 10%Z).
Proof.
  intros H. destruct (reachable_ok 10 s ltac:(discriminate) H) as [_ [H1 H2]].
  split; assumption.
Qed.

Section PoolScenario.
Import Queue.

Example run_burst : run 2 burst initial = Some afterBurst.
Proof. vm_compute. reflexivity. Qed.

Example run_incidents : run 2 incidents afterBurst = Some afterIncidents.
Proof. vm_compute. reflexivity. Qed.

(** The job of the crashed worker (item 2) is in no list: it was dequeued
    and its processing was never seen to end. *)
Example run_drain : run 2 drain afterIncidents = Some drained.
Proof. vm_compute. reflexivity. Qed.

Lemma afterBurst_reachable : reachable 2 afterBurst.
Proof.
  apply (run_reachable 2 burst initial); [constructor | vm_compute; reflexivity].
Qed.

Lemma afterIncidents_reachable : reachable 2 afterIncidents.
Proof.
  apply (run_reachable 2 incidents afterBurst);
    [exact afterBurst_reachable | vm_compute; reflexivity].
Qed.

End PoolScenario.

(* ------------------------------------------------------------------ *)
(** ** Job Queue: the properties of the specification *)

Section QueueClaims.
Import Queue.
Local Open Scope Z_scope.

(** C1.  A worker leaves [processQueue] through its [finally] block, whether
    its loop found the queue empty or raised.  The block decrements the
    counter and then does exactly what an unguarded call of
    [startProcessors] does, whatever the counter was: its guard is the loop
    condition of [startProcessors].  So after the exit the counter is one
    less than before plus the number [k] of workers started, these [k]
    workers hold the first [k] waiting jobs, and either no job waits or the
    counter has reached the bound.  Hence, with a bound greater than zero, in
    every reachable state in which a job waits the pool is full, by the
    counter and by the workers that are suspended: there is never a waiting
    job with a counter of zero or with no worker, and some worker can take
    its next step. *)
Theorem C1_worker_exit_replenishes (MAX : Z) (s : state) :
  0 < MAX -> reachable MAX s ->
  (forall t, finallyBlock MAX t = exitThenReplenish MAX t)
  /\ (forall i t t',
        step MAX (Crashed i) t = Some t'
        \/ (processingQueue t = [] /\ step MAX (TimerFired i) t = Some t') ->
        t' = exitThenReplenish MAX
               {| processingQueue := processingQueue t;
                  activeProcessors := activeProcessors t;
                  workers := removeNth i (workers t);
                  finished := finished t |}
        /\ exists k : nat,
             (k <= length (processingQueue t))%nat
             /\ activeProcessors t' = activeProcessors t - 1 + Z.of_nat k
             /\ workers t'
                = removeNth i (workers t)
                  ++ map Extracting (firstn k (processingQueue t))
             /\ processingQueue t' = skipn k (processingQueue t)
             /\ finished t' = finished t
             /\ (processingQueue t' = [] \/ MAX <= activeProcessors t'))
  /\ (processingQueue s <> [] ->
      activeProcessors s = MAX /\ Z.of_nat (length (workers s)) = MAX)
  /\ ~ (processingQueue s <> [] /\ activeProcessors s = 0)
  /\ ~ (processingQueue s <> [] /\ workers s = [])
  /\ (processingQueue s <> [] ->
      exists i s',
        step MAX (Settled i true) s = Some s'
        \/ step MAX (TimerFired i) s = Some s').
Proof.
  intros Hmax Hreach.
  destruct (reachable_ok MAX s ltac:(lia) Hreach) as [Hcount [_ Hfull]].
  split; [exact (finallyBlock_unguarded MAX)|].
  split; [|split; [|split; [|split]]].
  - intros i t t' H.
    assert (E : t' = exitThenReplenish MAX
                       {| processingQueue := processingQueue t;
                          activeProcessors := activeProcessors t;
                          workers := removeNth i (workers t);
                          finished := finished t |}).
    { destruct H as [H|[Hq H]]; cbn [step] in H;
        destruct (nth_error (workers t) i) as [[j|ms]|]; try discriminate.
      - injection H as <-. apply finallyBlock_unguarded.
      - injection H as <-. apply finallyBlock_unguarded.
      - unfold loopTest in H. rewrite Hq in H. injection H as <-.
        apply finallyBlock_unguarded. }
    split; [exact E|]. rewrite E.
    unfold exitThenReplenish, startProcessors.
    cbn [decrement processingQueue activeProcessors workers finished].
    destruct (startLoop_spec MAX (processingQueue t) (activeProcessors t - 1)
                (removeNth i (workers t)) (finished t))
      as [k [Hk [Hq [Hw [Ha [Hf [Hstop _]]]]]]].
    exists k. rewrite Hq, Hw, Ha, Hf.
    split; [exact Hk|]. split; [reflexivity|]. split; [reflexivity|].
    split; [reflexivity|]. split; [reflexivity|exact Hstop].
  - intros Hne. specialize (Hfull Hne). split; [exact Hfull|lia].
  - intros [Hne Hzero]. specialize (Hfull Hne). lia.
  - intros [Hne Hnone]. specialize (Hfull Hne). rewrite Hnone in Hcount.
    cbn [length] in Hcount. lia.
  - intros Hne. specialize (Hfull Hne).
    destruct (workers s) as [|[j|ms] ws] eqn:Hw.
    + cbn [length] in Hcount. lia.
    + exists O. eexists. left. cbn [step]. rewrite Hw. reflexivity.
    + exists O. eexists. right. cbn [step]. rewrite Hw. reflexivity.
Qed.

Lemma C1_worker_exit_replenishes_witness :
  (processingQueue afterIncidents <> [] ->
   activeProcessors afterIncidents = 2
   /\ Z.of_nat (length (workers afterIncidents)) = 2)
  /\ ~ (processingQueue afterIncidents <> [] /\ activeProcessors afterIncidents = 0)
  /\ ~ (processingQueue afterIncidents <> [] /\ workers afterIncidents = [])
  /\ (processingQueue afterIncidents <> [] ->
      exists i s',
        step 2 (Settled i true) afterIncidents = Some s'
        \/ step 2 (TimerFired i) afterIncidents = Some s').
Proof.
  exact (proj2 (proj2 (C1_worker_exit_replenishes 2 afterIncidents eq_refl
                         afterIncidents_reachable))).
Defined.

(** C2.  In every reachable state the counter is the number of suspended
    workers and does not exceed the bound.  [startProcessors] starts one
    worker per job it takes from the head of the queue, so never more
    workers than there are waiting jobs, and none when the queue is empty. *)
Theorem C2_pool_is_bounded (MAX : Z) (s : state) :
  0 <= MAX -> reachable MAX s ->
  activeProcessors s <= MAX
  /\ activeProcessors s = Z.of_nat (length (workers s))
  /\ (forall t, exists k : nat,
        (k <= length (processingQueue t))%nat
        /\ workers (startProcessors MAX t)
           = workers t ++ map Extracting (firstn k (processingQueue t))
        /\ processingQueue (startProcessors MAX t) = skipn k (processingQueue t)
        /\ activeProcessors (startProcessors MAX t)
           = activeProcessors t + Z.of_nat k)
  /\ (forall t, processingQueue t = [] -> startProcessors MAX t = t).
Proof.
  intros Hmax Hreach.
  destruct (reachable_ok MAX s Hmax Hreach) as [Hcount [Hle _]].
  split; [exact Hle|]. split; [exact Hcount|]. split.
  - intros t. unfold startProcessors.
    destruct (startLoop_spec MAX (processingQueue t) (activeProcessors t)
                (workers t) (finished t)) as [k [Hk [Hq [Hw [Ha _]]]]].
    exists k. auto.
  - intros [q a ws done] Hq. simpl in Hq. subst q. reflexivity.
Qed.

Lemma C2_pool_is_bounded_witness :
  activeProcessors afterIncidents <= 2
  /\ activeProcessors afterIncidents = Z.of_nat (length (workers afterIncidents)).
Proof.
  destruct (C2_pool_is_bounded 2 afterIncidents ltac:(discriminate)
              afterIncidents_reachable) as [H1 [H2 _]].
  split; [exact H1 | exact H2].
Defined.

(** C6.  When [processItemExtraction] of a worker fails, the worker stays in
    the pool, waiting for its 500 ms timer; the queue, the counter and the
    other workers are untouched, exactly as after a success; and when the
    timer fires the worker takes the next job of the queue. *)
Theorem C6_job_failure_is_contained (MAX : Z) (s : state) (i : nat) (j : job) :
  nth_error (workers s) i = Some (Extracting j) ->
  exists s',
    step MAX (Settled i false) s = Some s'
    /\ nth_error (workers s') i = Some (Delaying 500)
    /\ length (workers s') = length (workers s)
    /\ (forall k, k <> i -> nth_error (workers s') k = nth_error (workers s) k)
    /\ processingQueue s' = processingQueue s
    /\ activeProcessors s' = activeProcessors s
    /\ finished s' = finished s ++ [(j, false)]
    /\ (exists s_ok,
          step MAX (Settled i true) s = Some s_ok
          /\ processingQueue s_ok = processingQueue s'
          /\ workers s_ok = workers s'
          /\ activeProcessors s_ok = activeProcessors s')
    /\ (forall next rest,
          processingQueue s = next :: rest ->
          exists s'',
            step MAX (TimerFired i) s' = Some s''
            /\ nth_error (workers s'') i = Some (Extracting next)
            /\ length (workers s'') = length (workers s)
            /\ processingQueue s'' = rest
            /\ activeProcessors s'' = activeProcessors s).
Proof.
  intros Hnth. exists (jobSettled i j false s).
  destruct (nth_replaceNth i (Delaying INTER_JOB_DELAY) _ (workers s) Hnth)
    as [Hi Hother].
  cbn [step]. rewrite Hnth. split; [reflexivity|].
  cbn [jobSettled workers processingQueue activeProcessors finished].
  split; [exact Hi|]. split; [apply length_replaceNth|]. split; [exact Hother|].
  split; [reflexivity|]. split; [reflexivity|]. split; [reflexivity|]. split.
  - exists (jobSettled i j true s). repeat split; reflexivity.
  - intros next rest Hq. rewrite Hi. unfold loopTest.
    change (processingQueue (jobSettled i j false s)) with (processingQueue s).
    rewrite Hq. eexists. split; [reflexivity|].
    cbn [jobSettled processingQueue workers activeProcessors finished].
    destruct (nth_replaceNth i (Extracting next) _ _ Hi) as [Hi' _].
    rewrite !length_replaceNth.
    split; [exact Hi'|]. split; [reflexivity|]. split; reflexivity.
Qed.

Lemma C6_job_failure_is_contained_witness :
  exists s',
    step 2 (Settled 0 false) afterBurst = Some s'
    /\ nth_error (workers s') 0 = Some (Delaying 500)
    /\ processingQueue s' = [item 3; item 4; item 5]
    /\ activeProcessors s' = 2.
Proof.
  destruct (C6_job_failure_is_contained 2 afterBurst 0 (item 1) eq_refl)
    as [s' [H1 [H2 [_ [_ [H5 [H6 _]]]]]]].
  exists s'. split; [exact H1|]. split; [exact H2|]. split; [exact H5 | exact H6].
Defined.

End QueueClaims.

(* ================================================================== *)
(** * Further properties of the Field Parser *)

Section TotalsFacts.
Import Js Num RegExp FieldParser.



(** The loop of [parseQRCodeData] leaves a total that is absent or greater
    than zero. *)
Lemma fold_handleField_total (fields : list str) :
  forall d,
    (forall x, totalValue d = Some x -> gt_zero x = true) ->
    forall x, totalValue (fold_left handleField fields d) = Some x ->
              gt_zero x = true.
Proof.
  induction fields as [|f l IH]; intros d Hd; [exact Hd|]. simpl. apply IH.
  intros x. unfold handleField.
  destruct (keyValue f) as [[|c key] [[|v value]|]]; try exact (Hd x).
  repeat match goal with
         | |- context [str_eqb ?k ?l] => destruct (str_eqb k l)
         end; try exact (Hd x).
  - destruct (caseO_guard (v :: value) d) as [->|[y [-> [Hy _]]]]; [exact (Hd x)|].
    intros [= <-]. exact Hy.
  - unfold caseF. destruct (Nat.eqb _ _); exact (Hd x).
Qed.

Lemma qr_total_spec (qrData : str) (d : invoiceData) (x : number) :
  parseQRCodeData qrData = Ok d -> totalValue d = Some x ->
  isNaN x = false
  /\ (gt_zero x = true
      \/ exists m v,
           exec decimalPattern qrData = Some m /\ group 1 m = Some v
           /\ x = parseFloat (replace_first (ch ",") (ch ".") v)).
Proof.
  unfold parseQRCodeData.
  set (d0 := fold_left handleField (split (ch "*") qrData) initialQR).
  assert (P0 : forall y, totalValue d0 = Some y -> gt_zero y = true).
  { apply fold_handleField_total. intros y. discriminate. }
  clearbody d0.
  assert (Pos : forall y, gt_zero y = true -> isNaN y = false).
  { intros [| |]; simpl; intros; try reflexivity; discriminate. }
  destruct (number_falsy (totalValue d0) && negb (is_truthy_str (invoiceNumber d0))).
  - unfold simpleParsing.
    destruct (exec decimalPattern qrData) as [m|] eqn:E.
    + destruct (exec_binds decimalPattern 1 qrData m eq_refl E) as [v Hv].
      rewrite Hv. cbn [receiver bind].
      destruct (isNaN (parseFloat (replace_first (ch ",") (ch ".") v))) eqn:N;
        cbn [negb]; intros [= <-].
      * destruct (exec seriesPattern qrData); cbn [totalValue set_invoiceNumber];
          intros Hx; split; auto.
      * cbn [totalValue set_totalValue]. intros [= <-]. split; [exact N|].
        right. exists m, v. auto.
    + intros [= <-].
      destruct (exec seriesPattern qrData); cbn [totalValue set_invoiceNumber];
        intros Hx; split; auto.
  - intros [= <-] Hx. split; auto.
Qed.

(** X2.  A total that [parseQRCodeData] returns is never [NaN]; it is
    greater than zero unless it was read by the simple parsing, that is from
    the first text of the form digits, period or comma, two digits found
    anywhere in the payload. *)
Theorem parseQRCodeData_total_is_a_number (qrData : str) (d : invoiceData) (x : number) :
  parseQRCodeData qrData = Ok d -> totalValue d = Some x ->
  isNaN x = false
  /\ (gt_zero x = true
      \/ exists m v,
           exec decimalPattern qrData = Some m /\ group 1 m = Some v
           /\ x = parseFloat (replace_first (ch ",") (ch ".") v)).
Proof. exact (qr_total_spec qrData d x). Qed.

Lemma parseQRCodeData_total_is_a_number_witness :
  isNaN (Finite 0) = false
  /\ (gt_zero (Finite 0) = true
      \/ exists m v,
           exec decimalPattern (lit "O:0,00") = Some m /\ group 1 m = Some v
           /\ Finite 0 = parseFloat (replace_first (ch ",") (ch ".") v)).
Proof.
  eapply (parseQRCodeData_total_is_a_number (lit "O:0,00"));
    [vm_compute; reflexivity | reflexivity].
Defined.

End TotalsFacts.

Section AmountFacts.
Import Js Num RegExp FieldParser.

Lemma lastIndexOf_from_app (c : char) (a b : str) :
  forall i found,
    lastIndexOf_from c (a ++ b) i found
    = lastIndexOf_from c b (i + Z.of_nat (length a))%Z (lastIndexOf_from c a i found).
Proof.
  induction a as [|x a IH]; intros i found; simpl.
  - rewrite Z.add_0_r. reflexivity.
  - rewrite IH. f_equal. lia.
Qed.

Lemma lastIndexOf_from_absent (c : char) (s : str) :
  forallb (fun d => negb (d =? c)) s = true ->
  forall i found, lastIndexOf_from c s i found = found.
Proof.
  induction s as [|x s IH]; simpl; [reflexivity|].
  rewrite andb_true_iff. intros [Hx Hs] i found.
  apply negb_true_iff in Hx. rewrite Hx. apply IH. exact Hs.
Qed.

Lemma lastIndexOf_from_bound (c : char) (s : str) :
  forall i found,
    (found < i)%Z -> (lastIndexOf_from c s i found < i + Z.of_nat (length s))%Z.
Proof.
  induction s as [|x s IH]; intros i found H; simpl; [lia|].
  destruct (x =? c).
  - specialize (IH (i + 1)%Z i ltac:(lia)). lia.
  - specialize (IH (i + 1)%Z found ltac:(lia)). lia.
Qed.

(** The index of a separator that occurs once more after [a] and not in [b]. *)
Lemma lastIndexOf_separator (c : char) (a b : str) :
  forallb (fun d => negb (d =? c)) b = true ->
  lastIndexOf c (a ++ c :: b) = Z.of_nat (length a).
Proof.
  intros Hb. unfold lastIndexOf. rewrite lastIndexOf_from_app. simpl.
  rewrite N.eqb_refl. apply lastIndexOf_from_absent. exact Hb.
Qed.

(** The last index of a character that does not occur from position
    [length a] on. *)
Lemma lastIndexOf_before (c : char) (a b : str) :
  forallb (fun d => negb (d =? c)) b = true ->
  (lastIndexOf c (a ++ b) < Z.of_nat (length a))%Z.
Proof.
  intros Hb. unfold lastIndexOf. rewrite lastIndexOf_from_app.
  rewrite (lastIndexOf_from_absent c b Hb).
  apply (lastIndexOf_from_bound c a 0%Z (-1)%Z). lia.
Qed.

Lemma remove_all_app (c : char) (a b : str) :
  remove_all c (a ++ b) = remove_all c a ++ remove_all c b.
Proof. unfold remove_all. apply filter_app. Qed.

Lemma remove_all_absent (c : char) (s : str) :
  forallb (fun d => negb (d =? c)) s = true -> remove_all c s = s.
Proof.
  unfold remove_all. induction s as [|x s IH]; simpl; [reflexivity|].
  rewrite andb_true_iff. intros [Hx Hs]. rewrite Hx, (IH Hs). reflexivity.
Qed.

(** What is left of a string of digits and separators [c] once the
    separators are removed is a string of digits. *)
Lemma remove_all_digits (c : char) (s : str) :
  forallb (fun d => is_digit d || (d =? c)) s = true ->
  forallb is_digit (remove_all c s) = true.
Proof.
  unfold remove_all. induction s as [|x s IH]; simpl; [reflexivity|].
  rewrite andb_true_iff. intros [Hx Hs].
  destruct (x =? c) eqn:E; simpl; [exact (IH Hs)|].
  rewrite orb_false_r in Hx. rewrite Hx. exact (IH Hs).
Qed.

(** X3.  A matched amount whose only comma follows digits and periods and
    precedes digits is read as a comma decimal: the periods are dropped and
    the comma is the decimal point.  So 1.234,56 reads 1234.56, and 1,234
    reads 1.234. *)
Theorem comma_decimal_amount (ip fp : str) :
  forallb (fun d => is_digit d || (d =? ch ".")) ip = true ->
  remove_all (ch ".") ip <> [] ->
  forallb is_digit fp = true ->
  parseFloat (normalizeAmount (ip ++ ch "," :: fp))
  = round (decimal (remove_all (ch ".") ip) fp).
Proof.
  intros Hip Hne Hfp. rewrite normalizeAmount_spec.
  assert (Hfp_comma := digits_without (ch ",") fp eq_refl Hfp).
  assert (Hfp_dot := digits_without (ch ".") fp eq_refl Hfp).
  rewrite (lastIndexOf_separator (ch ",") ip fp Hfp_comma).
  assert (Hlt : (lastIndexOf (ch ".") (ip ++ ch "," :: fp) < Z.of_nat (length ip))%Z).
  { apply lastIndexOf_before. cbn [forallb]. rewrite Hfp_dot. reflexivity. }
  apply Z.ltb_lt in Hlt. rewrite Hlt.
  rewrite remove_all_app.
  replace (remove_all (ch ".") (ch "," :: fp)) with (ch "," :: fp)
    by (symmetry; apply remove_all_absent; cbn [forallb]; rewrite Hfp_dot; reflexivity).
  rewrite (replace_first_digits (ch ",") (ch ".") _ fp eq_refl
             (remove_all_digits _ _ Hip)).
  apply parseFloat_decimal; [exact Hne | exact (remove_all_digits _ _ Hip) | exact Hfp].
Qed.

Lemma comma_decimal_amount_witness :
  parseFloat (normalizeAmount (lit "1.234" ++ ch "," :: lit "56"))
  = round (decimal (remove_all (ch ".") (lit "1.234")) (lit "56")).
Proof.
  apply (comma_decimal_amount (lit "1.234") (lit "56"));
    [reflexivity | discriminate | reflexivity].
Defined.

(** X4.  A matched amount whose last period follows digits and commas and
    precedes digits is read as a period decimal: the commas are dropped.  So
    1,234.56 reads 1234.56. *)
Theorem period_decimal_amount (ip fp : str) :
  forallb (fun d => is_digit d || (d =? ch ",")) ip = true ->
  remove_all (ch ",") ip <> [] ->
  forallb is_digit fp = true ->
  parseFloat (normalizeAmount (ip ++ ch "." :: fp))
  = round (decimal (remove_all (ch ",") ip) fp).
Proof.
  intros Hip Hne Hfp. rewrite normalizeAmount_spec.
  assert (Hfp_comma := digits_without (ch ",") fp eq_refl Hfp).
  assert (Hfp_dot := digits_without (ch ".") fp eq_refl Hfp).
  rewrite (lastIndexOf_separator (ch ".") ip fp Hfp_dot).
  assert (Hlt : (lastIndexOf (ch ",") (ip ++ ch "." :: fp) < Z.of_nat (length ip))%Z).
  { apply lastIndexOf_before. cbn [forallb]. rewrite Hfp_comma. reflexivity. }
  replace (Z.of_nat (length ip) <? lastIndexOf (ch ",") (ip ++ ch "." :: fp))%Z
    with false by (symmetry; apply Z.ltb_ge; lia).
  rewrite remove_all_app.
  replace (remove_all (ch ",") (ch "." :: fp)) with (ch "." :: fp)
    by (symmetry; apply remove_all_absent; cbn [forallb]; rewrite Hfp_comma; reflexivity).
  apply parseFloat_decimal; [exact Hne | exact (remove_all_digits _ _ Hip) | exact Hfp].
Qed.

Lemma period_decimal_amount_witness :
  parseFloat (normalizeAmount (lit "1,234" ++ ch "." :: lit "56"))
  = round (decimal (remove_all (ch ",") (lit "1,234")) (lit "56")).
Proof.
  apply (period_decimal_amount (lit "1,234") (lit "56"));
    [reflexivity | discriminate | reflexivity].
Defined.

End AmountFacts.

Section KeyedSegments.
Import Js Num RegExp FieldParser Segment.

Lemma split_at_separator (d : char) (a b : str) :
  forallb (fun c => negb (c =? d)) a = true ->
  split d (a ++ d :: b) = a :: split d b.
Proof.
  induction a as [|x a IH]; simpl.
  - intros _. rewrite N.eqb_refl. reflexivity.
  - rewrite andb_true_iff. intros [Hx Ha]. apply negb_true_iff in Hx.
    rewrite Hx, (IH Ha). reflexivity.
Qed.

Lemma keyValue_cut (k : char) (v tail : str) :
  k <> 58 -> forallb (fun c => negb (c =? 58)) v = true -> cutAtColon tail ->
  keyValue (k :: 58 :: v ++ tail) = ([k], Some v).
Proof.
  intros Hk Hv Ht. unfold keyValue. change (ch ":") with 58.
  change (k :: 58 :: v ++ tail) with ([k] ++ 58 :: v ++ tail).
  rewrite split_at_separator
    by (cbn [forallb]; rewrite (proj2 (N.eqb_neq k 58) Hk); reflexivity).
  destruct tail as [|c rest].
  - rewrite app_nil_r, (split_without 58 v Hv). reflexivity.
  - simpl in Ht. subst c. rewrite (split_at_separator 58 v rest Hv). reflexivity.
Qed.

Lemma trim_nil : trim [] = [].
Proof. reflexivity. Qed.



(** X6.  The customer tax id is the trimmed value of the last segment filed
    under key A, cut at the segment's second colon; the simple parsing never
    changes it. *)
Theorem customer_NIF_segment (qrData : str) (pre post : list str) (v tail : str) :
  forallb (fun c => negb (c =? 58)) v = true ->
  v <> [] ->
  cutAtColon tail ->
  split (ch "*") qrData = pre ++ (lit "A:" ++ v ++ tail) :: post ->
  (forall f, In f post -> fieldKey f <> Some (lit "A")) ->
  exists d, parseQRCodeData qrData = Ok d /\ customerNIF d = Some (trim v).
Proof.
  intros Hv Hne Ht Hsplit Hlast.
  unfold parseQRCodeData. rewrite Hsplit.
  set (d0 := fold_left handleField _ initialQR).
  assert (Hn : customerNIF d0 = Some (trim v)).
  { apply (fold_handleField_last customerNIF (lit "A")).
    - exact handleField_customerNIF.
    - intros d. unfold handleField.
      change (lit "A:" ++ v ++ tail) with (65 :: 58 :: v ++ tail).
      rewrite (keyValue_cut 65 v tail) by (try assumption; discriminate).
      destruct v as [|c v]; [contradiction|]. reflexivity.
    - exact Hlast. }
  clearbody d0.
  destruct (number_falsy (totalValue d0) && negb (is_truthy_str (invoiceNumber d0))).
  - destruct (simpleParsing_ok qrData d0) as [d' [E [_ [_ [_ [H4 _]]]]]].
    exists d'. split; [exact E | rewrite H4; exact Hn].
  - exists d0. split; [reflexivity | exact Hn].
Qed.

Lemma customer_NIF_segment_witness :
  exists d, parseQRCodeData (lit "A: 500000000 *F:20250929") = Ok d
            /\ customerNIF d = Some (trim (lit " 500000000 ")).
Proof.
  apply (customer_NIF_segment (lit "A: 500000000 *F:20250929")
           [] [lit "F:20250929"] (lit " 500000000 ") []).
  - reflexivity.
  - discriminate.
  - exact I.
  - vm_compute. reflexivity.
  - intros f [<-|[]]. vm_compute. discriminate.
Defined.

End KeyedSegments.

(* ------------------------------------------------------------------ *)
(** ** Field Parser: what "not found" looks like *)

Section NotFoundFacts.
Import Js Num RegExp FieldParser Segment.












End NotFoundFacts.

Section NotFoundClaim.
Import Js Num RegExp FieldParser Segment.



End NotFoundClaim.

Section CurrencyFacts.
Import Js Num RegExp FieldParser Currency.

Lemma search_result (f : flags) (r : re) :
  forall s prev caps,
    search f r prev s = Some caps ->
    exists st st', In st' (rmatch f r st) /\ caps = m_caps st'.
Proof.
  induction s as [|c t IH]; intros prev caps; simpl;
    destruct (rmatch f r _) as [|st' l] eqn:E; try discriminate.
  - intros [= <-]. eexists; exists st'. split; [rewrite E; left; reflexivity|reflexivity].
  - apply IH.
  - intros [= <-]. eexists; exists st'. split; [rewrite E; left; reflexivity|reflexivity].
Qed.

Lemma chars_from_one (c : char) : chars_from c (N.to_nat (c + 1 - c)) = [c].
Proof.
  replace (c + 1 - c) with 1 by lia. reflexivity.
Qed.

(** A literal character matches the characters that canonicalize as it does. *)
Lemma rmatch_chr (f : flags) (c : char) (st st' : mstate) :
  In st' (rmatch f (chr c) st) ->
  exists x, m_rest st = x :: m_rest st'
            /\ canonicalize f x = canonicalize f c
            /\ m_caps st' = m_caps st.
Proof.
  unfold chr. cbn [rmatch]. destruct (m_rest st) as [|x t]; [intros []|].
  unfold class_matches. cbn [flat_map item_chars]. rewrite chars_from_one.
  cbn [app existsb]. rewrite orb_false_r.
  destruct (canonicalize f c =? canonicalize f x) eqn:E; [|intros []].
  intros [<-|[]]. exists x. apply N.eqb_eq in E. auto.
Qed.

(** A literal word matches the words that canonicalize as it does. *)
Lemma rmatch_word (f : flags) (w : str) :
  forall st st',
    In st' (rmatch f (seq_of (map chr w)) st) ->
    exists v, m_rest st = v ++ m_rest st'
              /\ map (canonicalize f) v = map (canonicalize f) w
              /\ m_caps st' = m_caps st.
Proof.
  induction w as [|c w IH]; intros st st' Hin.
  - simpl in Hin. destruct Hin as [<-|[]]. exists []. auto.
  - destruct w as [|c' w].
    + cbn [map seq_of] in Hin. destruct (rmatch_chr f c st st' Hin) as [x [R [C K]]].
      exists [x]. cbn [map app]. rewrite R, C. auto.
    + change (seq_of (map chr (c :: c' :: w)))
        with (Seq (chr c) (seq_of (map chr (c' :: w)))) in Hin.
      cbn [rmatch] in Hin. apply in_flat_map in Hin. destruct Hin as [st1 [H1 H2]].
      destruct (rmatch_chr f c st st1 H1) as [x [R [C K]]].
      destruct (IH st1 st' H2) as [v [R' [C' K']]].
      exists (x :: v). cbn [map app]. rewrite R, R', C, C'. split; [reflexivity|].
      split; [reflexivity|congruence].
Qed.

Lemma rmatch_alt_of (f : flags) (l : list re) :
  l <> [] ->
  forall st st', In st' (rmatch f (alt_of l) st) ->
                 exists r, In r l /\ In st' (rmatch f r st).
Proof.
  induction l as [|r l IH]; [intros H; contradiction|]. intros _ st st' Hin.
  destruct l as [|r' l].
  - exists r. split; [left; reflexivity | exact Hin].
  - change (alt_of (r :: r' :: l)) with (Alt r (alt_of (r' :: l))) in Hin.
    cbn [rmatch] in Hin. apply in_app_or in Hin. destruct Hin as [Hin|Hin].
    + exists r. split; [left; reflexivity | exact Hin].
    + assert (Hne : r' :: l <> []) by discriminate.
      destruct (IH Hne st st' Hin) as [r0 [A B]].
      exists r0. split; [right; exact A | exact B].
Qed.

(** What the currency pattern captures canonicalizes as one of its words. *)
Lemma currencyPattern_captures (s : str) (m : list (nat * str)) :
  exec currencyPattern s = Some m ->
  exists key w, group 1 m = Some key /\ In w currencyWords
                /\ map upper key = map upper w.
Proof.
  intros H. destruct (search_result _ _ _ _ _ H) as [st [st' [Hin ->]]].
  change (body currencyPattern)
    with (Grp 1 (alt_of (map (fun w => seq_of (map chr w)) currencyWords))) in Hin.
  cbn [rmatch] in Hin. apply in_map_iff in Hin. destruct Hin as [st1 [<- H1]].
  assert (Hne : map (fun w => seq_of (map chr w)) currencyWords <> [])
    by discriminate.
  destruct (rmatch_alt_of _ _ Hne _ _ H1) as [r [Hr Hm]].
  apply in_map_iff in Hr. destruct Hr as [w [<- Hw]].
  destruct (rmatch_word _ w _ _ Hm) as [v [R [C K]]].
  exists v, w. cbn [m_caps group Nat.eqb]. split; [|split; [exact Hw | exact C]].
  rewrite R, length_app. replace (length v + length (m_rest st1) - length (m_rest st1))%nat
    with (length v) by lia.
  rewrite firstn_app, firstn_all, Nat.sub_diag. cbn [firstn]. rewrite app_nil_r.
  reflexivity.
Qed.

Lemma lookup_value (key : str) (m : list (str * str)) (v : str) :
  lookup key m = Some v -> In v (map snd m).
Proof.
  induction m as [|[k x] m IH]; simpl; [discriminate|].
  destruct (str_eqb k key); [intros [= <-]; left; reflexivity | intros H; right; auto].
Qed.

Lemma upper_fixed (x c : char) :
  c = 36 \/ c = 8364 \/ c = 163 -> upper x = c -> x = c.
Proof.
  unfold upper.
  destruct ((97 <=? x) && (x <=? 122)) eqn:A.
  { apply andb_true_iff in A. rewrite !N.leb_le in A. lia. }
  destruct ((224 <=? x) && (x <=? 254) && negb (x =? 247)) eqn:B.
  { rewrite !andb_true_iff, !N.leb_le in B. lia. }
  destruct (x =? 255) eqn:C; [lia|].
  destruct (x =? 181) eqn:D; [lia|]. intros _ H. exact H.
Qed.

(** X7.  The currency of a free-text record is absent or one of USD, EUR,
    GBP, BRL and R$; the last one is what a lower-case r$ gives, which the
    currency map does not hold. *)
Theorem currency_is_a_known_code (text : str) (d : invoiceData) (c : str) :
  parseInvoiceData text = Ok d -> currency d = Some c -> In c currencyCodes.
Proof.
  unfold parseInvoiceData. intros H Hc.
  destruct (extractTotal totalPatterns _) as [t|]; [|discriminate].
  destruct (extractCurrency _) as [cur|] eqn:E; [|discriminate].
  destruct (extractInvoiceNumber _ _) as [n|]; [|discriminate].
  cbn [bind] in H. injection H as <-. cbn [currency] in Hc. subst cur.
  unfold extractCurrency in E.
  destruct (exec currencyPattern _) as [m|] eqn:X; [|discriminate].
  destruct (currencyPattern_captures _ _ X) as [key [w [G [Hw U]]]].
  rewrite G in E.
  destruct (lookup key currencyMap) as [code|] eqn:L.
  - injection E as <-. apply lookup_value in L. cbn in L.
    unfold currencyCodes. cbn.
    repeat (destruct L as [L|L]; [rewrite <- L; tauto|]). destruct L.
  - injection E as <-. unfold toUpperCase. rewrite U.
    unfold currencyWords in Hw. cbn [In] in Hw.
    assert (Single : forall x, map upper key = [x] ->
                               x = 36 \/ x = 8364 \/ x = 163 -> key = [x]).
    { intros x Hk Hx. destruct key as [|y [|z key]]; try discriminate.
      cbn in Hk. injection Hk as Hk. rewrite (upper_fixed y x Hx Hk). reflexivity. }
    repeat (destruct Hw as [Hw|Hw];
            [subst w;
             first [ (* a one-character word: the key is in the map *)
                     match type of U with
                     | map upper key = map upper [?x] =>
                         rewrite (Single x U ltac:(cbv; tauto)) in L;
                         vm_compute in L; discriminate
                     end
                   | vm_compute; tauto ]|]).
    destruct Hw.
Qed.

Lemma currency_is_a_known_code_witness :
  In (lit "R$") currencyCodes.
Proof.
  eapply (currency_is_a_known_code (lit "pay 5 r$ now"));
    [vm_compute; reflexivity | reflexivity].
Defined.

End CurrencyFacts.

(* ================================================================== *)
(** * Further properties of the Decode Cascade *)

Section CascadeMore.
Import Js Cascade CascadeCost.

Variable w : world.

Lemma firstSuccess_winner (l1 : list strategy) (s : strategy) (l2 : list strategy)
      (code : str) :
  Forall (fun t => snd (tryStrategy w t) = None) l1 ->
  snd (tryStrategy w s) = Some code ->
  snd (firstSuccess w (l1 ++ s :: l2)) = Some code
  /\ strategiesTried (fst (firstSuccess w (l1 ++ s :: l2))) = l1 ++ [s].
Proof.
  intros Hfail Hs. induction Hfail as [|t l1 Ht Hl [IH1 IH2]].
  - cbn [app firstSuccess]. rewrite orElse_unfold, Hs. cbn [fst snd].
    split; [reflexivity | apply tryStrategy_spec].
  - cbn [app firstSuccess]. rewrite orElse_unfold, Ht. cbn [fst snd].
    split; [exact IH1|].
    rewrite strategiesTried_app, IH2, (proj1 (tryStrategy_spec w t)). reflexivity.
Qed.

Lemma decoderCalls_app (a b : list event) :
  decoderCalls (a ++ b) = (decoderCalls a + decoderCalls b)%nat.
Proof.
  induction a as [|[s|s e] a IH]; simpl; [reflexivity | exact IH | rewrite IH; reflexivity].
Qed.

Lemma tryStrategy_cost (s : strategy) :
  (decoderCalls (fst (tryStrategy w s)) <= 3)%nat.
Proof.
  unfold tryStrategy. destruct (prepared w s); [|simpl; lia].
  unfold tryQRScan.
  destruct (decode w s jsQR) as [|r]; [simpl; lia|].
  destruct (found (Returns r)); [simpl; lia|].
  destruct (zxingReady w s); [|simpl; lia].
  destruct (found (decode w s zxingHybrid)); [simpl; lia|].
  destruct (found (decode w s zxingGlobalHistogram)); simpl; lia.
Qed.

Lemma firstSuccess_cost (l : list strategy) :
  (length (strategiesTried (fst (firstSuccess w l))) <= length l)%nat
  /\ (decoderCalls (fst (firstSuccess w l)) <= 3 * length l)%nat.
Proof.
  induction l as [|s l [IH1 IH2]]; [simpl; lia|].
  cbn [firstSuccess]. rewrite orElse_unfold.
  pose proof (tryStrategy_cost s) as C.
  pose proof (proj1 (tryStrategy_spec w s)) as T.
  destruct (snd (tryStrategy w s)); cbn [fst snd].
  - rewrite T. simpl. lia.
  - rewrite strategiesTried_app, decoderCalls_app, T, length_app. simpl. lia.
Qed.

(** The events of a strategy are its own. *)
Lemma tryStrategy_events (s : strategy) (ev : event) :
  In ev (fst (tryStrategy w s)) ->
  ev = Prepare s \/ exists e, ev = Decode s e
                              /\ (decode w s jsQR = Throws -> e = jsQR).
Proof.
  unfold tryStrategy. destruct (prepared w s);
    [|intros [<-|[]]; left; reflexivity].
  unfold tryQRScan.
  destruct (decode w s jsQR) as [|r].
  { cbn. intros [<-|[<-|[]]]; [left; reflexivity|]. right. exists jsQR. auto. }
  assert (R : forall e, Returns r = Throws -> e = jsQR) by (intros; discriminate).
  destruct (found (Returns r));
    [|destruct (zxingReady w s);
      [destruct (found (decode w s zxingHybrid));
       [|destruct (found (decode w s zxingGlobalHistogram))]|]];
    cbn; intros H;
    repeat (destruct H as [<-|H]; [first [left; reflexivity | right; eexists; split; [reflexivity|apply R]]|]);
    destruct H.
Qed.

Lemma firstSuccess_events (l : list strategy) (ev : event) :
  In ev (fst (firstSuccess w l)) ->
  exists s, In s l /\ In ev (fst (tryStrategy w s)).
Proof.
  induction l as [|s l IH]; [intros []|].
  cbn [firstSuccess]. rewrite orElse_unfold.
  destruct (snd (tryStrategy w s)); cbn [fst].
  - intros H. exists s. split; [left; reflexivity | exact H].
  - intros H. apply in_app_or in H. destruct H as [H|H].
    + exists s. split; [left; reflexivity | exact H].
    + destruct (IH H) as [t [A B]]. exists t. split; [right; exact A | exact B].
Qed.

End CascadeMore.

(** X8.  The winner of the cascade is decided by the order alone: when a
    strategy of the plan finds a payload and every strategy before it finds
    none, [scanQRCode] returns that payload, and the strategies it has tried
    are exactly those up to and including the winner. *)
Theorem scanQRCode_first_winner (w : Cascade.world) (width height : N)
        (l1 : list Cascade.strategy) (s : Cascade.strategy)
        (l2 : list Cascade.strategy) (code : list N) :
  Cascade.dimensions w = Some (width, height) ->
  Cascade.plan width height = l1 ++ s :: l2 ->
  Forall (fun t => snd (Cascade.tryStrategy w t) = None) l1 ->
  snd (Cascade.tryStrategy w s) = Some code ->
  snd (Cascade.scanQRCode w) = Some code
  /\ Cascade.strategiesTried (fst (Cascade.scanQRCode w)) = l1 ++ [s].
Proof.
  intros Hd Hp Hfail Hs. rewrite (scanQRCode_plan w width height Hd), Hp.
  apply firstSuccess_winner; assumption.
Qed.

Lemma scanQRCode_first_winner_witness :
  snd (Cascade.scanQRCode
         (Cascade.decodableOnlyBy 3000 1000 (Cascade.scale 1200) (Js.lit "A:500000000")))
  = Some (Js.lit "A:500000000")
  /\ Cascade.strategiesTried
       (fst (Cascade.scanQRCode
               (Cascade.decodableOnlyBy 3000 1000 (Cascade.scale 1200)
                                        (Js.lit "A:500000000"))))
     = firstn 9 (Cascade.plan 3000 1000) ++ [Cascade.scale 1200].
Proof.
  apply (scanQRCode_first_winner _ 3000 1000 (firstn 9 (Cascade.plan 3000 1000))
           (Cascade.scale 1200) (skipn 10 (Cascade.plan 3000 1000))).
  - reflexivity.
  - reflexivity.
  - vm_compute. repeat constructor.
  - vm_compute. reflexivity.
Defined.

(** X9.  What [scanQRCode] returns is [null] or a non-empty text that one
    of the decoders returned for one of the strategies of the plan: never
    the empty string. *)
Theorem scanQRCode_returns_decoded_text (w : Cascade.world) (code : list N) :
  snd (Cascade.scanQRCode w) = Some code ->
  code <> []
  /\ exists s e, Cascade.decode w s e = Cascade.Returns (Some code)
                 /\ In (Cascade.Decode s e) (fst (Cascade.scanQRCode w)).
Proof.
  intros H.
  destruct (Cascade.dimensions w) as [[width height]|] eqn:D.
  - pose proof (firstSuccess_result w (Cascade.plan width height)) as R.
    rewrite <- (scanQRCode_plan w width height D), H in R.
    destruct R as [before [s [e [E [F _]]]]].
    assert (G : Cascade.decode w s e = Cascade.Returns (Some code) /\ code <> []).
    { destruct (Cascade.decode w s e) as [|[[|c t]|]]; simpl in F; try discriminate.
      injection F as <-. split; [reflexivity | discriminate]. }
    split; [exact (proj2 G)|]. exists s, e. split; [exact (proj1 G)|].
    rewrite E. apply in_or_app. right. left. reflexivity.
  - unfold Cascade.scanQRCode in H. rewrite D in H. discriminate.
Qed.

Lemma scanQRCode_returns_decoded_text_witness :
  Js.lit "A:500000000" <> []
  /\ exists s e,
       Cascade.decode
         (Cascade.decodableOnlyBy 3000 1000 (Cascade.scale 1200) (Js.lit "A:500000000"))
         s e
       = Cascade.Returns (Some (Js.lit "A:500000000"))
       /\ In (Cascade.Decode s e)
             (fst (Cascade.scanQRCode
                     (Cascade.decodableOnlyBy 3000 1000 (Cascade.scale 1200)
                                              (Js.lit "A:500000000")))).
Proof.
  apply (scanQRCode_returns_decoded_text
           (Cascade.decodableOnlyBy 3000 1000 (Cascade.scale 1200) (Js.lit "A:500000000"))).
  vm_compute. reflexivity.
Defined.

(** X10.  One scan is bounded work: at most 17 strategies are tried and at
    most 51 decoder calls are made, 14 and 42 for an image no wider and no
    higher than 2000 pixels; each strategy calls at most three decoders. *)
Theorem scanQRCode_is_bounded (w : Cascade.world) :
  (length (Cascade.strategiesTried (fst (Cascade.scanQRCode w))) <= 17)%nat
  /\ (CascadeCost.decoderCalls (fst (Cascade.scanQRCode w)) <= 51)%nat
  /\ (forall width height,
        Cascade.dimensions w = Some (width, height) ->
        width <= 2000 -> height <= 2000 ->
        (length (Cascade.strategiesTried (fst (Cascade.scanQRCode w))) <= 14)%nat
        /\ (CascadeCost.decoderCalls (fst (Cascade.scanQRCode w)) <= 42)%nat).
Proof.
  destruct (Cascade.dimensions w) as [[width height]|] eqn:D.
  - rewrite (scanQRCode_plan w width height D).
    destruct (firstSuccess_cost w (Cascade.plan width height)) as [A B].
    assert (L : (length (Cascade.plan width height) <= 17)%nat
                /\ (width <= 2000 -> height <= 2000 ->
                    length (Cascade.plan width height) = 14%nat)).
    { unfold Cascade.plan.
      destruct ((2000 <? width) || (2000 <? height)) eqn:E; simpl; split; try lia.
      - intros Hw Hh. apply orb_true_iff in E. rewrite !N.ltb_lt in E. lia. }
    destruct L as [L1 L2]. split; [lia|]. split; [lia|].
    intros w0 h0 [= <- <-] Hw Hh. rewrite (L2 Hw Hh) in *. lia.
  - unfold Cascade.scanQRCode. rewrite D. simpl.
    split; [lia|]. split; [lia|]. intros; discriminate.
Qed.

(** X11.  When jsQR raises on the image a strategy prepared, the ZXing
    decoders are not called for that strategy and the strategy finds
    nothing, whatever ZXing would have read. *)
Theorem jsQR_exception_skips_ZXing (w : Cascade.world) (s : Cascade.strategy) :
  Cascade.decode w s Cascade.jsQR = Cascade.Throws ->
  snd (Cascade.tryStrategy w s) = None
  /\ forall e, In (Cascade.Decode s e) (fst (Cascade.scanQRCode w)) ->
               e = Cascade.jsQR.
Proof.
  intros H. split.
  - unfold Cascade.tryStrategy, Cascade.tryQRScan. rewrite H.
    destruct (Cascade.prepared w s); reflexivity.
  - intros e Hin.
    destruct (Cascade.dimensions w) as [[width height]|] eqn:D.
    + rewrite (scanQRCode_plan w width height D) in Hin.
      destruct (firstSuccess_events w _ _ Hin) as [t [_ Ht]].
      destruct (tryStrategy_events w t _ Ht) as [E|[e0 [E J]]]; [discriminate|].
      injection E as <- <-. exact (J H).
    + unfold Cascade.scanQRCode in Hin. rewrite D in Hin. destruct Hin.
Qed.

Lemma jsQR_exception_skips_ZXing_witness :
  let w := {| Cascade.dimensions := Some (800, 600);
              Cascade.prepared := fun _ => true;
              Cascade.zxingReady := fun _ => true;
              Cascade.decode := fun _ e =>
                match e with
                | Cascade.jsQR => Cascade.Throws
                | _ => Cascade.Returns (Some (Js.lit "A:500000000"))
                end |} in
  snd (Cascade.tryStrategy w Cascade.original) = None
  /\ forall e, In (Cascade.Decode Cascade.original e) (fst (Cascade.scanQRCode w)) ->
               e = Cascade.jsQR.
Proof.
  intros w. apply (jsQR_exception_skips_ZXing w Cascade.original). reflexivity.
Defined.

(* ================================================================== *)
(** * Further properties of the Job Queue *)

Section ScheduleFacts.
Import Queue Schedule.

Variable MAX : Z.

Lemma startProcessors_shape (s : state) :
  exists k : nat,
    (k <= length (processingQueue s))%nat
    /\ processingQueue (startProcessors MAX s) = skipn k (processingQueue s)
    /\ workers (startProcessors MAX s)
       = workers s ++ map Extracting (firstn k (processingQueue s))
    /\ finished (startProcessors MAX s) = finished s.
Proof.
  unfold startProcessors.
  destruct (startLoop_spec MAX (processingQueue s) (activeProcessors s) (workers s)
              (finished s)) as [k [Hk [Hq [Hw [_ [Hf _]]]]]].
  exists k. auto.
Qed.

Lemma inFlight_app (a b : list worker) :
  inFlight (a ++ b) = inFlight a ++ inFlight b.
Proof.
  induction a as [|[j|d] a IH]; simpl; [reflexivity | rewrite IH; reflexivity | exact IH].
Qed.

Lemma inFlight_extracting (l : list job) : inFlight (map Extracting l) = l.
Proof. induction l as [|j l IH]; simpl; [reflexivity | rewrite IH; reflexivity]. Qed.

Lemma load_app (a b : list worker) : load (a ++ b) = (load a + load b)%nat.
Proof.
  induction a as [|[j|d] a IH]; simpl; [reflexivity | rewrite IH; reflexivity
                                       | rewrite IH; reflexivity].
Qed.

Lemma load_extracting (l : list job) : load (map Extracting l) = (2 * length l)%nat.
Proof. induction l as [|j l IH]; simpl; [reflexivity | rewrite IH; lia]. Qed.

(** [startProcessors] only moves jobs from the queue to new workers. *)
Lemma startProcessors_jobs (s : state) : jobs (startProcessors MAX s) = jobs s.
Proof.
  destruct (startProcessors_shape s) as [k [_ [Hq [Hw Hf]]]].
  unfold jobs. rewrite Hq, Hw, Hf, inFlight_app, inFlight_extracting, <- !app_assoc.
  rewrite firstn_skipn. reflexivity.
Qed.

Lemma startProcessors_weight (s : state) :
  (weight (startProcessors MAX s) <= weight s)%nat.
Proof.
  destruct (startProcessors_shape s) as [k [Hk [Hq [Hw _]]]].
  unfold weight. rewrite Hq, Hw, load_app, load_extracting, length_skipn, length_firstn.
  lia.
Qed.

Lemma startProcessors_queue (s : state) :
  exists dropped,
    processingQueue s = dropped ++ processingQueue (startProcessors MAX s).
Proof.
  destruct (startProcessors_shape s) as [k [_ [Hq _]]].
  exists (firstn k (processingQueue s)). rewrite Hq, firstn_skipn. reflexivity.
Qed.

Lemma inFlight_settle (ws : list worker) (d : Z) :
  forall i j, nth_error ws i = Some (Extracting j) ->
              Permutation (inFlight ws) (j :: inFlight (replaceNth i (Delaying d) ws))
              /\ load ws = S (load (replaceNth i (Delaying d) ws)).
Proof.
  induction ws as [|w ws IH]; intros [|i] j; simpl; try discriminate.
  - intros [= ->]. split; [reflexivity | reflexivity].
  - intros H. destruct (IH i j H) as [P L]. destruct w as [j'|d']; simpl.
    + split; [|lia]. rewrite P. apply perm_swap.
    + split; [exact P | lia].
Qed.

Lemma inFlight_start (ws : list worker) (j : job) :
  forall i d, nth_error ws i = Some (Delaying d) ->
              Permutation (j :: inFlight ws) (inFlight (replaceNth i (Extracting j) ws))
              /\ load (replaceNth i (Extracting j) ws) = S (load ws).
Proof.
  induction ws as [|w ws IH]; intros [|i] d; simpl; try discriminate.
  - intros [= ->]. split; reflexivity.
  - intros H. destruct (IH i d H) as [P L]. destruct w as [j'|d']; simpl.
    + split; [|lia]. rewrite <- P. apply perm_swap.
    + split; [exact P | lia].
Qed.

Lemma inFlight_remove_delaying (ws : list worker) :
  forall i d, nth_error ws i = Some (Delaying d) ->
              inFlight (removeNth i ws) = inFlight ws
              /\ load ws = S (load (removeNth i ws)).
Proof.
  induction ws as [|w ws IH]; intros [|i] d; simpl; try discriminate.
  - intros [= ->]. split; reflexivity.
  - intros H. destruct (IH i d H) as [P L]. destruct w as [j'|d']; simpl.
    + rewrite P. split; [reflexivity | lia].
    + split; [exact P | lia].
Qed.

Lemma workerExit_delaying (i : nat) (s : state) (d : Z) :
  nth_error (workers s) i = Some (Delaying d) ->
  jobs (workerExit MAX i s) = jobs s
  /\ (weight (workerExit MAX i s) < weight s)%nat.
Proof.
  intros H. unfold workerExit. rewrite finallyBlock_unguarded.
  unfold exitThenReplenish.
  destruct (inFlight_remove_delaying (workers s) i d H) as [P L]. split.
  - rewrite startProcessors_jobs. unfold jobs, decrement.
    cbn [finished workers processingQueue]. rewrite P. reflexivity.
  - eapply Nat.le_lt_trans; [apply startProcessors_weight|].
    unfold weight, decrement. cbn [workers processingQueue]. lia.
Qed.

(** A step without a crash keeps every job, and adds the enqueued one. *)
Lemma step_jobs (e : event) (s s' : state) :
  crashFree e -> step MAX e s = Some s' ->
  Permutation (jobs s ++ enqueued [e]) (jobs s').
Proof.
  destruct e as [j|i r|i|i]; cbn [step crashFree enqueued]; intros Hc H;
    try contradiction.
  - injection H as <-. unfold addToQueue. rewrite startProcessors_jobs.
    unfold jobs. cbn [finished workers processingQueue].
    rewrite <- !app_assoc. reflexivity.
  - destruct (nth_error (workers s) i) as [[j|d]|] eqn:E; try discriminate.
    injection H as <-. rewrite app_nil_r. unfold jobs, jobSettled.
    cbn [finished workers processingQueue]. rewrite map_app. cbn [map fst].
    destruct (inFlight_settle (workers s) INTER_JOB_DELAY i j E) as [P _].
    rewrite P, <- !app_assoc. cbn [app].
    apply Permutation_app_head. reflexivity.
  - destruct (nth_error (workers s) i) as [[j|d]|] eqn:E; try discriminate.
    injection H as <-. rewrite app_nil_r. unfold loopTest.
    destruct (processingQueue s) as [|j rest] eqn:Q.
    + rewrite (proj1 (workerExit_delaying i s d E)). reflexivity.
    + unfold jobs. cbn [finished workers processingQueue]. rewrite Q.
      destruct (inFlight_start (workers s) j i d E) as [P _].
      apply Permutation_app_head. rewrite <- P.
      symmetry. apply Permutation_middle.
Qed.

(** A step of a worker takes away some of what is left to do. *)
Lemma step_weight (e : event) (s s' : state) :
  quiet e -> step MAX e s = Some s' -> (weight s' < weight s)%nat.
Proof.
  destruct e as [j|i r|i|i]; cbn [step quiet]; intros Hq H; try contradiction.
  - destruct (nth_error (workers s) i) as [[j|d]|] eqn:E; try discriminate.
    injection H as <-. unfold weight, jobSettled. cbn [workers processingQueue].
    destruct (inFlight_settle (workers s) INTER_JOB_DELAY i j E) as [_ L]. lia.
  - destruct (nth_error (workers s) i) as [[j|d]|] eqn:E; try discriminate.
    injection H as <-. unfold loopTest.
    destruct (processingQueue s) as [|j rest] eqn:Q.
    + exact (proj2 (workerExit_delaying i s d E)).
    + unfold weight. cbn [workers processingQueue]. rewrite Q.
      destruct (inFlight_start (workers s) j i d E) as [_ L]. cbn [length]. lia.
Qed.

(** A step takes jobs from the head of the queue only, and adds at its end. *)
Lemma step_queue (e : event) (s s' : state) :
  step MAX e s = Some s' ->
  exists dropped,
    processingQueue s ++ enqueued [e] = dropped ++ processingQueue s'.
Proof.
  assert (Exit : forall i, exists dropped,
               processingQueue s = dropped ++ processingQueue (workerExit MAX i s)).
  { intros i. unfold workerExit. rewrite finallyBlock_unguarded.
    unfold exitThenReplenish.
    destruct (startProcessors_queue
                (decrement {| processingQueue := processingQueue s;
                              activeProcessors := activeProcessors s;
                              workers := removeNth i (workers s);
                              finished := finished s |})) as [dropped D].
    exists dropped. exact D. }
  destruct e as [j|i r|i|i]; cbn [step enqueued]; intros H.
  - injection H as <-. unfold addToQueue.
    destruct (startProcessors_queue
                {| processingQueue := processingQueue s ++ [j];
                   activeProcessors := activeProcessors s;
                   workers := workers s;
                   finished := finished s |}) as [dropped D].
    exists dropped. exact D.
  - destruct (nth_error (workers s) i) as [[j|d]|]; try discriminate.
    injection H as <-. exists []. rewrite app_nil_r. reflexivity.
  - destruct (nth_error (workers s) i) as [[j|d]|]; try discriminate.
    injection H as <-. rewrite app_nil_r. unfold loopTest.
    destruct (processingQueue s) as [|j rest] eqn:Q.
    + apply Exit.
    + exists [j]. reflexivity.
  - destruct (nth_error (workers s) i) as [x|]; try discriminate.
    injection H as <-. rewrite app_nil_r. apply Exit.
Qed.

Lemma enqueued_cons (e : event) (es : list event) :
  enqueued (e :: es) = enqueued [e] ++ enqueued es.
Proof. destruct e; reflexivity. Qed.

Lemma run_queue (es : list event) :
  forall s s',
    run MAX es s = Some s' ->
    exists started,
      processingQueue s ++ enqueued es = started ++ processingQueue s'.
Proof.
  induction es as [|e es IH]; intros s s'; cbn [run].
  - intros [= <-]. exists []. rewrite app_nil_r. reflexivity.
  - destruct (step MAX e s) as [s1|] eqn:E; [|discriminate]. intros H.
    destruct (step_queue e s s1 E) as [d1 D1].
    destruct (IH s1 s' H) as [d2 D2].
    exists (d1 ++ d2). rewrite enqueued_cons, app_assoc, D1, <- !app_assoc, D2.
    reflexivity.
Qed.

Lemma run_jobs (es : list event) :
  forall s s',
    Forall crashFree es -> run MAX es s = Some s' ->
    Permutation (jobs s ++ enqueued es) (jobs s').
Proof.
  induction es as [|e es IH]; intros s s' Hc; cbn [run].
  - intros [= <-]. rewrite app_nil_r. reflexivity.
  - destruct (step MAX e s) as [s1|] eqn:E; [|discriminate]. intros H.
    inversion Hc as [|? ? He Hes]; subst.
    rewrite enqueued_cons, app_assoc, (step_jobs e s s1 He E).
    exact (IH s1 s' Hes H).
Qed.

Lemma run_weight (es : list event) :
  forall s s',
    Forall quiet es -> run MAX es s = Some s' ->
    (length es + weight s' <= weight s)%nat.
Proof.
  induction es as [|e es IH]; intros s s' Hq; cbn [run].
  - intros [= <-]. simpl. lia.
  - destruct (step MAX e s) as [s1|] eqn:E; [|discriminate]. intros H.
    inversion Hq as [|? ? He Hes]; subst.
    pose proof (step_weight e s s1 He E). specialize (IH s1 s' Hes H).
    simpl. lia.
Qed.

Lemma quiet_crashFree (es : list event) : Forall quiet es -> Forall crashFree es.
Proof. apply Forall_impl. intros [j|i r|i|i]; simpl; tauto. Qed.

(** When no worker can move, there is no worker. *)
Lemma stuck_no_worker (s : state) :
  (forall e, quiet e -> step MAX e s = None) -> workers s = [].
Proof.
  intros H. destruct (workers s) as [|[j|d] ws] eqn:W; [reflexivity| |].
  - specialize (H (Settled 0 true) I). cbn [step] in H. rewrite W in H. discriminate.
  - specialize (H (TimerFired 0) I). cbn [step] in H. rewrite W in H. discriminate.
Qed.

(** From a state of the pool the workers can always be run to the end. *)
Lemma drain_exists :
  (0 < MAX)%Z ->
  forall n s,
    (weight s <= n)%nat -> pool_ok MAX s ->
    exists es s',
      Forall quiet es /\ run MAX es s = Some s'
      /\ workers s' = [] /\ processingQueue s' = [].
Proof.
  intros Hmax n. induction n as [|n IH]; intros s Hw Hok.
  - exists [], s. unfold weight in Hw.
    destruct (processingQueue s) as [|j q]; [|simpl in Hw; lia].
    destruct (workers s) as [|[j|d] ws]; [|simpl in Hw; lia|simpl in Hw; lia].
    repeat split; constructor.
  - destruct (workers s) as [|x ws] eqn:W.
    + exists [], s. destruct Hok as [Hc [_ Hfull]]. rewrite W in Hc. simpl in Hc.
      split; [constructor|]. split; [reflexivity|]. split; [exact W|].
      destruct (processingQueue s) as [|j q]; [reflexivity|].
      assert (activeProcessors s = MAX) by (apply Hfull; discriminate). lia.
    + assert (Hstep : exists e s1, quiet e /\ step MAX e s = Some s1).
      { destruct x as [j|d].
        - exists (Settled 0 true). eexists. split; [exact I|]. cbn [step].
          rewrite W. reflexivity.
        - exists (TimerFired 0). eexists. split; [exact I|]. cbn [step].
          rewrite W. reflexivity. }
      destruct Hstep as [e [s1 [He Hs]]].
      pose proof (step_weight e s s1 He Hs) as Hlt.
      destruct (IH s1 ltac:(lia) (step_ok MAX e s s1 Hok Hs))
        as [es [s' [Hq [Hr [Hw' Hq']]]]].
      exists (e :: es), s'. split; [constructor; assumption|].
      split; [cbn [run]; rewrite Hs; exact Hr|]. split; assumption.
Qed.

End ScheduleFacts.

Section ScheduleClaims.
Import Queue Schedule.

Lemma enqueued_quiet (es : list event) : Forall quiet es -> enqueued es = [].
Proof.
  induction 1 as [|e es He Hes IH]; [reflexivity|].
  destruct e; simpl in *; try contradiction; exact IH.
Qed.

Lemma idle_jobs (s : state) :
  workers s = [] -> processingQueue s = [] -> jobs s = map fst (finished s).
Proof. intros W Q. unfold jobs. rewrite W, Q. simpl. apply app_nil_r. Qed.

(** X12.  The queue is first in, first out: after any run of the system the
    waiting jobs are the last ones that were enqueued, in their order of
    arrival; workers have taken the others from the head. *)
Theorem queue_is_first_in_first_out (MAX : Z) (es : list event) (s : state) :
  run MAX es initial = Some s ->
  exists started, enqueued es = started ++ processingQueue s.
Proof.
  intros H. destruct (run_queue MAX es initial s H) as [started E].
  exists started. exact E.
Qed.

Lemma queue_is_first_in_first_out_witness :
  exists started, enqueued (burst ++ incidents) = started ++ processingQueue afterIncidents.
Proof.
  apply (queue_is_first_in_first_out 2 (burst ++ incidents) afterIncidents).
  vm_compute. reflexivity.
Defined.

(** X13.  As long as no worker crashes, no job is lost and none is
    duplicated: the jobs that ended, those being processed and those waiting
    are together the jobs that were enqueued, each as many times as it was
    enqueued. *)
Theorem no_job_is_lost_or_duplicated (MAX : Z) (es : list event) (s : state) :
  Forall crashFree es -> run MAX es initial = Some s ->
  Permutation (enqueued es) (jobs s).
Proof.
  intros Hc H. exact (run_jobs MAX es initial s Hc H).
Qed.

Lemma no_job_is_lost_or_duplicated_witness :
  Permutation
    (enqueued [Enqueue (item 1); Enqueue (item 1); Enqueue (item 2); Settled 0 true;
               TimerFired 0])
    (jobs {| processingQueue := [];
             activeProcessors := 2;
             workers := [Extracting (item 2); Extracting (item 1)];
             finished := [(item 1, true)] |}).
Proof.
  apply (no_job_is_lost_or_duplicated 2).
  - repeat constructor.
  - vm_compute. reflexivity.
Defined.

(** X14.  Left to themselves the workers finish: from a reachable state,
    every run of worker events (job ended, timer fired) is at most as long as
    the weight of the state, three per waiting job, two per running job, one
    per delaying worker; when no worker can move any more, the pool is empty
    and every job that was waiting or running has ended, once; and such a run
    exists. *)
Theorem workers_run_to_completion (MAX : Z) (s : state) :
  (0 < MAX)%Z -> reachable MAX s ->
  (forall es s',
      Forall quiet es -> run MAX es s = Some s' ->
      (length es <= weight s)%nat
      /\ ((forall e, quiet e -> step MAX e s' = None) ->
          workers s' = [] /\ processingQueue s' = [] /\ activeProcessors s' = 0%Z
          /\ Permutation (jobs s) (map fst (finished s'))))
  /\ exists es s',
       Forall quiet es /\ run MAX es s = Some s'
       /\ workers s' = [] /\ processingQueue s' = []
       /\ Permutation (jobs s) (map fst (finished s')).
Proof.
  intros Hmax Hreach.
  assert (Hok : pool_ok MAX s) by (apply reachable_ok; [lia | exact Hreach]).
  assert (Done : forall es s',
             Forall quiet es -> run MAX es s = Some s' ->
             workers s' = [] -> processingQueue s' = [] ->
             Permutation (jobs s) (map fst (finished s'))).
  { intros es s' Hq Hr W Q.
    pose proof (run_jobs MAX es s s' (quiet_crashFree es Hq) Hr) as P.
    rewrite (enqueued_quiet es Hq), app_nil_r, (idle_jobs s' W Q) in P. exact P. }
  split.
  - intros es s' Hq Hr. split.
    + pose proof (run_weight MAX es s s' Hq Hr). lia.
    + intros Hstuck. pose proof (stuck_no_worker MAX s' Hstuck) as W.
      destruct (reachable_ok MAX s' ltac:(lia) (run_reachable MAX es s s' Hreach Hr))
        as [Hc [_ Hfull]].
      rewrite W in Hc. simpl in Hc.
      assert (Q : processingQueue s' = []).
      { destruct (processingQueue s') as [|j q]; [reflexivity|].
        assert (activeProcessors s' = MAX) by (apply Hfull; discriminate). lia. }
      split; [exact W|]. split; [exact Q|]. split; [exact Hc|].
      exact (Done es s' Hq Hr W Q).
  - destruct (drain_exists MAX Hmax (weight s) s (Nat.le_refl _) Hok)
      as [es [s' [Hq [Hr [W Q]]]]].
    exists es, s'. split; [exact Hq|]. split; [exact Hr|]. split; [exact W|].
    split; [exact Q | exact (Done es s' Hq Hr W Q)].
Qed.

Lemma workers_run_to_completion_witness :
  exists es s',
    Forall quiet es /\ run 2 es afterIncidents = Some s'
    /\ workers s' = [] /\ processingQueue s' = []
    /\ Permutation (jobs afterIncidents) (map fst (finished s')).
Proof.
  exact (proj2 (workers_run_to_completion 2 afterIncidents eq_refl
                  afterIncidents_reachable)).
Defined.

End ScheduleClaims.

(* ================================================================== *)
(** * Properties of the Monday.com client *)

Section MondayFacts.
Import Js Num FieldParser Monday MondayTrace.

Lemma retryTrace_cost (k : nat) :
  forall a, posts (retryTrace a k) = S k
            /\ waited (retryTrace a k) = (1000 * Z.of_nat k)%Z.
Proof.
  induction k as [|k IH]; intros a; [split; reflexivity|].
  destruct (IH (S a)) as [P W]. cbn [retryTrace posts waited]. rewrite P, W.
  split; [reflexivity | lia].
Qed.

(** X15.  [executeQuery] retries connection errors only, at most [retries]
    times and after one second each: it stops at the first attempt that is
    not a connection error (a response, a GraphQL error, any other error)
    and returns or throws what that attempt gave; when every attempt is a
    connection error it throws the last one.  So it makes at most
    [retries + 1] POSTs and waits at most [retries] seconds. *)
Theorem executeQuery_outcome {D : Type} (net : nat -> posted D) (retries : nat) :
  forall attempt,
  exists k,
    (k <= retries)%nat
    /\ fst (executeQuery net attempt retries) = retryTrace attempt k
    /\ snd (executeQuery net attempt retries) = attemptResult (net (attempt + k)%nat)
    /\ (forall i, (i < k)%nat -> retriable (net (attempt + i)%nat) = true)
    /\ ((k < retries)%nat -> retriable (net (attempt + k)%nat) = false)
    /\ (posts (fst (executeQuery net attempt retries)) <= S retries)%nat
    /\ (waited (fst (executeQuery net attempt retries)) <= 1000 * Z.of_nat retries)%Z.
Proof.
  induction retries as [|retries IH]; intros attempt.
  - exists O. rewrite Nat.add_0_r. cbn [executeQuery].
    destruct (attemptResult (net attempt)) as [e|d] eqn:E;
      cbn [fst snd retryTrace posts waited];
      (split; [lia|]); (split; [reflexivity|]); (split; [reflexivity|]);
      (split; [intros; lia|]); (split; [intros; lia|]); split; lia.
  - cbn [executeQuery].
    destruct (attemptResult (net attempt)) as [e|d] eqn:E.
    + destruct (connectionError e) eqn:C.
      * destruct (IH (S attempt)) as [k [Hk [Ht [Hr [Hall [Hlast [Hp Hw]]]]]]].
        destruct (executeQuery net (S attempt) retries) as [tr r].
        cbn [fst snd] in *. exists (S k).
        rewrite Ht. replace (attempt + S k)%nat with (S attempt + k)%nat by lia.
        split; [lia|]. split; [reflexivity|]. split; [exact Hr|].
        destruct (retryTrace_cost k (S attempt)) as [P W].
        repeat split.
        -- intros [|i] Hi.
           ++ rewrite Nat.add_0_r. unfold retriable. rewrite E. exact C.
           ++ replace (attempt + S i)%nat with (S attempt + i)%nat by lia.
              apply Hall. lia.
        -- intros Hlt. apply Hlast. lia.
        -- cbn [retryTrace posts]. rewrite P. lia.
        -- cbn [retryTrace waited]. rewrite W. lia.
      * exists O. rewrite Nat.add_0_r. cbn [fst snd retryTrace posts waited].
        split; [lia|]. split; [reflexivity|]. split; [symmetry; exact E|].
        split; [intros; lia|].
        split; [intros _; unfold retriable; rewrite E; exact C|]. split; lia.
    + exists O. rewrite Nat.add_0_r. cbn [fst snd retryTrace posts waited].
      split; [lia|]. split; [reflexivity|]. split; [symmetry; exact E|].
      split; [intros; lia|].
      split; [intros _; unfold retriable; rewrite E; reflexivity|]. split; lia.
Qed.

(** X16.  What reaches the board from a decoded payload: at most the four
    columns, in a fixed order, each holding a number that is not [NaN] or a
    text that is not empty; the currency and the invoice date of the record
    are never written. *)
Theorem board_receives_well_formed_cells (qrData : str) (d : invoiceData) :
  parseQRCodeData qrData = Ok d ->
  Forall wellFormed (map snd (mapDataToColumns d))
  /\ (exists keep,
        map fst (mapDataToColumns d)
        = filter keep [lit "numeric_mkwbrpmz"; lit "text_mkwb4nns";
                       lit "text_mkwbcyg3"; lit "text_mkwbb9"])
  /\ (forall cur date,
        mapDataToColumns
          {| totalValue := totalValue d; currency := cur;
             invoiceNumber := invoiceNumber d; invoiceDate := date;
             supplierName := supplierName d; customerNIF := customerNIF d |}
        = mapDataToColumns d).
Proof.
  intros H. split; [|split].
  - unfold mapDataToColumns. rewrite !map_app.
    apply Forall_app; split; [|apply Forall_app; split; [|apply Forall_app; split]].
    + destruct (totalValue d) as [x|] eqn:T; [|constructor].
      constructor; [|constructor]. cbn [snd wellFormed].
      exact (proj1 (qr_total_spec qrData d x H T)).
    + destruct (invoiceNumber d) as [[|c s]|]; try constructor;
        [discriminate | constructor].
    + destruct (supplierName d) as [[|c s]|]; try constructor;
        [discriminate | constructor].
    + destruct (customerNIF d) as [[|c s]|]; try constructor;
        [discriminate | constructor].
  - exists (fun k =>
              (str_eqb k (lit "numeric_mkwbrpmz")
               && match totalValue d with Some _ => true | None => false end)
              || (str_eqb k (lit "text_mkwb4nns") && is_truthy_str (invoiceNumber d))
              || (str_eqb k (lit "text_mkwbcyg3") && is_truthy_str (supplierName d))
              || (str_eqb k (lit "text_mkwbb9") && is_truthy_str (customerNIF d))).
    unfold mapDataToColumns.
    destruct (totalValue d); destruct (invoiceNumber d) as [[|? ?]|];
      destruct (supplierName d) as [[|? ?]|]; destruct (customerNIF d) as [[|? ?]|];
      reflexivity.
  - intros cur date. reflexivity.
Qed.

Lemma board_receives_well_formed_cells_witness :
  exists d,
    parseQRCodeData (lit "A:500000000*O:55,20*F:20250929") = Ok d
    /\ Forall wellFormed (map snd (mapDataToColumns d)).
Proof.
  eexists. split; [vm_compute; reflexivity|].
  eapply (proj1 (board_receives_well_formed_cells
                   (lit "A:500000000*O:55,20*F:20250929") _ _)).
  Unshelve. vm_compute. reflexivity.
Defined.

Lemma str_eqb_refl (a : str) : str_eqb a a = true.
Proof. apply str_eqb_eq. reflexivity. Qed.

Lemma cacheGet_set (key : str) (v : cached) (c : cache) :
  cacheGet key (cacheSet key v c) = Some v.
Proof. unfold cacheSet. cbn [cacheGet]. rewrite str_eqb_refl. reflexivity. Qed.

Lemma cacheGet_set_other (key key' : str) (v : cached) (c : cache) :
  key' <> key -> cacheGet key' (cacheSet key v c) = cacheGet key' c.
Proof.
  intros Hne. unfold cacheSet. cbn [cacheGet].
  destruct (str_eqb key key') eqn:E.
  { apply str_eqb_eq in E. congruence. }
  induction c as [|[k x] c IH]; [reflexivity|]. cbn [filter fst cacheGet].
  destruct (str_eqb k key) eqn:K; cbn [negb].
  - apply str_eqb_eq in K. subst k. rewrite E. exact IH.
  - cbn [cacheGet]. destruct (str_eqb k key'); [reflexivity | exact IH].
Qed.

(** X17.  The cache of asset URLs: a URL fetched from the API and stored at
    time [stored] is returned without any query to every call for the same
    asset made less than one hour (3 600 000 ms) after [stored], whatever the
    API would answer then; from one hour on the API is queried again.  The
    entries of the other assets are untouched, and a failed query leaves the
    cache as it was. *)
Theorem asset_url_is_cached_for_one_hour (c : cache) (key : str) (now : Z)
        (publicUrl : option str) (others : list (option str)) (stored : Z) :
  (forall e, cacheGet key c = Some e -> (CACHE_TTL <= now - timestamp e)%Z) ->
  exists c1,
    getAssetUrl c key now (inr (Some (publicUrl :: others))) stored
    = (c1, true, inr publicUrl)
    /\ (forall now' answer stored',
          (now' - stored < CACHE_TTL)%Z ->
          getAssetUrl c1 key now' answer stored' = (c1, false, inr publicUrl))
    /\ (forall now' answer stored',
          (CACHE_TTL <= now' - stored)%Z ->
          snd (fst (getAssetUrl c1 key now' answer stored')) = true)
    /\ (forall key', key' <> key -> cacheGet key' c1 = cacheGet key' c)
    /\ (forall e, fst (fst (getAssetUrl c key now (inl e) stored)) = c).
Proof.
  intros Hmiss.
  exists (cacheSet key {| url := publicUrl; timestamp := stored |} c).
  assert (Miss : forall answer,
             getAssetUrl c key now answer stored
             = match answer with
               | inl e => (c, true, inl e)
               | inr (Some (u :: _)) =>
                   (cacheSet key {| url := u; timestamp := stored |} c, true, inr u)
               | inr _ =>
                   (c, true,
                    inl {| code := None;
                           message := lit "Asset " ++ key ++ lit " not found" |})
               end).
  { intros answer. unfold getAssetUrl.
    destruct (cacheGet key c) as [e|] eqn:G; [|reflexivity].
    specialize (Hmiss e eq_refl).
    replace (now - timestamp e <? CACHE_TTL)%Z with false
      by (symmetry; apply Z.ltb_ge; exact Hmiss).
    reflexivity. }
  split; [apply Miss|]. split; [|split; [|split]].
  - intros now' answer stored' Hlt. unfold getAssetUrl. rewrite cacheGet_set.
    cbn [timestamp url]. apply Z.ltb_lt in Hlt. rewrite Hlt. reflexivity.
  - intros now' answer stored' Hge. unfold getAssetUrl. rewrite cacheGet_set.
    cbn [timestamp url].
    replace (now' - stored <? CACHE_TTL)%Z with false
      by (symmetry; apply Z.ltb_ge; exact Hge).
    destruct answer as [e|[[|u l]|]]; reflexivity.
  - intros key' Hne. apply cacheGet_set_other. exact Hne.
  - intros e. rewrite Miss. reflexivity.
Qed.

Lemma asset_url_is_cached_for_one_hour_witness :
  exists c1,
    getAssetUrl [] (lit "1234567") 1700000000000
                (inr (Some [Some (lit "https://files.example/a.pdf")])) 1700000000350
    = (c1, true, inr (Some (lit "https://files.example/a.pdf")))
    /\ (forall now' answer stored',
          (now' - 1700000000350 < CACHE_TTL)%Z ->
          getAssetUrl c1 (lit "1234567") now' answer stored'
          = (c1, false, inr (Some (lit "https://files.example/a.pdf")))).
Proof.
  destruct (asset_url_is_cached_for_one_hour [] (lit "1234567") 1700000000000
              (Some (lit "https://files.example/a.pdf")) [] 1700000000350)
    as [c1 [H1 [H2 _]]].
  - intros e H. discriminate H.
  - exists c1. split; [exact H1 | exact H2].
Defined.

End MondayFacts.

(* ================================================================== *)
(** * Properties of the dispatch on the file type *)

Section ExtractionFacts.
Import Js FieldParser Extraction.

Lemma split_length (d : char) (s : str) :
  length (split d s) = S (count_occ N.eq_dec s d).
Proof.
  induction s as [|c t IH]; simpl; [reflexivity|].
  destruct (N.eqb_spec c d) as [->|Hne].
  - destruct (N.eq_dec d d) as [_|F]; [|contradiction]. simpl. rewrite IH. reflexivity.
  - destruct (N.eq_dec c d) as [F|_]; [contradiction|].
    destruct (split d t) as [|h r]; simpl in *; [discriminate|exact IH].
Qed.

Lemma existsb_str_eqb (s : str) (l : list str) :
  existsb (str_eqb s) l = true <-> In s l.
Proof.
  rewrite existsb_exists. split.
  - intros [x [Hx E]]. apply str_eqb_eq in E. subst. exact Hx.
  - intros H. exists s. split; [exact H|apply str_eqb_refl].
Qed.

Lemma str_eqb_neq (a b : str) : str_eqb a b = false <-> a <> b.
Proof.
  split.
  - intros H E. subst. rewrite str_eqb_refl in H. discriminate.
  - intros H. destruct (str_eqb a b) eqn:E; [|reflexivity].
    apply str_eqb_eq in E. contradiction.
Qed.

Lemma extractFromImage_spec (image : Cascade.world) :
  exists r, extractFromImage image = inr r
    /\ method r = Some (lit "qr-code")
    /\ match snd (Cascade.scanQRCode image) with
       | Some (c :: t) =>
           text r = c :: t /\ parseQRCodeData (c :: t) = Ok (fields r)
           /\ currency (fields r) = Some (lit "EUR")
       | _ => text r = [] /\ fields r = Pdf.noFields
       end.
Proof.
  unfold extractFromImage.
  destruct (snd (Cascade.scanQRCode image)) as [[|c t]|].
  - eexists. split; [reflexivity|]. split; [reflexivity|]. split; reflexivity.
  - destruct (parseQRCodeData_total (c :: t)) as [d [E [Hc _]]]. rewrite E.
    eexists. split; [reflexivity|]. split; [reflexivity|].
    split; [reflexivity|]. split; [reflexivity|exact Hc].
  - eexists. split; [reflexivity|]. split; [reflexivity|]. split; reflexivity.
Qed.

Lemma extractFromText_spec (t : str) :
  exists r, extractFromText (Some t) = inr r
    /\ text r = t /\ method r = None
    /\ textLength r = Some (length t)
    /\ lines r = Some (S (count_occ N.eq_dec t 10))
    /\ parseInvoiceData t = Ok (fields r).
Proof.
  unfold extractFromText.
  destruct (parseInvoiceData_total t) as [d [E _]]. rewrite E.
  eexists. split; [reflexivity|]. cbn [text method textLength lines fields].
  rewrite split_length. repeat (split; [reflexivity|]). reflexivity.
Qed.

End ExtractionFacts.

(** X18.  [extractData] throws in two cases only: the lower-cased extension
    is none of .pdf, .png, .jpg, .jpeg, .gif, .bmp, .txt (unsupported file
    type), or the file is a .txt file that cannot be read.  A PDF or an image
    never makes it throw, whatever the file holds, and no parser error
    escapes. *)
Theorem extractData_throws_only_for_type_or_read
  (f : Extraction.file) (e : Extraction.failure) :
  Extraction.extractData f = inl e
  <-> (e = Extraction.UnsupportedFileType
       /\ ~ In (Extraction.toLowerCase (Extraction.extension f))
               [Js.lit ".pdf"; Js.lit ".png"; Js.lit ".jpg"; Js.lit ".jpeg";
                Js.lit ".gif"; Js.lit ".bmp"; Js.lit ".txt"])
      \/ (e = Extraction.ReadError
          /\ Extraction.toLowerCase (Extraction.extension f) = Js.lit ".txt"
          /\ Extraction.asText f = None).
Proof.
  unfold Extraction.extractData.
  set (x := Extraction.toLowerCase (Extraction.extension f)).
  destruct (Js.str_eqb x (Js.lit ".pdf")) eqn:Epdf.
  { apply str_eqb_eq in Epdf. split; [discriminate|].
    intros [[_ H]|[_ [H _]]].
    - exfalso. apply H. left. symmetry. exact Epdf.
    - rewrite H in Epdf. vm_compute in Epdf. discriminate. }
  destruct (existsb (Js.str_eqb x) Extraction.imageExtensions) eqn:Eimg.
  { apply existsb_str_eqb in Eimg.
    destruct (extractFromImage_spec (Extraction.asImage f)) as [r [E _]].
    rewrite E. split; [discriminate|].
    intros [[_ H]|[_ [H _]]].
    - exfalso. apply H. right. unfold Extraction.imageExtensions in Eimg.
      cbn [In] in *. tauto.
    - rewrite H in Eimg. exfalso. cbn [In Extraction.imageExtensions] in Eimg.
      repeat (destruct Eimg as [Eimg|Eimg]; [vm_compute in Eimg; discriminate|]).
      exact Eimg. }
  destruct (Js.str_eqb x (Js.lit ".txt")) eqn:Etxt.
  { apply str_eqb_eq in Etxt.
    destruct (Extraction.asText f) as [t|] eqn:Et.
    - destruct (extractFromText_spec t) as [r [E _]]. rewrite E.
      split; [discriminate|].
      intros [[_ H]|[_ [_ H]]]; [|discriminate].
      exfalso. apply H. rewrite Etxt. cbn [In]. tauto.
    - cbn [Extraction.extractFromText]. split.
      + intros H. injection H as <-. right. repeat split; assumption.
      + intros [[_ H]|[-> _]]; [|reflexivity].
        exfalso. apply H. rewrite Etxt. cbn [In]. tauto. }
  split.
  - intros H. injection H as <-. left. split; [reflexivity|].
    apply str_eqb_neq in Epdf, Etxt.
    assert (Hn : ~ In x Extraction.imageExtensions).
    { intros H. apply existsb_str_eqb in H. rewrite H in Eimg. discriminate. }
    assert (Hp : Js.lit ".pdf" <> x) by (intros E; apply Epdf; symmetry; exact E).
    assert (Ht : Js.lit ".txt" <> x) by (intros E; apply Etxt; symmetry; exact E).
    unfold Extraction.imageExtensions in Hn. cbn [In] in *. tauto.
  - intros [[-> _]|[_ [H _]]]; [reflexivity|].
    apply str_eqb_neq in Etxt. contradiction.
Qed.

(** X19.  For a readable .txt file [extractData] returns the text as read,
    its length, and a line count that is one more than the number of line
    feeds in it: an empty file has one line, a final line feed adds an empty
    last line.  The invoice fields are those of [parseInvoiceData]. *)
Theorem text_file_line_count (f : Extraction.file) (t : Js.str) :
  Extraction.toLowerCase (Extraction.extension f) = Js.lit ".txt" ->
  Extraction.asText f = Some t ->
  exists r, Extraction.extractData f = inr r
    /\ Extraction.text r = t
    /\ Extraction.method r = None
    /\ Extraction.textLength r = Some (length t)
    /\ Extraction.lines r = Some (S (count_occ N.eq_dec t 10))
    /\ FieldParser.parseInvoiceData t = FieldParser.Ok (Extraction.fields r).
Proof.
  intros Hx Ht. unfold Extraction.extractData. rewrite Hx, Ht.
  exact (extractFromText_spec t).
Qed.

Lemma text_file_line_count_witness :
  exists r,
    Extraction.extractData
      {| Extraction.extension := Js.lit ".TXT";
         Extraction.asPdf := Pdf.withoutCode;
         Extraction.asImage := Cascade.undecodable 10 10;
         Extraction.asText := Some (Js.lit "Total: 10,00" ++ [10]) |} = inr r
    /\ Extraction.text r = Js.lit "Total: 10,00" ++ [10]
    /\ Extraction.method r = None
    /\ Extraction.textLength r = Some 13%nat
    /\ Extraction.lines r = Some 2%nat
    /\ FieldParser.parseInvoiceData (Js.lit "Total: 10,00" ++ [10])
       = FieldParser.Ok (Extraction.fields r).
Proof.
  apply (text_file_line_count
           {| Extraction.extension := Js.lit ".TXT";
              Extraction.asPdf := Pdf.withoutCode;
              Extraction.asImage := Cascade.undecodable 10 10;
              Extraction.asText := Some (Js.lit "Total: 10,00" ++ [10]) |}
           (Js.lit "Total: 10,00" ++ [10]));
    vm_compute; reflexivity.
Defined.

(** X20.  For an image file (.png, .jpg, .jpeg, .gif, .bmp in any letter
    case) [extractData] always returns a result with method 'qr-code'.  When
    the scan returns a non-empty payload the text is that payload and the
    fields are its parse, with currency EUR; otherwise the text is empty and
    every invoice field is null. *)
Theorem image_file_extraction (f : Extraction.file) :
  In (Extraction.toLowerCase (Extraction.extension f)) Extraction.imageExtensions ->
  exists r, Extraction.extractData f = inr r
    /\ Extraction.method r = Some (Js.lit "qr-code")
    /\ match snd (Cascade.scanQRCode (Extraction.asImage f)) with
       | Some (c :: t) =>
           Extraction.text r = c :: t
           /\ FieldParser.parseQRCodeData (c :: t) = FieldParser.Ok (Extraction.fields r)
           /\ FieldParser.currency (Extraction.fields r) = Some (Js.lit "EUR")
       | _ => Extraction.text r = [] /\ Extraction.fields r = Pdf.noFields
       end.
Proof.
  intros H. unfold Extraction.extractData.
  destruct (Js.str_eqb _ (Js.lit ".pdf")) eqn:Epdf.
  { apply str_eqb_eq in Epdf. rewrite Epdf in H. exfalso.
    cbn [In Extraction.imageExtensions] in H.
    repeat (destruct H as [H|H]; [vm_compute in H; discriminate|]). exact H. }
  apply existsb_str_eqb in H. rewrite H.
  exact (extractFromImage_spec (Extraction.asImage f)).
Qed.

Lemma image_file_extraction_witness :
  exists r,
    Extraction.extractData
      {| Extraction.extension := Js.lit ".JpEg";
         Extraction.asPdf := Pdf.withoutCode;
         Extraction.asImage :=
           Cascade.decodableOnlyBy 300 300 Cascade.invert_normalize
             (Js.lit "A:123456789*O:12,30");
         Extraction.asText := None |} = inr r
    /\ Extraction.method r = Some (Js.lit "qr-code")
    /\ match
         snd (Cascade.scanQRCode
                (Cascade.decodableOnlyBy 300 300 Cascade.invert_normalize
                   (Js.lit "A:123456789*O:12,30")))
       with
       | Some (c :: t) =>
           Extraction.text r = c :: t
           /\ FieldParser.parseQRCodeData (c :: t) = FieldParser.Ok (Extraction.fields r)
           /\ FieldParser.currency (Extraction.fields r) = Some (Js.lit "EUR")
       | _ => Extraction.text r = [] /\ Extraction.fields r = Pdf.noFields
       end.
Proof.
  apply (image_file_extraction
           {| Extraction.extension := Js.lit ".JpEg";
              Extraction.asPdf := Pdf.withoutCode;
              Extraction.asImage :=
                Cascade.decodableOnlyBy 300 300 Cascade.invert_normalize
                  (Js.lit "A:123456789*O:12,30");
              Extraction.asText := None |}).
  vm_compute. tauto.
Defined.

(* ================================================================== *)
(** * Properties of the PDF result *)


(** X21.  [extractFromPDF] returns the payload of the highest scale that
    gives one: when page 1 loads, every scale above [x] gives nothing (the
    render raises, or the scan returns null or the empty text) and the scan
    at [x] reads a non-empty payload, the result is that payload parsed, with
    method 'qr-code-pdf', and no lower scale is rendered. *)
Theorem pdf_highest_decodable_scale_wins
  (d : Pdf.document) (l1 : list Q) (x : Q) (l2 : list Q)
  (c : Js.char) (t : Js.str) :
  Pdf.pageLoads d = true ->
  Pdf.scales = l1 ++ x :: l2 ->
  Forall (PdfOutcome.blankAt d) l1 ->
  PdfOutcome.readsAt d x (c :: t) ->
  exists f,
    FieldParser.parseQRCodeData (c :: t) = FieldParser.Ok f
    /\ Pdf.extractFromPDF d
       = (l1 ++ [x],
          {| Pdf.text := c :: t; Pdf.method := Js.lit "qr-code-pdf";
             Pdf.fields := f |}).
Proof.
  intros Hp Hs Hl Hx.
  destruct (reads_atScale d x c t Hx) as [f [Ef Ex]].
  exists f. split; [exact Ef|].
  unfold Pdf.extractFromPDF. rewrite Hp, Hs.
  assert (Hn : Forall (fun y => Pdf.atScale d y = None) l1).
  { eapply Forall_impl; [|exact Hl]. intros y Hy. apply atScale_blank. exact Hy. }
  rewrite (tryScales_first d l1 x l2 _ Hn Ex). reflexivity.
Qed.

Lemma pdf_highest_decodable_scale_wins_witness :
  exists f,
    FieldParser.parseQRCodeData (Js.lit "A:123456789*O:12,30") = FieldParser.Ok f
    /\ Pdf.extractFromPDF (Pdf.decodableAtLowestScale (Js.lit "A:123456789*O:12,30"))
       = ([4; 7 # 2; 3; 5 # 2]%Q ++ [2%Q],
          {| Pdf.text := Js.lit "A:123456789*O:12,30";
             Pdf.method := Js.lit "qr-code-pdf";
             Pdf.fields := f |}).
Proof.
  apply (pdf_highest_decodable_scale_wins
           (Pdf.decodableAtLowestScale (Js.lit "A:123456789*O:12,30"))
           [4; 7 # 2; 3; 5 # 2]%Q 2%Q []).
  - reflexivity.
  - reflexivity.
  - repeat constructor.
  - eexists. split; vm_compute; reflexivity.
Defined.

(** X22.  The method of the result of [extractFromPDF] tells what happened.
    'qr-code-pdf': the text is a non-empty payload read at one of the five
    scales and the fields are its parse.  'qr-code-pdf-failed': page 1
    loaded, all five scales were tried and none gave a payload.
    'qr-code-pdf-error': the file or page 1 did not load and no scale was
    tried.  In the last two cases the text is empty and every invoice field
    is null.  There is no other result, and no exception. *)
Theorem pdf_method_tells_the_outcome (d : Pdf.document) :
  let r := snd (Pdf.extractFromPDF d) in
  (Pdf.method r = Js.lit "qr-code-pdf"
   /\ Pdf.pageLoads d = true
   /\ Pdf.text r <> []
   /\ (exists x, In x Pdf.scales /\ PdfOutcome.readsAt d x (Pdf.text r))
   /\ FieldParser.parseQRCodeData (Pdf.text r) = FieldParser.Ok (Pdf.fields r))
  \/ (Pdf.method r = Js.lit "qr-code-pdf-failed"
      /\ Pdf.pageLoads d = true
      /\ fst (Pdf.extractFromPDF d) = Pdf.scales
      /\ Forall (PdfOutcome.blankAt d) Pdf.scales
      /\ Pdf.text r = [] /\ Pdf.fields r = Pdf.noFields)
  \/ (Pdf.method r = Js.lit "qr-code-pdf-error"
      /\ Pdf.pageLoads d = false
      /\ fst (Pdf.extractFromPDF d) = []
      /\ Pdf.text r = [] /\ Pdf.fields r = Pdf.noFields).
Proof.
  unfold Pdf.extractFromPDF.
  destruct (Pdf.pageLoads d) eqn:Hp.
  - pose proof (tryScales_outcome d Pdf.scales) as H.
    destruct (Pdf.tryScales d Pdf.scales) as [tried [r|]] eqn:E; cbn [snd fst] in *.
    + left. destruct H as [x [Hx Ex]].
      destruct (atScale_reads d x r Ex) as [Hm [Ht [Hr Hf]]].
      split; [exact Hm|]. split; [reflexivity|]. split; [exact Ht|].
      split; [exists x; split; assumption|exact Hf].
    + right. left. split; [reflexivity|]. split; [reflexivity|].
      split.
      * pose proof (tryScales_exhausted d Pdf.scales H) as E'.
        rewrite E in E'. injection E' as ->. reflexivity.
      * split; [|split; reflexivity].
        eapply Forall_impl; [|exact H]. intros y Hy. apply atScale_blank. exact Hy.
  - right. right. cbn [snd fst Pdf.method Pdf.text Pdf.fields].
    repeat (split; [reflexivity|]). reflexivity.
Qed.

(* ================================================================== *)
(** * Properties of the processing of one item *)

Section ItemFacts.
Import Js Item.

Variable E : Type.
Variable w : world E.

Lemma cleanUp_unlink (p : str) :
  p <> [] -> existsSync w p = true -> cleanUp w (Some p) = [Unlink p].
Proof.
  intros Hne Hex. destruct p as [|c p]; [contradiction|].
  cbn [cleanUp]. rewrite Hex. reflexivity.
Qed.

Lemma cleanUp_in (p q : str) :
  In (Unlink q) (cleanUp w (Some p)) -> q = p /\ existsSync w p = true.
Proof.
  destruct p as [|c p]; cbn [cleanUp]; [intros []|].
  destruct (existsSync w (c :: p)) eqn:Hex; [|intros []].
  intros [H|[]]. injection H as <-. split; reflexivity.
Qed.

Lemma cleanUp_only_unlinks (p : option str) (a : action) :
  In a (cleanUp w p) -> exists q, a = Unlink q.
Proof.
  destruct p as [[|c p]|]; cbn [cleanUp]; try (intros []).
  destruct (existsSync w (c :: p)); [|intros []].
  intros [<-|[]]. eexists. reflexivity.
Qed.

(** The run of [processItemExtraction] once the download has resolved. *)
Lemma processItemExtraction_downloaded (file : fileRef) (rest : list fileRef)
  (u : fileUrl) (target : option str) (filePath : str) :
  itemFiles w = inr (Some (file :: rest)) ->
  url file = Some u -> truthyUrl u = true ->
  match u with
  | UrlText s => target = Some s
  | AssetId n => assetUrl w n = inr target
  end ->
  download w target (name file) = inr filePath ->
  exists asked,
    (forall a, In a asked -> exists n, a = GetAssetUrl n)
    /\ let extracting :=
         GetItemFiles :: asked ++ [DownloadFile target (name file)]
         ++ [ExtractData filePath (name file)] in
       match extract w filePath (name file) with
       | inl error =>
           processItemExtraction w
           = (extracting ++ cleanUp w (Some filePath), Some error)
       | inr data =>
           processItemExtraction w
           = ((extracting ++ [UpdateMondayBoard data]) ++ cleanUp w (Some filePath),
              match update w data with inl error => Some error | inr _ => None end)
       end.
Proof.
  intros Hf Hu Ht Hm Hd. unfold processItemExtraction. rewrite Hf, Hu, Ht.
  cbn [negb].
  destruct u as [s|n].
  - subst target. exists []. split; [intros a []|]. rewrite Hd.
    cbn [app]. destruct (extract w filePath (name file)) as [error|data].
    + reflexivity.
    + destruct (update w data); reflexivity.
  - rewrite Hm. exists [GetAssetUrl n].
    split; [intros a [<-|[]]; eexists; reflexivity|]. rewrite Hd.
    cbn [app]. destruct (extract w filePath (name file)) as [error|data].
    + reflexivity.
    + destruct (update w data); reflexivity.
Qed.

(** Every run is of one of two kinds: the download did not resolve and the
    run holds neither extraction, update nor removal; or the download
    resolved. *)
Lemma processItemExtraction_cases :
  (exists trace result,
      processItemExtraction w = (trace, result)
      /\ (forall a, In a trace ->
            a = GetItemFiles \/ (exists n, a = GetAssetUrl n)
            \/ exists target fileName, a = DownloadFile target fileName)
      /\ match result with
         | Some error => raisedBy w error
         | None => nothingToDo w /\ trace = [GetItemFiles]
         end)
  \/ (exists file rest u target filePath,
        itemFiles w = inr (Some (file :: rest))
        /\ url file = Some u /\ truthyUrl u = true
        /\ match u with
           | UrlText s => target = Some s
           | AssetId n => assetUrl w n = inr target
           end
        /\ download w target (name file) = inr filePath).
Proof.
  unfold processItemExtraction.
  destruct (itemFiles w) as [error|[[|file rest]|]] eqn:Hf.
  - left. do 2 eexists. split; [reflexivity|]. split.
    + intros a [<-|[]]. left. reflexivity.
    + left. exact Hf.
  - left. do 2 eexists. split; [reflexivity|]. split.
    + intros a [<-|[]]. left. reflexivity.
    + split; [right; left; exact Hf|reflexivity].
  - destruct (url file) as [u|] eqn:Hu.
    2:{ left. do 2 eexists. split; [reflexivity|]. split.
        + intros a [<-|[]]. left. reflexivity.
        + split; [|reflexivity]. right. right. exists file, rest.
          split; [exact Hf|]. rewrite Hu. exact I. }
    destruct (truthyUrl u) eqn:Ht; cbn [negb].
    2:{ left. do 2 eexists. split; [reflexivity|]. split.
        + intros a [<-|[]]. left. reflexivity.
        + split; [|reflexivity]. right. right. exists file, rest.
          split; [exact Hf|]. rewrite Hu. exact Ht. }
    destruct u as [s|n].
    + destruct (download w (Some s) (name file)) as [error|filePath] eqn:Hd.
      * left. do 2 eexists. split; [reflexivity|]. split.
        -- cbn [app cleanUp]. intros a [<-|[<-|[]]]; [left; reflexivity|].
           right. right. do 2 eexists. reflexivity.
        -- right. right. left. do 2 eexists. exact Hd.
      * right. exists file, rest, (UrlText s), (Some s), filePath.
        repeat (split; [first [reflexivity|assumption]|]). exact Hd.
    + destruct (assetUrl w n) as [error|target] eqn:Ha.
      * left. do 2 eexists. split; [reflexivity|]. split.
        -- cbn [app cleanUp]. intros a [<-|[<-|[]]]; [left; reflexivity|].
           right. left. eexists. reflexivity.
        -- right. left. exists n. exact Ha.
      * destruct (download w target (name file)) as [error|filePath] eqn:Hd.
        -- left. do 2 eexists. split; [reflexivity|]. split.
           ++ cbn [app cleanUp]. intros a [<-|[<-|[<-|[]]]]; [left; reflexivity| |].
              ** right. left. eexists. reflexivity.
              ** right. right. do 2 eexists. reflexivity.
           ++ right. right. left. do 2 eexists. exact Hd.
        -- right. exists file, rest, (AssetId n), target, filePath.
           repeat (split; [first [reflexivity|assumption]|]). exact Hd.
  - left. do 2 eexists. split; [reflexivity|]. split.
    + intros a [<-|[]]. left. reflexivity.
    + split; [left; exact Hf|reflexivity].
Qed.

End ItemFacts.

Section ItemRuns.
Import Js Item.

Variable E : Type.
Variable w : world E.

Ltac only_calls H :=
  cbn [In app] in H; rewrite ?in_app_iff in H; cbn [In] in H.

(** The run after a download, as a list of actions with the removal last. *)
Lemma run_after_download (filePath : str) :
  downloadedTo w filePath ->
  exists before file,
    fst (processItemExtraction w) = before ++ cleanUp w (Some filePath)
    /\ (forall p, ~ In (Unlink p) before)
    /\ In (ExtractData filePath (name file)) before
    /\ (forall path fileName,
          In (ExtractData path fileName) before -> path = filePath)
    /\ (forall data,
          In (UpdateMondayBoard data) before ->
          extract w filePath (name file) = inr data)
    /\ match snd (processItemExtraction w) with
       | Some error => raisedBy w error
       | None => exists data u,
           In (UpdateMondayBoard data) before /\ update w data = inr u
       end.
Proof.
  intros [file [rest [u [target [Hf [Hu [Ht [Hm Hd]]]]]]]].
  destruct (processItemExtraction_downloaded E w file rest u target filePath
              Hf Hu Ht Hm Hd) as [asked [Hasked H]].
  cbv zeta in H.
  destruct (extract w filePath (name file)) as [error|data] eqn:He.
  - rewrite H. cbn [fst snd]. eexists. exists file. split; [reflexivity|].
    split; [|split; [|split; [|split]]].
    + intros p Hin. only_calls Hin.
      destruct Hin as [Hin|[Hin|[Hin|[Hin|[]]]]]; try discriminate.
      destruct (Hasked _ Hin) as [n Hn]. discriminate.
    + right. apply in_or_app. right. right. left. reflexivity.
    + intros path fileName Hin. only_calls Hin.
      destruct Hin as [Hin|[Hin|[Hin|[Hin|[]]]]]; try discriminate.
      * destruct (Hasked _ Hin) as [n Hn]. discriminate.
      * injection Hin as <- _. reflexivity.
    + intros data Hin. only_calls Hin.
      destruct Hin as [Hin|[Hin|[Hin|[Hin|[]]]]]; try discriminate.
      destruct (Hasked _ Hin) as [n Hn]. discriminate.
    + right. right. right. left. do 2 eexists. exact He.
  - rewrite H. cbn [fst snd]. eexists. exists file. split; [reflexivity|].
    split; [|split; [|split; [|split]]].
    + intros p Hin. only_calls Hin.
      destruct Hin as [Hin|[[Hin|[Hin|[Hin|[]]]]|[Hin|[]]]]; try discriminate.
      destruct (Hasked _ Hin) as [n Hn]. discriminate.
    + apply in_or_app. left. right. apply in_or_app. right. right. left.
      reflexivity.
    + intros path fileName Hin. only_calls Hin.
      destruct Hin as [Hin|[[Hin|[Hin|[Hin|[]]]]|[Hin|[]]]]; try discriminate.
      * destruct (Hasked _ Hin) as [n Hn]. discriminate.
      * injection Hin as <- _. reflexivity.
    + intros data' Hin. only_calls Hin.
      destruct Hin as [Hin|[[Hin|[Hin|[Hin|[]]]]|[Hin|[]]]]; try discriminate.
      * destruct (Hasked _ Hin) as [n Hn]. discriminate.
      * injection Hin as <-. exact He.
    + destruct (update w data) as [error|u'] eqn:Hup.
      * right. right. right. right. exists data. exact Hup.
      * exists data, u'. split; [|exact Hup].
        apply in_or_app. right. left. reflexivity.
Qed.

Lemma processEach_stops (l1 : list (world E)) (i : world E)
  (l2 : list (world E)) (error : E) :
  Forall (fun i => snd (processItemExtraction i) = None) l1 ->
  snd (processItemExtraction i) = Some error ->
  processEach (l1 ++ i :: l2)
  = (map (fun i => fst (processItemExtraction i)) (l1 ++ [i]), Some error).
Proof.
  intros H Hi. induction H as [|j l1 Hj Hl IH]; cbn [processEach map app].
  - destruct (processItemExtraction i) as [actions result]. cbn [fst snd] in *.
    subst result. reflexivity.
  - destruct (processItemExtraction j) as [actions result]. cbn [fst snd] in *.
    subst result. rewrite IH. reflexivity.
Qed.

End ItemRuns.

(** X23.  [processItemExtraction] removes the file it downloaded on every
    path: once the download has resolved to a path where a file exists, the
    last action of the run is the call of [unlinkSync] on that file, whether
    extraction and board update succeed or throw, and [unlinkSync] is called
    on nothing else. *)
Theorem downloaded_file_is_removed
  (E : Type) (w : Item.world E) (filePath : Js.str) :
  Item.downloadedTo w filePath ->
  filePath <> [] ->
  Item.existsSync w filePath = true ->
  exists before,
    fst (Item.processItemExtraction w) = before ++ [Item.Unlink filePath]
    /\ forall p, ~ In (Item.Unlink p) before.
Proof.
  intros Hd Hne Hex.
  destruct (run_after_download E w filePath Hd) as [before [file [Ht [Hn _]]]].
  exists before. rewrite Ht, (cleanUp_unlink E w filePath Hne Hex).
  split; [reflexivity|exact Hn].
Qed.

Lemma downloaded_file_is_removed_witness :
  exists before,
    fst (Item.processItemExtraction
           (Item.sampleItem (inl (Js.lit "Unsupported file type: .png")) (inr tt)))
    = before ++ [Item.Unlink (Js.lit "uploads/1-invoice.png")]
    /\ forall p, ~ In (Item.Unlink p) before.
Proof.
  apply (downloaded_file_is_removed Js.str
           (Item.sampleItem (inl (Js.lit "Unsupported file type: .png")) (inr tt))
           (Js.lit "uploads/1-invoice.png")).
  - exists Item.sampleFile, [], (Item.AssetId (Num.Finite 42)),
      (Some (Js.lit "https://files.example/invoice.png")).
    repeat split.
  - discriminate.
  - reflexivity.
Defined.

(** X24.  [processItemExtraction] touches nothing before the download has
    resolved: a file it removes is the one it downloaded, and exists; a file
    it passes to [extractData] is the one it downloaded; data it sends to the
    board is what [extractData] returned for that file. *)
Theorem item_side_effects_follow_the_download (E : Type) (w : Item.world E) :
  (forall p, In (Item.Unlink p) (fst (Item.processItemExtraction w)) ->
     Item.downloadedTo w p /\ Item.existsSync w p = true)
  /\ (forall path fileName,
        In (Item.ExtractData path fileName) (fst (Item.processItemExtraction w)) ->
        Item.downloadedTo w path)
  /\ (forall data,
        In (Item.UpdateMondayBoard data) (fst (Item.processItemExtraction w)) ->
        exists filePath fileName,
          Item.downloadedTo w filePath
          /\ Item.extract w filePath fileName = inr data).
Proof.
  destruct (processItemExtraction_cases E w)
    as [[trace [result [Hr [Ht _]]]]
       |[file [rest [u [target [filePath [Hf [Hu [Htr [Hm Hd]]]]]]]]]].
  - rewrite Hr. cbn [fst].
    split; [|split].
    + intros p Hin. destruct (Ht _ Hin) as [H|[[n H]|[t [n H]]]]; discriminate.
    + intros p n Hin. destruct (Ht _ Hin) as [H|[[m H]|[t [m H]]]]; discriminate.
    + intros p Hin. destruct (Ht _ Hin) as [H|[[n H]|[t [n H]]]]; discriminate.
  - assert (Hdl : Item.downloadedTo w filePath).
    { exists file, rest, u, target. repeat (split; [assumption|]). exact Hd. }
    destruct (run_after_download E w filePath Hdl)
      as [before [file' [Ht [Hn [_ [He [Hu' _]]]]]]].
    rewrite Ht. split; [|split].
    + intros p Hin. apply in_app_or in Hin. destruct Hin as [Hin|Hin].
      * exfalso. exact (Hn p Hin).
      * apply cleanUp_in in Hin. destruct Hin as [-> Hex].
        split; assumption.
    + intros path fileName Hin. apply in_app_or in Hin. destruct Hin as [Hin|Hin].
      * rewrite (He _ _ Hin). exact Hdl.
      * apply cleanUp_only_unlinks in Hin. destruct Hin as [q Hq]. discriminate.
    + intros data Hin. apply in_app_or in Hin. destruct Hin as [Hin|Hin].
      * exists filePath, (Item.name file'). split; [exact Hdl|exact (Hu' _ Hin)].
      * apply cleanUp_only_unlinks in Hin. destruct Hin as [q Hq]. discriminate.
Qed.

(** X25.  [processItemExtraction] rejects only with the error of one of the
    calls it awaits (getItemFiles, getAssetUrl, downloadFile, extractData,
    updateMondayBoard), passed on unchanged.  It resolves in two cases only:
    there was nothing to process (no item data, no file, no URL) and it did
    nothing after getItemFiles, or the board update was sent and
    succeeded. *)
Theorem processItemExtraction_outcome (E : Type) (w : Item.world E) :
  match snd (Item.processItemExtraction w) with
  | Some error => Item.raisedBy w error
  | None =>
      (Item.nothingToDo w
       /\ fst (Item.processItemExtraction w) = [Item.GetItemFiles])
      \/ exists data u,
           In (Item.UpdateMondayBoard data) (fst (Item.processItemExtraction w))
           /\ Item.update w data = inr u
  end.
Proof.
  destruct (processItemExtraction_cases E w)
    as [[trace [result [Hr [_ Ho]]]]
       |[file [rest [u [target [filePath [Hf [Hu [Htr [Hm Hd]]]]]]]]]].
  - rewrite Hr. cbn [fst snd]. destruct result; [exact Ho|left; exact Ho].
  - assert (Hdl : Item.downloadedTo w filePath).
    { exists file, rest, u, target. repeat (split; [assumption|]). exact Hd. }
    destruct (run_after_download E w filePath Hdl)
      as [before [file' [Ht [_ [_ [_ [_ Ho]]]]]]].
    destruct (snd (Item.processItemExtraction w)); [exact Ho|].
    right. destruct Ho as [data [u' [Hin Hup]]]. exists data, u'.
    split; [|exact Hup]. rewrite Ht. apply in_or_app. left. exact Hin.
Qed.

(** X26.  [processAllBoardItems] processes the items one after the other and
    stops at the first one that rejects: the items before it are processed,
    the error is rethrown, and no later item is touched. *)
Theorem board_run_stops_at_first_failure
  (E : Type) (l1 : list (Item.world E)) (i : Item.world E)
  (l2 : list (Item.world E)) (error : E) :
  Forall (fun j => snd (Item.processItemExtraction j) = None) l1 ->
  snd (Item.processItemExtraction i) = Some error ->
  Item.processAllBoardItems (inr (Some (l1 ++ i :: l2)))
  = (map (fun j => fst (Item.processItemExtraction j)) (l1 ++ [i]), Some error).
Proof.
  intros H Hi. cbn [Item.processAllBoardItems].
  exact (processEach_stops E l1 i l2 error H Hi).
Qed.

Lemma board_run_stops_at_first_failure_witness :
  Item.processAllBoardItems
    (inr (Some ([Item.sampleItem (inr Item.sampleData) (inr tt)]
                ++ Item.sampleItem (inr Item.sampleData) (inl (Js.lit "ETIMEDOUT"))
                :: [Item.sampleItem (inr Item.sampleData) (inr tt)])))
  = (map (fun j => fst (Item.processItemExtraction j))
       ([Item.sampleItem (inr Item.sampleData) (inr tt)]
        ++ [Item.sampleItem (inr Item.sampleData) (inl (Js.lit "ETIMEDOUT"))]),
     Some (Js.lit "ETIMEDOUT")).
Proof.
  apply (board_run_stops_at_first_failure Js.str
           [Item.sampleItem (inr Item.sampleData) (inr tt)]
           (Item.sampleItem (inr Item.sampleData) (inl (Js.lit "ETIMEDOUT")))
           [Item.sampleItem (inr Item.sampleData) (inr tt)]
           (Js.lit "ETIMEDOUT")).
  - repeat constructor.
  - reflexivity.
Defined.
